(** * The layer tree of lib/layer.js

    A shallow embedding of [lib/layer.js]: the layer objects, the
    flattened-index arithmetic of [LayerGroup] ([getSize],
    [addLayerAtIndex], [findLayer]), the change applicator
    ([LayerGroup.prototype._applyChange]) and the factory [createLayer].

    Modelling decisions.
    - Layer objects are mutable and shared (a child is referenced by its
      group's [layers] array, by the [changedLayers] table and carries a
      [group] back-reference), so objects live in a store ([heap]) and are
      designated by locations.  [new] allocates at the end of the store.
    - JavaScript numbers that the code uses as indices and sizes are [Z]:
      the integers.  The code's arithmetic on them (sums of sizes,
      differences of indices, comparisons) is exact on the safe integers,
      of magnitude at most [MAX_SAFE_INTEGER], and so is their decimal
      printing in a message.
    - A property that may be absent ([name], [index], [type], [layers]) is
      an [option]; [hasOwnProperty] is [is_Some].
    - [throw] and failed [assert]s are the outcome [Throw]; the recursive
      methods take a [fuel] argument, and running out of it is the separate
      outcome [OutOfFuel].
    - The opaque payloads ([bounds], [visible], [clipped], [mask],
      [generatorSettings], [pixels], ...) are copied by the constructors and
      never read by the methods; they are left out.
    - [changedLayers] is a dictionary keyed by layer id ([gmap string _]);
      keys inherited from [Object.prototype] are outside the model. *)

From Stdlib Require Import ZArith String List Lia Sorted.
From stdpp Require Import base option list strings gmap pretty.

Local Set Warnings "-register-all".
Local Open Scope string_scope.
Local Open Scope list_scope.
Local Open Scope Z_scope.

(** ** Outcomes and the state monad *)

(** [AssertionErrorNumber message value] is the [AssertionError] whose
    message is [message] followed by the number [value] as
    [Number.prototype.toString] renders a number that is not a safe integer
    (rounded digits, or the exponent form from 1e21 on); the model does not
    spell that rendering out. *)
Inductive exn : Type :=
| AssertionError (message : string)
| AssertionErrorNumber (message : string) (value : Z)
| Error (message : string)
| TypeError.

Inductive outcome (A : Type) : Type :=
| Ret (a : A)
| Throw (e : exn)
| OutOfFuel.

Arguments Ret {A} a.
Arguments Throw {A} e.
Arguments OutOfFuel {A}.

Definition obind {A B : Type} (m : outcome A) (k : A -> outcome B) : outcome B :=
  match m with
  | Ret a => k a
  | Throw e => Throw e
  | OutOfFuel => OutOfFuel
  end.

Definition M (S A : Type) : Type := S -> S * outcome A.

Definition ret {S A : Type} (a : A) : M S A := fun s => (s, Ret a).

Definition throw {S A : Type} (e : exn) : M S A := fun s => (s, Throw e).

Definition bind {S A B : Type} (m : M S A) (k : A -> M S B) : M S B :=
  fun s =>
    match m s with
    | (s', Ret a) => k a s'
    | (s', Throw e) => (s', Throw e)
    | (s', OutOfFuel) => (s', OutOfFuel)
    end.

Definition read {S A : Type} (f : S -> outcome A) : M S A := fun s => (s, f s).

Definition modify {S : Type} (f : S -> S) : M S unit := fun s => (f s, Ret tt).

Notation "x <~ e ;; k" := (obind e (fun x => k))
  (at level 100, e at next level, right associativity).
Notation "x <- e ;; k" := (bind e (fun x => k))
  (at level 100, e at next level, right associativity).

(** ** Data model *)

(** Locations in the store. *)
Abbreviation loc := nat (only parsing).

(** The seven constructors of the file; [instanceof LayerGroup] is
    [lyr_class o = LayerGroup]. *)
Inductive layer_class : Type :=
| Layer | BackgroundLayer | ShapeLayer | TextLayer
| AdjustmentLayer | SmartObjectLayer | LayerGroup.

Global Instance layer_class_eq_dec : EqDecision layer_class.
Proof. solve_decision. Defined.

(** A layer object.  [lyr_layers] is the [layers] array of a [LayerGroup];
    the other classes have no such property. *)
Record layer : Type := mkLayer {
  lyr_class : layer_class;
  lyr_group : option loc;
  lyr_id : string;
  lyr_index : option Z;
  lyr_type : option string;
  lyr_name : option string;
  lyr_layers : list loc
}.

Definition set_name (o : layer) (name : option string) : layer :=
  mkLayer (lyr_class o) (lyr_group o) (lyr_id o) (lyr_index o) (lyr_type o)
          name (lyr_layers o).

Definition set_group (o : layer) (group : option loc) : layer :=
  mkLayer (lyr_class o) group (lyr_id o) (lyr_index o) (lyr_type o)
          (lyr_name o) (lyr_layers o).

Definition set_layers (o : layer) (layers : list loc) : layer :=
  mkLayer (lyr_class o) (lyr_group o) (lyr_id o) (lyr_index o) (lyr_type o)
          (lyr_name o) layers.

(** The store: the objects allocated so far. *)
Abbreviation heap := (list layer) (only parsing).

(** A raw layer descriptor, also used as a raw change record: the change
    applicator hands change records to [createLayer]. *)
Inductive raw : Type := mkRaw {
  raw_id : string;
  raw_index : option Z;
  raw_type : option string;
  raw_name : option string;
  raw_added : bool;
  raw_removed : bool;
  raw_layers : option (list raw)
}.

(** An entry of the [changedLayers] table. *)
Record layerRec : Type := mkLayerRec {
  rec_layer : option loc;
  rec_previousGroup : option (option loc)
}.

(** Dereferencing an object reference. *)
Definition deref (h : heap) (l : loc) : outcome layer :=
  match h !! l with
  | Some o => Ret o
  | None => Throw TypeError
  end.

Definition instanceof_LayerGroup (o : layer) : bool :=
  bool_decide (lyr_class o = LayerGroup).

(** ** BaseLayer *)

(** [BaseLayer.prototype.toString]: [this.id + ":" + (this.name || "-")]. *)
Definition BaseLayer_toString (o : layer) : string :=
  lyr_id o +:+ ":" +:+
  match lyr_name o with
  | Some n => if decide (n = "") then "-" else n
  | None => "-"
  end.

(** The array [["rename", name, previousName]] returned by [setName]. *)
Record rename_result : Type := mkRename {
  rn_op : string;
  rn_newName : option string;
  rn_previousName : option string
}.

(** [BaseLayer.prototype.setName]. *)
Definition setName (this : loc) (name : option string)
  : M heap (option rename_result) :=
  o <- read (fun h => deref h this) ;;
  if decide (lyr_name o <> name) then
    let previousName := name in
    _ <- modify (fun h => <[this := set_name o name]> h) ;;
    ret (Some (mkRename "rename" name previousName))
  else ret None.

(** [Array.prototype.some] used as a search: the first position of
    [layers] whose object has the given id ([-1] in the source is [None]). *)
Fixpoint some_index (h : heap) (id : string) (layers : list loc) (i : nat)
  : outcome (option nat) :=
  match layers with
  | [] => Ret None
  | child :: rest =>
      c <~ deref h child ;;
      if decide (lyr_id c = id) then Ret (Some i)
      else some_index h id rest (S i)
  end.

(** [splice(index, 1)] and [splice(index, 0, x)]. *)
Definition splice_out {A : Type} (index : nat) (l : list A) : list A :=
  take index l ++ drop (S index) l.

Definition splice_in {A : Type} (index : nat) (x : A) (l : list A) : list A :=
  take index l ++ x :: drop index l.

(** [BaseLayer.prototype.detach]. *)
Definition detach (this : loc) : M heap unit :=
  o <- read (fun h => deref h this) ;;
  match lyr_group o with
  | None => ret tt
  | Some parent =>
      let id := lyr_id o in
      p <- read (fun h => deref h parent) ;;
      if negb (instanceof_LayerGroup p) then throw TypeError
      else
        index <- read (fun h => some_index h id (lyr_layers p) 0) ;;
        match index with
        | None => throw (AssertionError "Unable to detach layer from parent")
        | Some index =>
            modify (fun h =>
              <[parent := set_layers p (splice_out index (lyr_layers p))]> h)
        end
  end.

(** An element of the array returned by [BaseLayer.prototype._applyChange]:
    the source pushes the array [changes] itself. *)
Inductive change_item : Type :=
| ItemResult (r : rename_result)
| ItemChangesArray.

(** [BaseLayer.prototype._applyChange]. *)
Definition BaseLayer_applyChange (this : loc) (change : raw)
  : M heap (list change_item) :=
  o <- read (fun h => deref h this) ;;
  if decide (lyr_id o <> raw_id change) then
    throw (AssertionError "Layer ID mismatch.")
  else
    let changes : list change_item := [] in
    match raw_name change with
    | Some name =>
        result <- setName this (Some name) ;;
        ret (changes ++ [ItemChangesArray])
    | None => ret changes
    end.

(** ** LayerGroup *)

(** [getSize], with its dispatch: [LayerGroup.prototype.getSize] reduces
    over [this.layers] from the seed 2, [BaseLayer.prototype.getSize]
    returns 1. *)
Fixpoint getSize (fuel : nat) (h : heap) (this : loc) : outcome Z :=
  match fuel with
  | O => OutOfFuel
  | S fuel' =>
      o <~ deref h this ;;
      if instanceof_LayerGroup o then
        fold_left
          (fun acc layer =>
             size <~ acc ;; s <~ getSize fuel' h layer ;; Ret (size + s))
          (lyr_layers o) (Ret 2)
      else Ret 1
  end.

(** How the [for] loop of [addLayerAtIndex] is left: by [break] or by
    exhausting [this.layers] ([ScanEnd]), or by the recursive call
    ([ScanRecurse]). *)
Inductive scan_result : Type :=
| ScanEnd (index : nat) (currentIndex : Z)
| ScanRecurse (child : loc) (currentIndex : Z).

(** The [for] loop of [addLayerAtIndex] over the remaining children. *)
Fixpoint scan (size_of : loc -> outcome Z) (h : heap) (targetIndex : Z)
    (layers : list loc) (index : nat) (currentIndex nextIndex : Z)
  : outcome scan_result :=
  match layers with
  | [] => Ret (ScanEnd index currentIndex)
  | child :: rest =>
      if targetIndex <=? currentIndex then Ret (ScanEnd index currentIndex)
      else
        sz <~ size_of child ;;
        let nextIndex := nextIndex + sz in
        c <~ deref h child ;;
        if (targetIndex <? nextIndex) && instanceof_LayerGroup c then
          Ret (ScanRecurse child currentIndex)
        else
          let currentIndex := nextIndex in
          scan size_of h targetIndex rest (S index) currentIndex nextIndex
  end.

Definition MAX_SAFE_INTEGER : Z := 9007199254740991.

(** The error of [assert.strictEqual(currentIndex, targetIndex,
    "Invalid insertion index: " + targetIndex)].  A safe integer is printed
    with its decimal digits; any other number is kept as it is, since
    JavaScript then prints rounded digits or the exponent form. *)
Definition invalid_insertion_index (targetIndex : Z) : exn :=
  if Z.abs targetIndex <=? MAX_SAFE_INTEGER then
    AssertionError ("Invalid insertion index: " +:+ pretty targetIndex)
  else AssertionErrorNumber "Invalid insertion index: " targetIndex.

(** [childToAdd.group = this; this.layers.splice(index, 0, childToAdd)]. *)
Definition attach (this childToAdd : loc) (index : nat) (h : heap) : heap :=
  let h1 :=
    match h !! childToAdd with
    | Some c => <[childToAdd := set_group c (Some this)]> h
    | None => h
    end in
  match h1 !! this with
  | Some o => <[this := set_layers o (splice_in index childToAdd (lyr_layers o))]> h1
  | None => h1
  end.

(** [LayerGroup.prototype.addLayerAtIndex]. *)
Fixpoint addLayerAtIndex (fuel : nat) (this childToAdd : loc) (targetIndex : Z)
  : M heap unit :=
  match fuel with
  | O => fun h => (h, OutOfFuel)
  | S fuel' =>
      o <- read (fun h => deref h this) ;;
      if negb (instanceof_LayerGroup o) then throw TypeError
      else
        sz <- read (fun h => getSize fuel' h childToAdd) ;;
        let currentIndex := sz - 1 in
        let nextIndex := currentIndex in
        r <- read (fun h => scan (getSize fuel' h) h targetIndex
                                 (lyr_layers o) 0 currentIndex nextIndex) ;;
        match r with
        | ScanRecurse child currentIndex =>
            addLayerAtIndex fuel' child childToAdd
                            (targetIndex - (currentIndex + 1))
        | ScanEnd index currentIndex =>
            if decide (currentIndex <> targetIndex) then
              throw (invalid_insertion_index targetIndex)
            else modify (attach this childToAdd index)
        end
  end.

(** The loop of [addLayerAtIndex] on its own: how the scan of [this.layers]
    for [targetIndex] ends. *)
Definition addLayerAtIndex_scan (fuel : nat) (h : heap) (this childToAdd : loc)
    (targetIndex : Z) : outcome scan_result :=
  o <~ deref h this ;;
  sz <~ getSize fuel h childToAdd ;;
  scan (getSize fuel h) h targetIndex (lyr_layers o) 0 (sz - 1) (sz - 1).

(** The callback of [this.layers.some] in [findLayer], iterated over the
    remaining children; [find_in child] is [child.findLayer(id)]. *)
Fixpoint findLayer_some (find_in : loc -> outcome (option (loc * Z)))
    (size_of : loc -> outcome Z) (h : heap) (id : string)
    (layers : list loc) (currentIndex : Z) : outcome (option (loc * Z)) :=
  match layers with
  | [] => Ret None
  | child :: rest =>
      c <~ deref h child ;;
      st <~ (if instanceof_LayerGroup c then
               let currentIndex := currentIndex + 1 in
               result <~ find_in child ;;
               match result with
               | Some (layer, index) => Ret (inl (layer, index + currentIndex))
               | None =>
                   sz <~ size_of child ;;
                   Ret (inr (currentIndex + (sz - 2)))
               end
             else Ret (inr currentIndex)) ;;
      match st with
      | inl result => Ret (Some result)
      | inr currentIndex =>
          if decide (lyr_id c = id) then Ret (Some (child, currentIndex))
          else findLayer_some find_in size_of h id rest (currentIndex + 1)
      end
  end.

(** [LayerGroup.prototype.findLayer]; the result [{layer, index}] is a
    pair, [undefined] is [None]. *)
Fixpoint findLayer (fuel : nat) (h : heap) (this : loc) (id : string)
  : outcome (option (loc * Z)) :=
  match fuel with
  | O => OutOfFuel
  | S fuel' =>
      o <~ deref h this ;;
      if negb (instanceof_LayerGroup o) then Throw TypeError
      else
        findLayer_some (fun child => findLayer fuel' h child id)
                       (getSize fuel' h) h id (lyr_layers o) 0
  end.

(** The [forEach] of [LayerGroup.prototype.toString] over the remaining
    children; [str_of layer] is [layer.toString()]. *)
Fixpoint toString_forEach (str_of : loc -> outcome string) (layers : list loc)
    (index : nat) (length : nat) (result : string) : outcome string :=
  match layers with
  | [] => Ret result
  | layer :: rest =>
      s <~ str_of layer ;;
      let result := result +:+ s in
      let result :=
        if decide (Z.of_nat index <> Z.of_nat length - 1) then result +:+ ", "
        else result in
      toString_forEach str_of rest (S index) length result
  end.

(** [toString], with its dispatch: [LayerGroup.prototype.toString] for a
    group, [BaseLayer.prototype.toString] otherwise. *)
Fixpoint toString (fuel : nat) (h : heap) (this : loc) : outcome string :=
  match fuel with
  | O => OutOfFuel
  | S fuel' =>
      o <~ deref h this ;;
      if instanceof_LayerGroup o then
        let result := BaseLayer_toString o in
        let length := length (lyr_layers o) in
        let result := result +:+ " [" in
        result <~ toString_forEach (toString fuel' h) (lyr_layers o) 0 length result ;;
        let result := result +:+ "]" in
        Ret result
      else Ret (BaseLayer_toString o)
  end.

(** ** Sorting raw records by index *)

(** The comparator [l1.index - l2.index]; [None] is NaN. *)
Definition compare_index (l1 l2 : raw) : option Z :=
  match raw_index l1, raw_index l2 with
  | Some i1, Some i2 => Some (i1 - i2)
  | _, _ => None
  end.

(** [Array.prototype.sort] with the comparator above, as a stable
    insertion sort: an element stays before the later elements it does not
    compare strictly greater than.  When every element has an index the
    comparator is a consistent order and the result of a stable sort is
    determined: this is it.  When an index is missing the comparator returns
    NaN, the order is then left to the implementation of the engine, and
    [sort_by_index] is a permutation of the input that need not be the
    engine's: a statement about the order of the result assumes that every
    element has an index. *)
Fixpoint sort_insert (x : raw) (l : list raw) : list raw :=
  match l with
  | [] => [x]
  | y :: l' =>
      match compare_index x y with
      | Some d => if 0 <? d then y :: sort_insert x l' else x :: l
      | None => x :: l
      end
  end.

Definition sort_by_index (l : list raw) : list raw :=
  fold_right sort_insert [] l.

(** ** The factory and the constructors *)

Definition alloc (o : layer) : M heap loc :=
  fun h => (h ++ [o], Ret (length h)).

(** [BaseLayer.call(this, group, raw)] on a fresh object of class [c]. *)
Definition BaseLayer_new (c : layer_class) (group : option loc) (r : raw) : layer :=
  mkLayer c group (raw_id r) (raw_index r) (raw_type r) (raw_name r) [].

(** The [forEach] of the [LayerGroup] constructor. *)
Fixpoint LayerGroup_new_children (create : raw -> M heap loc) (fuel : nat)
    (this : loc) (layers : list raw) (targetIndex : Z) : M heap unit :=
  match layers with
  | [] => ret tt
  | rawLayer :: rest =>
      layer <- create rawLayer ;;
      sz <- read (fun h => getSize fuel h layer) ;;
      let targetIndex := targetIndex + (sz - 1) in
      _ <- addLayerAtIndex fuel this layer targetIndex ;;
      let targetIndex := targetIndex + 1 in
      LayerGroup_new_children create fuel this rest targetIndex
  end.

(** [new LayerGroup(group, raw)]. *)
Definition LayerGroup_new (create : option loc -> raw -> M heap loc)
    (fuel : nat) (group : option loc) (r : raw) : M heap loc :=
  this <- alloc (BaseLayer_new LayerGroup group r) ;;
  let targetIndex := 0 in
  match raw_layers r with
  | Some layers =>
      _ <- LayerGroup_new_children (create (Some this)) fuel this
             (sort_by_index layers) targetIndex ;;
      ret this
  | None => ret this
  end.

(** The leaf cases of the [switch] in [createLayer]. *)
Definition leaf_class_of_type (type : string) : option layer_class :=
  if decide (type = "layer") then Some Layer
  else if decide (type = "shapeLayer") then Some ShapeLayer
  else if decide (type = "textLayer") then Some TextLayer
  else if decide (type = "adjustmentLayer") then Some AdjustmentLayer
  else if decide (type = "smartObjectLayer") then Some SmartObjectLayer
  else if decide (type = "backgroundLayer") then Some BackgroundLayer
  else None.

(** [createLayer(parent, rawLayer)]. *)
Fixpoint createLayer (fuel : nat) (parent : option loc) (rawLayer : raw)
  : M heap loc :=
  match fuel with
  | O => fun h => (h, OutOfFuel)
  | S fuel' =>
      match parent, raw_type rawLayer with
      | None, None => LayerGroup_new (createLayer fuel') fuel' None rawLayer
      | _, None => throw (Error "Unknown layer type:")
      | _, Some type =>
          if decide (type = "layerSection") then
            LayerGroup_new (createLayer fuel') fuel' parent rawLayer
          else
            match leaf_class_of_type type with
            | Some c => alloc (BaseLayer_new c parent rawLayer)
            | None => throw (Error "Unknown layer type:")
            end
      end
  end.

(** ** The change applicator *)

(** The store together with the caller's [changedLayers] table. *)
Abbreviation state := (list layer * gmap string layerRec)%type (only parsing).

Definition on_heap {A : Type} (m : M heap A) : M state A :=
  fun s =>
    match m (fst s) with
    | (h', r) => ((h', snd s), r)
    end.

Definition set_layer (e : layerRec) (layer : option loc) : layerRec :=
  mkLayerRec layer (rec_previousGroup e).

Definition set_previousGroup (e : layerRec) (g : option loc) : layerRec :=
  mkLayerRec (rec_layer e) (Some g).

(** What the first [forEach] callback has in [child] after its lookup,
    unless it returned early or threw. *)
Inductive materialized : Type :=
| Skipped
| Child (child : option loc).

(** Lines 260-273: the node a record with an [index] refers to. *)
Definition materialize_lookup (fuel : nat) (this : loc) (rawLayerChange : raw)
  : M state materialized :=
  let id := raw_id rawLayerChange in
  if raw_added rawLayerChange then
    child <- on_heap (createLayer fuel (Some this) rawLayerChange) ;;
    fun s =>
      match snd s !! id with
      | Some e => ((fst s, <[id := set_layer e (Some child)]> (snd s)),
                   Ret (Child (Some child)))
      | None => (s, Throw TypeError)
      end
  else
    fun s =>
      match snd s !! id with
      | None =>
          if raw_removed rawLayerChange then (s, Ret Skipped)
          else (s, Throw (Error "Can't find changed layer:"))
      | Some e => (s, Ret (Child (rec_layer e)))
      end.

(** [child._applyChange(changedLayers, layers, index)] with its dispatch.
    On a group it is the applicator itself ([apply_in]); on another layer it
    is [BaseLayer.prototype._applyChange] with the table as its [change],
    whose [id] property (an entry or [undefined]) never equals the
    layer's id. *)
Definition dispatch_applyChange
    (apply_in : loc -> list raw -> option Z -> M state unit)
    (child : option loc) (layers : list raw) (index : Z) : M state unit :=
  match child with
  | None => throw TypeError
  | Some c =>
      o <- read (fun s : state => deref (fst s) c) ;;
      if instanceof_LayerGroup o then apply_in c layers (Some index)
      else throw (AssertionError "Layer ID mismatch.")
  end.

(** [child.getSize()] on a possibly undefined [child]. *)
Definition child_getSize (fuel : nat) (child : option loc) : M state Z :=
  match child with
  | None => throw TypeError
  | Some c => read (fun s : state => getSize fuel (fst s) c)
  end.

(** The callback of the first [forEach] (materialize phase); it returns
    the updated [finalSize]. *)
Definition materialize_one
    (apply_in : loc -> list raw -> option Z -> M state unit)
    (fuel : nat) (this : loc) (rawLayerChange : raw) (finalSize : Z)
  : M state Z :=
  match raw_index rawLayerChange with
  | None => ret finalSize
  | Some index =>
      m <- materialize_lookup fuel this rawLayerChange ;;
      match m with
      | Skipped => ret finalSize
      | Child child =>
          _ <- match raw_layers rawLayerChange with
               | Some layers => dispatch_applyChange apply_in child layers index
               | None => ret tt
               end ;;
          if raw_removed rawLayerChange then ret finalSize
          else
            sz <- child_getSize fuel child ;;
            ret (finalSize + sz)
      end
  end.

Fixpoint materialize
    (apply_in : loc -> list raw -> option Z -> M state unit)
    (fuel : nat) (this : loc) (rawLayerChanges : list raw) (finalSize : Z)
  : M state Z :=
  match rawLayerChanges with
  | [] => ret finalSize
  | rawLayerChange :: rest =>
      finalSize <- materialize_one apply_in fuel this rawLayerChange finalSize ;;
      materialize apply_in fuel this rest finalSize
  end.

(** The callback of the second [forEach] (placement phase). *)
Definition place_one (fuel : nat) (this : loc) (offset : Z)
    (rawLayerChange : raw) : M state unit :=
  match raw_index rawLayerChange with
  | None => ret tt
  | Some index =>
      if raw_removed rawLayerChange then ret tt
      else
        let id := raw_id rawLayerChange in
        fun s =>
          match snd s !! id with
          | None => (s, Ret tt)
          | Some layerRec =>
              let relativeIndex := index - offset in
              match rec_layer layerRec with
              | None => (s, Throw TypeError)
              | Some child =>
                  match deref (fst s) child with
                  | Ret c =>
                      on_heap (addLayerAtIndex fuel this child relativeIndex)
                        (fst s,
                         <[id := set_previousGroup layerRec (lyr_group c)]> (snd s))
                  | Throw e => (s, Throw e)
                  | OutOfFuel => (s, OutOfFuel)
                  end
              end
          end
  end.

Fixpoint place (fuel : nat) (this : loc) (offset : Z)
    (rawLayerChanges : list raw) : M state unit :=
  match rawLayerChanges with
  | [] => ret tt
  | rawLayerChange :: rest =>
      _ <- place_one fuel this offset rawLayerChange ;;
      place fuel this offset rest
  end.

(** [LayerGroup.prototype._applyChange(changedLayers, rawLayerChanges,
    parentIndex)]; [parentIndex = None] is the root invocation. *)
Fixpoint LayerGroup_applyChange (fuel : nat) (this : loc)
    (rawLayerChanges : list raw) (parentIndex : option Z) : M state unit :=
  match fuel with
  | O => fun s => (s, OutOfFuel)
  | S fuel' =>
      finalSize <- read (fun s : state => getSize fuel' (fst s) this) ;;
      let rawLayerChanges := sort_by_index rawLayerChanges in
      finalSize <- materialize (LayerGroup_applyChange fuel') fuel' this
                     rawLayerChanges finalSize ;;
      let offset :=
        match parentIndex with
        | None => 0
        | Some parentIndex => parentIndex - (finalSize - 2)
        end in
      place fuel' this offset rawLayerChanges
  end.

(** ** The snapshot of the scenarios: root[A, G[B]] *)

Definition raw_layer (id : string) (index : Z) (type : string) : raw :=
  mkRaw id (Some index) (Some type) None false false None.

Definition raw_snapshot : raw :=
  mkRaw "root" None None None false false
    (Some [ raw_layer "A" 0 "layer";
            mkRaw "G" (Some 1) (Some "layerSection") None false false
                  (Some [ raw_layer "B" 0 "layer" ]) ]).

Definition snapshot : heap * outcome loc := createLayer 5 None raw_snapshot [].

Definition snapshot_heap : heap := fst snapshot.

Definition snapshot_root : loc := 0%nat.
Definition snapshot_A : loc := 1%nat.
Definition snapshot_G : loc := 2%nat.
Definition snapshot_B : loc := 3%nat.

(** ** Trees held by the store

    The methods recurse through the store; the statements about them are
    made for a store that holds a tree below the object they start from. *)

Inductive tree : Type :=
| TLeaf (l : loc)
| TGroup (l : loc) (kids : list tree).

Definition root (t : tree) : loc :=
  match t with
  | TLeaf l => l
  | TGroup l _ => l
  end.

Definition Zsum (l : list Z) : Z := fold_right Z.add 0 l.

(** The size invariant of the data model: 1 for a leaf, 2 plus the sizes of
    the children for a composite. *)
Fixpoint tsize (t : tree) : Z :=
  match t with
  | TLeaf _ => 1
  | TGroup _ kids => 2 + Zsum (map tsize kids)
  end.

Fixpoint depth (t : tree) : nat :=
  match t with
  | TLeaf _ => 0%nat
  | TGroup _ kids => S (max_list (map depth kids))
  end.

Fixpoint locs (t : tree) : list loc :=
  match t with
  | TLeaf l => [l]
  | TGroup l kids => l :: concat (map locs kids)
  end.

(** [repr h l t]: the objects reachable from [l] in [h] form the tree [t]. *)
Inductive repr (h : heap) : loc -> tree -> Prop :=
| repr_leaf l o :
    h !! l = Some o -> instanceof_LayerGroup o = false ->
    repr h l (TLeaf l)
| repr_group l o kids :
    h !! l = Some o -> instanceof_LayerGroup o = true ->
    Forall2 (repr h) (lyr_layers o) kids ->
    repr h l (TGroup l kids).

(** The flat index space below a composite, as the code numbers it: a leaf
    takes one slot; a group takes a marker slot, then its children, then
    the slot at which the group itself is reported. *)
Fixpoint slots (t : tree) : list (option loc) :=
  match t with
  | TLeaf l => [Some l]
  | TGroup l kids => None :: concat (map slots kids) ++ [Some l]
  end.

Definition flat (kids : list tree) : list (option loc) :=
  concat (map slots kids).

Arguments flat : simpl never.

(** [at_pos kids p t]: the subtree [t] of the children [kids] starts at
    flattened position [p] relative to their composite; for a group this is
    the position of its opening marker, and it spans [tsize t] slots. *)
Inductive at_pos : list tree -> Z -> tree -> Prop :=
| at_here k ks : at_pos (k :: ks) 0 k
| at_next k ks p t : at_pos ks p t -> at_pos (k :: ks) (tsize k + p) t
| at_in l kids ks p t : at_pos kids p t -> at_pos (TGroup l kids :: ks) (1 + p) t.

Definition has_id (h : heap) (l : loc) (id : string) : bool :=
  match h !! l with
  | Some o => bool_decide (lyr_id o = id)
  | None => false
  end.

(** The first slot, from position [i] on, that holds a node with the id. *)
Fixpoint first_match (h : heap) (id : string) (sl : list (option loc)) (i : Z)
  : option (loc * Z) :=
  match sl with
  | [] => None
  | None :: sl' => first_match h id sl' (i + 1)
  | Some l :: sl' =>
      if has_id h l id then Some (l, i) else first_match h id sl' (i + 1)
  end.

(** The ids of the nodes of a slot list, in flattened order. *)
Fixpoint node_ids (h : heap) (sl : list (option loc)) : list string :=
  match sl with
  | [] => []
  | None :: sl' => node_ids h sl'
  | Some l :: sl' =>
      match h !! l with
      | Some o => lyr_id o :: node_ids h sl'
      | None => node_ids h sl'
      end
  end.

(** [inserted N r t t']: [t'] is [t] with the tree [N] added to the
    children of the composite [r], which is [t]'s root or below it. *)
Inductive inserted (N : tree) : loc -> tree -> tree -> Prop :=
| inserted_here g k1 k2 :
    inserted N g (TGroup g (k1 ++ k2)) (TGroup g (k1 ++ N :: k2))
| inserted_below r g k1 c c' k2 :
    inserted N r c c' ->
    inserted N r (TGroup g (k1 ++ c :: k2)) (TGroup g (k1 ++ c' :: k2)).

(** The ids of a list of objects. *)
Definition ids (h : heap) (ls : list loc) : list (option string) :=
  map (fun l => lyr_id <$> h !! l) ls.

Definition snapshot_kids : list tree :=
  [TLeaf snapshot_A; TGroup snapshot_G [TLeaf snapshot_B]].

Definition snapshot_tree : tree := TGroup snapshot_root snapshot_kids.

(** ** Concrete stores and records used in the examples *)

(** A single plain layer with id and name "A". *)
Definition named_heap : heap :=
  [mkLayer Layer None "A" (Some 0) (Some "layer") (Some "A") []].

Definition named_A : loc := 0%nat.

(** A change record that only carries a name. *)
Definition rename_record (id name : string) : raw :=
  mkRaw id None None (Some name) false false None.

(** The snapshot with a further, unattached plain layer "C". *)
Definition snapshot_C : loc := 4%nat.

Definition snapshot_with_C : heap :=
  snapshot_heap ++ [BaseLayer_new Layer None (raw_layer "C" 4 "layer")].

(** g[c[x]] and an unattached empty group n. *)
Definition nested_g : loc := 0%nat.
Definition nested_c : loc := 1%nat.
Definition nested_x : loc := 2%nat.
Definition nested_n : loc := 3%nat.

Definition nested_heap : heap :=
  [ mkLayer LayerGroup None "g" None None None [nested_c];
    mkLayer LayerGroup (Some nested_g) "c" (Some 0) (Some "layerSection") None [nested_x];
    mkLayer Layer (Some nested_c) "x" (Some 0) (Some "layer") None [];
    mkLayer LayerGroup None "n" (Some 0) (Some "layerSection") None [] ].

Definition nested_kids : list tree := [TGroup nested_c [TLeaf nested_x]].

Definition nested_N : tree := TGroup nested_n [].

(** The change record that adds the plain layer "C" at a given index, and
    the same record without a type. *)
Definition added_C (index : Z) : raw :=
  mkRaw "C" (Some index) (Some "layer") None true false None.

Definition added_C_untyped (index : Z) : raw :=
  mkRaw "C" (Some index) None None true false None.

(** A [changedLayers] table in which the caller has registered "C". *)
Definition table_C : gmap string layerRec := {[ "C" := mkLayerRec None None ]}.

(** Change records for a layer "Z" that the caller never registered: one
    that moves it and one that removes it. *)
Definition moved_Z : raw := mkRaw "Z" (Some 0) None None false false None.

Definition removed_Z : raw := mkRaw "Z" (Some 0) None None false true None.

(** A descriptor with a type the factory does not know, under the root of
    the snapshot. *)
Definition raw_unknown : raw := raw_layer "U" 0 "group".

(** [same_identity o o']: [o'] has the class, id, name, index and type of
    [o]; only its group and its children may differ. *)
Definition same_identity (o o' : layer) : Prop :=
  lyr_class o' = lyr_class o /\ lyr_id o' = lyr_id o /\
  lyr_name o' = lyr_name o /\ lyr_index o' = lyr_index o /\
  lyr_type o' = lyr_type o.

(** [heap_extends h h']: every object of [h] is still in [h'], at the same
    location and with the same identity. *)
Definition heap_extends (h h' : heap) : Prop :=
  forall l o, h !! l = Some o -> exists o', h' !! l = Some o' /\ same_identity o o'.

Definition extends_heap {A : Type} (m : M heap A) : Prop :=
  forall h h' out, m h = (h', out) -> heap_extends h h'.

Definition extends_store {A : Type} (m : M state A) : Prop :=
  forall s s' out, m s = (s', out) -> heap_extends (fst s) (fst s').

(** Whether the factory makes a group of a descriptor: its type is
    "layerSection", or it has none (the document root). *)
Definition is_section (r : raw) : bool :=
  match raw_type r with
  | None => true
  | Some type => bool_decide (type = "layerSection")
  end.

Definition children_of (r : raw) : list raw :=
  match raw_layers r with
  | Some layers => layers
  | None => []
  end.

(** The flattened size and the nesting depth a descriptor announces. *)
Fixpoint raw_size (r : raw) : Z :=
  match r with
  | mkRaw _ _ type _ _ _ layers =>
      if match type with
         | None => true
         | Some type => bool_decide (type = "layerSection")
         end
      then 2 + match layers with
               | Some layers => Zsum (map raw_size layers)
               | None => 0
               end
      else 1
  end.

Fixpoint raw_depth (r : raw) : nat :=
  match r with
  | mkRaw _ _ type _ _ _ layers =>
      if match type with
         | None => true
         | Some type => bool_decide (type = "layerSection")
         end
      then S match layers with
             | Some layers => max_list (map raw_depth layers)
             | None => 0%nat
             end
      else 0%nat
  end.

(** Descriptors the factory can build below a parent: every type is one of
    the seven known ones. *)
Inductive buildable : raw -> Prop :=
| buildable_leaf r type c :
    raw_type r = Some type -> leaf_class_of_type type = Some c -> buildable r
| buildable_section r :
    raw_type r = Some "layerSection" ->
    Forall buildable (children_of r) ->
    buildable r.

(** Descriptors the factory can build for a given parent: the above, or,
    without a parent, a descriptor without a type (the document root). *)
Definition descr_ok (parent : option loc) (r : raw) : Prop :=
  buildable r \/
  (parent = None /\ raw_type r = None /\ Forall buildable (children_of r)).

(** Descriptors in which every child the constructors sort has an index:
    the children of a group descriptor, at every level.  The comparator
    [l1.index - l2.index] is then a consistent order on each array that is
    sorted. *)
Inductive indexed : raw -> Prop :=
| indexed_leaf r : is_section r = false -> indexed r
| indexed_section r :
    is_section r = true ->
    Forall (fun rc => is_Some (raw_index rc)) (children_of r) ->
    Forall indexed (children_of r) ->
    indexed r.

(** What the constructor leaves in a child built from the descriptor
    [rc]: its id, and the group [this] as its owner. *)
Definition built_child (h : heap) (this : loc) (c : loc) (rc : raw) : Prop :=
  exists oc,
    h !! c = Some oc /\ lyr_id oc = raw_id rc /\ lyr_group oc = Some this /\
    (this < c)%nat.

(** [keeps_keys m]: running [m] leaves the key set of [changedLayers] as
    it was. *)
Definition keeps_keys {A : Type} (m : M state A) : Prop :=
  forall s s' out, m s = (s', out) -> dom (snd s') = dom (snd s).

(** The locations of a list of trees. *)
Definition klocs (kids : list tree) : list loc := concat (map locs kids).

Arguments klocs : simpl never.

(** What [repr] reads of an object: its class test and its children. *)
Definition shape (h : heap) (l : loc) : option (bool * list loc) :=
  (fun o => (instanceof_LayerGroup o, lyr_layers o)) <$> h !! l.

(** The rendering of a tree: "id:name" for a leaf, followed for a group by
    the bracketed renderings of its children, separated by ", ". *)
Fixpoint render (h : heap) (t : tree) : string :=
  match t with
  | TLeaf l =>
      match h !! l with
      | Some o => BaseLayer_toString o
      | None => ""
      end
  | TGroup l kids =>
      match h !! l with
      | Some o => BaseLayer_toString o
      | None => ""
      end +:+ " [" +:+ String.concat ", " (map (render h) kids) +:+ "]"
  end.

(** [index_le r1 r2]: the declared indices of the two descriptors, where
    both have one, are in ascending order. *)
Definition index_le (r1 r2 : raw) : Prop :=
  forall i1 i2, raw_index r1 = Some i1 -> raw_index r2 = Some i2 -> i1 <= i2.

(** A record the group applicator has nothing to do for: it carries no
    index, or it is a removal (not an addition) without nested records. *)
Definition ignored_record (r : raw) : Prop :=
  raw_index r = None \/
  (raw_removed r = true /\ raw_added r = false /\ raw_layers r = None).

(** A removal record for the layer "A" of the snapshot. *)
Definition removed_A : raw := mkRaw "A" (Some 0) None None false true None.

(** [built parent r h h' T]: from the store [h], the factory has built the
    descriptor [r] into the tree [T] at the first free location. *)
Definition built (parent : option loc) (r : raw) (h h' : heap) (T : tree) : Prop :=
  repr h' (length h) T /\
  tsize T = raw_size r /\
  (depth T <= raw_depth r)%nat /\
  (forall l o, h !! l = Some o -> h' !! l = Some o) /\
  (forall x, x ∈ locs T -> (length h <= x)%nat) /\
  NoDup (locs T) /\
  exists o,
    h' !! length h = Some o /\
    lyr_group o = parent /\ lyr_id o = raw_id r /\ lyr_name o = raw_name r /\
    Forall2 (built_child h' (length h)) (lyr_layers o)
            (if is_section r then sort_by_index (children_of r) else []).

(** The state of the [LayerGroup] constructor after the children [done]. *)
Definition building (h0 : heap) (this : loc) (parent : option loc) (r : raw)
    (D : nat) (hc : heap) (kids : list tree) (done : list raw) : Prop :=
  repr hc this (TGroup this kids) /\
  (forall x, x ∈ klocs kids -> (this < x)%nat) /\
  NoDup (klocs kids) /\
  Forall (fun k => depth k <= D)%nat kids /\
  (forall l o, (l < this)%nat -> h0 !! l = Some o -> hc !! l = Some o) /\
  Zsum (map tsize kids) = Zsum (map raw_size done) /\
  exists o,
    hc !! this = Some o /\
    lyr_group o = parent /\ lyr_id o = raw_id r /\ lyr_name o = raw_name r /\
    Forall2 (built_child hc this) (lyr_layers o) done.

(** * Proofs *)

(** ** Trees *)

Lemma tree_ind' (P : tree -> Prop)
    (Hleaf : forall l, P (TLeaf l))
    (Hgroup : forall l kids, Forall P kids -> P (TGroup l kids)) :
  forall t, P t.
Proof.
  fix IH 1. intros [l | l kids].
  - apply Hleaf.
  - apply Hgroup. induction kids as [| k kids IHk]; constructor.
    + apply IH.
    + exact IHk.
Qed.

Lemma Zsum_app (l1 l2 : list Z) : Zsum (l1 ++ l2) = Zsum l1 + Zsum l2.
Proof. induction l1 as [| x l1 IH]; simpl; lia. Qed.

Lemma tsize_pos (t : tree) : 1 <= tsize t.
Proof.
  induction t as [l | l kids IH] using tree_ind'; simpl; [lia |].
  assert (0 <= Zsum (map tsize kids)); [| lia].
  induction IH as [| k kids Hk _ IHk]; simpl; lia.
Qed.

Lemma Zsum_tsize_nonneg (kids : list tree) : 0 <= Zsum (map tsize kids).
Proof.
  induction kids as [| k kids IH]; simpl; [lia |].
  pose proof (tsize_pos k). lia.
Qed.

Lemma slots_length (t : tree) : Z.of_nat (length (slots t)) = tsize t.
Proof.
  induction t as [l | l kids IH] using tree_ind'; simpl; [reflexivity |].
  rewrite length_app. simpl.
  assert (Z.of_nat (length (concat (map slots kids))) = Zsum (map tsize kids)) as Hk;
    [| lia].
  induction IH as [| k kids Hk _ IHk]; simpl; [reflexivity |].
  rewrite length_app. lia.
Qed.

Lemma flat_length (kids : list tree) :
  Z.of_nat (length (flat kids)) = Zsum (map tsize kids).
Proof.
  unfold flat. induction kids as [| k kids IH]; simpl; [reflexivity |].
  rewrite length_app. pose proof (slots_length k). lia.
Qed.

Lemma flat_app (k1 k2 : list tree) : flat (k1 ++ k2) = flat k1 ++ flat k2.
Proof. unfold flat. by rewrite map_app, concat_app. Qed.

Lemma flat_cons (k : tree) (ks : list tree) : flat (k :: ks) = slots k ++ flat ks.
Proof. reflexivity. Qed.

Lemma depth_kid (l : loc) (kids : list tree) (k : tree) :
  k ∈ kids -> (depth k < depth (TGroup l kids))%nat.
Proof.
  intros Hin. simpl.
  assert (depth k ≤ max_list (map depth kids))%nat; [| lia].
  apply max_list_elem_of_le, list_elem_of_fmap. eauto.
Qed.

(** ** [getSize] *)

Lemma repr_root (h : heap) (l : loc) (t : tree) : repr h l t -> root t = l.
Proof. by destruct 1. Qed.

Lemma reduce_sizes (f : loc -> outcome Z) (layers : list loc) (kids : list tree) (a : Z) :
  Forall2 (fun c k => f c = Ret (tsize k)) layers kids ->
  fold_left (fun acc layer => size <~ acc ;; s <~ f layer ;; Ret (size + s))
            layers (Ret a)
  = Ret (a + Zsum (map tsize kids)).
Proof.
  intros HF. revert a. induction HF as [| c k layers kids Hc _ IH]; intros a; simpl.
  - f_equal. lia.
  - rewrite Hc. simpl. rewrite IH. f_equal. lia.
Qed.

Lemma getSize_repr (fuel : nat) (h : heap) (l : loc) (t : tree) :
  repr h l t -> (depth t < fuel)%nat -> getSize fuel h l = Ret (tsize t).
Proof.
  revert l t. induction fuel as [| fuel IH]; intros l t Hr Hd; [lia |].
  destruct Hr as [l o Hl Hc | l o kids Hl Hc Hk]; simpl; unfold deref;
    rewrite Hl; simpl; rewrite Hc; [reflexivity |].
  apply reduce_sizes.
  assert (Forall (fun k => depth k < fuel)%nat kids) as Hdk.
  { apply Forall_forall. intros k Hin.
    pose proof (depth_kid l kids k Hin). lia. }
  clear Hd Hl Hc. induction Hk as [| c k layers kids Hck _ IHk]; constructor.
  - apply IH; [exact Hck |]. by inversion Hdk.
  - apply IHk. by inversion Hdk.
Qed.

(** ** [findLayer] *)

Lemma first_match_shift (h : heap) (id : string) (sl : list (option loc)) (i : Z) :
  first_match h id sl i
  = (fun r : loc * Z => (fst r, snd r + i)) <$> first_match h id sl 0.
Proof.
  revert i. induction sl as [| [l |] sl IH]; intros i; [reflexivity | |].
  - cbn [first_match]. destruct (has_id h l id); simpl; [reflexivity |].
    rewrite (IH (i + 1)), (IH (0 + 1)).
    destruct (first_match h id sl 0) as [[l' j] |]; simpl; [| reflexivity].
    do 2 f_equal. lia.
  - cbn [first_match]. rewrite (IH (i + 1)), (IH (0 + 1)).
    destruct (first_match h id sl 0) as [[l' j] |]; simpl; [| reflexivity].
    do 2 f_equal. lia.
Qed.

Lemma first_match_app (h : heap) (id : string) (s1 s2 : list (option loc)) (i : Z) :
  first_match h id (s1 ++ s2) i
  = match first_match h id s1 i with
    | Some r => Some r
    | None => first_match h id s2 (i + Z.of_nat (length s1))
    end.
Proof.
  revert i. induction s1 as [| [l |] s1 IH]; intros i; simpl.
  - f_equal. lia.
  - destruct (has_id h l id); [reflexivity |].
    rewrite IH. destruct (first_match h id s1 (i + 1)); [reflexivity |].
    f_equal. lia.
  - rewrite IH. destruct (first_match h id s1 (i + 1)); [reflexivity |].
    f_equal. lia.
Qed.

Lemma findLayer_some_flat (fuel : nat) (h : heap) (id : string) :
  (forall l kids, repr h l (TGroup l kids) ->
     (depth (TGroup l kids) < fuel)%nat ->
     findLayer fuel h l id = Ret (first_match h id (flat kids) 0)) ->
  forall layers kids cur,
    Forall2 (repr h) layers kids ->
    Forall (fun k => depth k < fuel)%nat kids ->
    findLayer_some (fun child => findLayer fuel h child id) (getSize fuel h)
                   h id layers cur
    = Ret (first_match h id (flat kids) cur).
Proof.
  intros IHf layers kids cur HF. revert cur.
  induction HF as [| c k layers kids Hck _ IH]; intros cur Hd; [reflexivity |].
  apply Forall_cons_1 in Hd as [Hdk Hd].
  rewrite flat_cons, first_match_app.
  pose proof (getSize_repr fuel h c k Hck Hdk) as Hsz.
  destruct Hck as [c o Hc Hcls | c o ks Hc Hcls Hks];
    cbn [findLayer_some slots]; unfold deref; rewrite Hc; simpl;
    rewrite Hcls; simpl.
  - unfold has_id. rewrite Hc.
    destruct (decide (lyr_id o = id)) as [He | He].
    + by rewrite bool_decide_eq_true_2.
    + rewrite bool_decide_eq_false_2 by done. apply IH, Hd.
  - rewrite (IHf c ks) by (econstructor; eauto) || exact Hdk.
    fold (flat ks). rewrite first_match_app, (first_match_shift h id (flat ks) (cur + 1)).
    destruct (first_match h id (flat ks) 0) as [[l j] |]; simpl; [reflexivity |].
    rewrite Hsz. simpl. unfold has_id. rewrite Hc.
    pose proof (flat_length ks) as Hlen.
    rewrite length_app. simpl.
    replace (cur + 1 + (2 + Zsum (map tsize ks) - 2))
      with (cur + 1 + Z.of_nat (length (flat ks))) by lia.
    destruct (decide (lyr_id o = id)) as [He | He].
    + by rewrite bool_decide_eq_true_2.
    + rewrite bool_decide_eq_false_2 by done. rewrite IH by exact Hd.
      f_equal. f_equal. lia.
Qed.

Lemma findLayer_flat (fuel : nat) (h : heap) (id : string) (g : loc) (kids : list tree) :
  repr h g (TGroup g kids) ->
  (depth (TGroup g kids) < fuel)%nat ->
  findLayer fuel h g id = Ret (first_match h id (flat kids) 0).
Proof.
  revert g kids. induction fuel as [| fuel IH]; intros g kids Hr Hd; [lia |].
  inversion Hr as [| g' o kids' Hg Hcls Hk]; subst.
  simpl. unfold deref. rewrite Hg. simpl. rewrite Hcls. simpl.
  apply findLayer_some_flat; [exact IH | exact Hk |].
  apply Forall_forall. intros k Hin. pose proof (depth_kid g kids k Hin). lia.
Qed.

(** ** Flattened positions *)

Lemma slots_last (t : tree) :
  exists n : nat, Z.of_nat n = tsize t - 1 /\ slots t !! n = Some (Some (root t)).
Proof.
  destruct t as [l | l kids]; simpl.
  - exists 0%nat. split; [lia | reflexivity].
  - exists (S (length (flat kids))). split.
    + pose proof (flat_length kids). lia.
    + simpl. fold (flat kids). rewrite lookup_app_r by lia.
      by rewrite Nat.sub_diag.
Qed.

Lemma at_pos_flat (kids : list tree) (p : Z) (t : tree) :
  at_pos kids p t ->
  exists n : nat,
    Z.of_nat n = p + tsize t - 1 /\ flat kids !! n = Some (Some (root t)).
Proof.
  induction 1 as [k ks | k ks p t _ [n [Hn Hl]] | l kids ks p t _ [n [Hn Hl]]].
  - destruct (slots_last k) as [n [Hn Hl]]. exists n. split; [lia |].
    rewrite flat_cons. by apply lookup_app_l_Some.
  - exists (length (slots k) + n)%nat. split.
    + pose proof (slots_length k). lia.
    + rewrite flat_cons, lookup_app_r by lia.
      by replace (length (slots k) + n - length (slots k))%nat with n by lia.
  - exists (S n). split; [lia |].
    rewrite flat_cons. apply lookup_app_l_Some. simpl. fold (flat kids).
    by apply lookup_app_l_Some.
Qed.

Lemma at_pos_nonneg (kids : list tree) (p : Z) (t : tree) :
  at_pos kids p t -> 0 <= p.
Proof.
  induction 1 as [k ks | k ks p t _ IH | l kids ks p t _ IH]; [lia | | lia].
  pose proof (tsize_pos k). lia.
Qed.

Lemma at_pos_app_r (k1 ks : list tree) (p : Z) (t : tree) :
  at_pos ks p t -> at_pos (k1 ++ ks) (Zsum (map tsize k1) + p) t.
Proof.
  intros H. induction k1 as [| k k1 IH]; simpl.
  - by replace (0 + p) with p by lia.
  - replace (tsize k + Zsum (map tsize k1) + p)
      with (tsize k + (Zsum (map tsize k1) + p)) by lia.
    by constructor.
Qed.

Lemma elem_of_concat {A : Type} (x : A) (ls : list (list A)) :
  x ∈ concat ls <-> exists l, x ∈ l /\ l ∈ ls.
Proof.
  induction ls as [| l ls IH]; simpl.
  - split; [by intros ?%elem_of_nil | by intros [l [_ ?%elem_of_nil]]].
  - rewrite elem_of_app, IH. split.
    + intros [H | [l' [H1 H2]]]; [exists l | exists l']; split; try done;
        apply elem_of_cons; auto.
    + intros [l' [H1 [-> | H2]%elem_of_cons]]; [by left | right; eauto].
Qed.

(** Every node below a composite has a flattened position. *)
Lemma at_pos_total (kids : list tree) (n : loc) :
  n ∈ concat (map locs kids) ->
  exists p t, at_pos kids p t /\ root t = n.
Proof.
  assert (forall t n, n ∈ locs t ->
            forall ks, exists p t', at_pos (t :: ks) p t' /\ root t' = n) as Hone.
  { clear. induction t as [l | l kids IH] using tree_ind'; intros n Hin ks; simpl in Hin.
    - apply list_elem_of_singleton in Hin as ->.
      exists 0, (TLeaf l). split; [constructor | reflexivity].
    - apply elem_of_cons in Hin as [-> | Hin].
      { exists 0, (TGroup l kids). split; [constructor | reflexivity]. }
      apply elem_of_concat in Hin as [ls [Hn Hls]].
      apply list_elem_of_fmap in Hls as [k [-> Hk]].
      apply list_elem_of_split in Hk as [k1 [k2 ->]].
      apply Forall_app in IH as [_ IH]. apply Forall_cons_1 in IH as [IH _].
      destruct (IH n Hn k2) as [p [t' [Hp Hr]]].
      exists (1 + (Zsum (map tsize k1) + p)), t'. split; [| exact Hr].
      apply at_in. by apply at_pos_app_r. }
  intros Hin.
  apply elem_of_concat in Hin as [ls [Hn Hls]].
  apply list_elem_of_fmap in Hls as [k [-> Hk]].
  apply list_elem_of_split in Hk as [k1 [k2 ->]].
  destruct (Hone k n Hn k2) as [p [t' [Hp Hr]]].
  exists (Zsum (map tsize k1) + p), t'. split; [| exact Hr].
  by apply at_pos_app_r.
Qed.

Lemma node_ids_lookup (h : heap) (sl : list (option loc)) (k : nat) (n : loc) (o : layer) :
  sl !! k = Some (Some n) -> h !! n = Some o -> lyr_id o ∈ node_ids h sl.
Proof.
  revert k. induction sl as [| [l |] sl IH]; intros k Hk Hn; [done | |].
  - simpl. destruct k as [| k]; simpl in Hk.
    + injection Hk as ->. rewrite Hn. apply elem_of_cons. by left.
    + destruct (h !! l); [apply elem_of_cons; right |]; eauto.
  - simpl. destruct k as [| k]; simpl in Hk; [done |]. eauto.
Qed.

Lemma first_match_unique (h : heap) (id : string) (sl : list (option loc))
    (k : nat) (n : loc) (i : Z) :
  NoDup (node_ids h sl) ->
  sl !! k = Some (Some n) ->
  has_id h n id = true ->
  first_match h id sl i = Some (n, i + Z.of_nat k).
Proof.
  intros Hnd Hk Hid. unfold has_id in Hid.
  destruct (h !! n) as [o |] eqn:Hn; [| done].
  apply bool_decide_eq_true_1 in Hid.
  revert k i Hnd Hk. induction sl as [| [l |] sl IH]; intros k i Hnd Hk; [done | |].
  - destruct k as [| k]; simpl in Hk.
    + injection Hk as ->. simpl. unfold has_id. rewrite Hn.
      rewrite bool_decide_eq_true_2 by done. do 2 f_equal. lia.
    + simpl. unfold has_id. simpl in Hnd.
      destruct (h !! l) as [ol |] eqn:Hl.
      * apply NoDup_cons in Hnd as [Hnot Hnd].
        rewrite bool_decide_eq_false_2.
        { rewrite (IH k (i + 1)) by done. do 2 f_equal. lia. }
        intros He. apply Hnot. rewrite He, <- Hid.
        by eapply node_ids_lookup.
      * rewrite (IH k (i + 1)) by done. do 2 f_equal. lia.
  - destruct k as [| k]; simpl in Hk; [done |].
    simpl. rewrite (IH k (i + 1)) by done. do 2 f_equal. lia.
Qed.

Lemma first_match_absent (h : heap) (id : string) (sl : list (option loc)) (i : Z) :
  id ∉ node_ids h sl -> first_match h id sl i = None.
Proof.
  revert i. induction sl as [| [l |] sl IH]; intros i Hid; [done | |]; simpl in *.
  - unfold has_id. destruct (h !! l) as [o |]; [| by apply IH].
    apply not_elem_of_cons in Hid as [Hne Hid].
    rewrite bool_decide_eq_false_2 by done. by apply IH.
  - by apply IH.
Qed.

(** ** [addLayerAtIndex] *)

(** What the scan of [addLayerAtIndex] returns over the children of a
    well-formed composite, in terms of their sizes. *)
Lemma scan_spec (fuel : nat) (h : heap) (t : Z) (layers : list loc) (kids : list tree) :
  Forall2 (repr h) layers kids ->
  Forall (fun k => depth k < fuel)%nat kids ->
  forall (idx : nat) (cur : Z),
  exists res,
    scan (getSize fuel h) h t layers idx cur cur = Ret res /\
    match res with
    | ScanEnd i c =>
        exists k1 k2,
          kids = k1 ++ k2 /\ i = (idx + length k1)%nat /\
          c = cur + Zsum (map tsize k1) /\ (k2 = [] \/ t <= c)
    | ScanRecurse child c =>
        exists k1 ks k2,
          kids = k1 ++ TGroup child ks :: k2 /\
          c = cur + Zsum (map tsize k1) /\
          c < t < c + tsize (TGroup child ks)
    end.
Proof.
  intros HF. induction HF as [| c k layers kids Hck _ IH]; intros Hd idx cur.
  - exists (ScanEnd idx cur). split; [reflexivity |].
    exists [], []. simpl. repeat split; auto; lia.
  - apply Forall_cons_1 in Hd as [Hdk Hd]. cbn [scan].
    destruct (Z.leb_spec t cur) as [Hle | Hlt].
    { exists (ScanEnd idx cur). split; [reflexivity |].
      exists [], (k :: kids). simpl. repeat split; auto; lia. }
    rewrite (getSize_repr fuel h c k Hck Hdk). cbn [obind].
    assert (exists o, h !! c = Some o /\
              (instanceof_LayerGroup o = true -> exists ks, k = TGroup c ks))
      as [o [Hc Hgrp]].
    { destruct Hck as [c o Hc Hcls | c o ks Hc Hcls Hks]; exists o; split; auto.
      - congruence.
      - eauto. }
    unfold deref. rewrite Hc. cbn [obind].
    destruct (Z.ltb_spec t (cur + tsize k)) as [Hin | Hout];
      [destruct (instanceof_LayerGroup o) eqn:Hcls |]; cbn [andb].
    + destruct (Hgrp eq_refl) as [ks ->].
      exists (ScanRecurse c cur). split; [reflexivity |].
      exists [], ks, kids. simpl in *. repeat split; auto; lia.
    + destruct (IH Hd (S idx) (cur + tsize k)) as [res [Hres Hspec]].
      exists res. split; [exact Hres |].
      destruct res as [i c' | child c'].
      * destruct Hspec as [k1 [k2 [-> [-> [-> Hend]]]]].
        exists (k :: k1), k2. simpl. repeat split; auto; lia.
      * destruct Hspec as [k1 [ks [k2 [-> [-> Hrange]]]]].
        exists (k :: k1), ks, k2. simpl in *. repeat split; auto; lia.
    + destruct (IH Hd (S idx) (cur + tsize k)) as [res [Hres Hspec]].
      exists res. split; [exact Hres |].
      destruct res as [i c' | child c'].
      * destruct Hspec as [k1 [k2 [-> [-> [-> Hend]]]]].
        exists (k :: k1), k2. simpl. repeat split; auto; lia.
      * destruct Hspec as [k1 [ks [k2 [-> [-> Hrange]]]]].
        exists (k :: k1), ks, k2. simpl in *. repeat split; auto; lia.
Qed.

Lemma kids_depth (fuel : nat) (l : loc) (kids : list tree) :
  (depth (TGroup l kids) < S fuel)%nat ->
  Forall (fun k => depth k < fuel)%nat kids.
Proof.
  intros Hd. apply Forall_forall. intros k Hin.
  pose proof (depth_kid l kids k Hin). lia.
Qed.

(** Scanning for the position just past the last child reaches the end of
    the child list. *)
Lemma scan_append (fuel : nat) (h : heap) (layers : list loc) (kids : list tree) (cur : Z) :
  Forall2 (repr h) layers kids ->
  Forall (fun k => depth k < fuel)%nat kids ->
  scan (getSize fuel h) h (cur + Zsum (map tsize kids)) layers 0 cur cur
  = Ret (ScanEnd (length layers) (cur + Zsum (map tsize kids))).
Proof.
  intros HF Hd.
  destruct (scan_spec fuel h (cur + Zsum (map tsize kids)) layers kids HF Hd 0%nat cur)
    as [res [Hres Hspec]].
  rewrite Hres. f_equal.
  destruct res as [i c | child c].
  - destruct Hspec as [k1 [k2 [-> [-> [-> Hend]]]]].
    rewrite map_app, Zsum_app in *.
    assert (k2 = []) as ->.
    { destruct Hend as [? | Hle]; [done |].
      destruct k2 as [| k k2]; [done |]. simpl in Hle.
      pose proof (tsize_pos k). pose proof (Zsum_tsize_nonneg k2). lia. }
    simpl. rewrite (Forall2_length _ _ _ HF), app_nil_r. f_equal. lia.
  - destruct Hspec as [k1 [ks [k2 [-> [-> Hrange]]]]].
    rewrite map_app, Zsum_app in Hrange. cbn [map Zsum fold_right] in Hrange.
    fold (Zsum (map tsize k2)) in Hrange.
    pose proof (Zsum_tsize_nonneg k2). lia.
Qed.

Lemma attach_lookup_other (h : heap) (this n : loc) (i : nat) (l : loc) :
  l <> this -> l <> n -> attach this n i h !! l = h !! l.
Proof.
  intros H1 H2. unfold attach.
  destruct (h !! n) as [c |] eqn:Hn.
  - destruct (<[n:=set_group c (Some this)]> h !! this) as [o |] eqn:Ho.
    + rewrite !list_lookup_insert_ne by done. reflexivity.
    + by rewrite list_lookup_insert_ne.
  - destruct (h !! this) as [o |] eqn:Ho; [| reflexivity].
    by rewrite list_lookup_insert_ne.
Qed.

Lemma attach_lookup_this (h : heap) (this n : loc) (i : nat) (og on : layer) :
  h !! this = Some og -> h !! n = Some on ->
  exists o',
    attach this n i h !! this = Some o' /\
    lyr_layers o' = splice_in i n (lyr_layers og) /\
    lyr_class o' = lyr_class og /\ lyr_id o' = lyr_id og.
Proof.
  intros Hg Hn. unfold attach. rewrite Hn.
  assert (n < length h)%nat as Hln by (by eapply lookup_lt_Some).
  assert (this < length h)%nat as Hlg by (by eapply lookup_lt_Some).
  destruct (decide (this = n)) as [-> | Hne].
  - rewrite list_lookup_insert_eq by done.
    rewrite list_lookup_insert_eq by (by rewrite length_insert).
    eexists. split; [reflexivity |]. simpl. by simplify_eq.
  - rewrite list_lookup_insert_ne by done. rewrite Hg.
    rewrite list_lookup_insert_eq by (by rewrite length_insert).
    eexists. split; [reflexivity |]. done.
Qed.

Lemma attach_lookup_child (h : heap) (this n : loc) (i : nat) (og on : layer) :
  h !! this = Some og -> h !! n = Some on ->
  exists o',
    attach this n i h !! n = Some o' /\
    lyr_group o' = Some this /\
    lyr_class o' = lyr_class on /\ lyr_id o' = lyr_id on /\
    (n <> this -> lyr_layers o' = lyr_layers on).
Proof.
  intros Hg Hn. unfold attach. rewrite Hn.
  assert (n < length h)%nat as Hln by (by eapply lookup_lt_Some).
  assert (this < length h)%nat as Hlg by (by eapply lookup_lt_Some).
  destruct (decide (this = n)) as [-> | Hne].
  - rewrite list_lookup_insert_eq by done.
    rewrite list_lookup_insert_eq by (by rewrite length_insert).
    eexists. split; [reflexivity |]. simpl. by simplify_eq.
  - rewrite list_lookup_insert_ne by done. rewrite Hg.
    rewrite list_lookup_insert_ne by done.
    rewrite list_lookup_insert_eq by done.
    eexists. split; [reflexivity |]. done.
Qed.

Lemma splice_in_length {A : Type} (x : A) (l : list A) :
  splice_in (length l) x l = l ++ [x].
Proof. unfold splice_in. by rewrite take_ge, drop_ge by lia. Qed.

Lemma splice_in_app {A : Type} (x : A) (l1 l2 : list A) :
  splice_in (length l1) x (l1 ++ l2) = l1 ++ x :: l2.
Proof.
  unfold splice_in. rewrite take_app_length, drop_app_length. reflexivity.
Qed.

Lemma repr_lookup (h : heap) (l : loc) (t : tree) :
  repr h l t -> exists o, h !! l = Some o.
Proof. destruct 1; eauto. Qed.

(** Adding a node at the position just past the last child. *)
Lemma addLayerAtIndex_append (fuel : nat) (h : heap) (g n : loc)
    (kids : list tree) (N : tree) :
  repr h g (TGroup g kids) ->
  repr h n N ->
  (depth (TGroup g kids) < fuel)%nat ->
  (S (depth N) < fuel)%nat ->
  addLayerAtIndex fuel g n (tsize (TGroup g kids) - 2 + (tsize N - 1)) h
  = (attach g n (length kids) h, Ret tt).
Proof.
  intros Hg Hn Hdg Hdn. destruct fuel as [| fuel]; [lia |].
  inversion Hg as [| g' og kids' Hog Hcls Hk]; subst.
  cbn [addLayerAtIndex]. unfold bind at 1, read at 1, deref. rewrite Hog.
  rewrite Hcls. cbn [negb]. unfold bind at 1, read at 1.
  rewrite (getSize_repr fuel h n N Hn) by lia.
  unfold bind at 1, read at 1.
  replace (tsize (TGroup g kids) - 2 + (tsize N - 1))
    with (tsize N - 1 + Zsum (map tsize kids)) by (simpl; lia).
  rewrite (scan_append fuel h (lyr_layers og) kids (tsize N - 1) Hk)
    by (by apply (kids_depth fuel g)).
  rewrite decide_False by (intros Hne; by apply Hne).
  unfold modify. by rewrite (Forall2_length _ _ _ Hk).
Qed.

(** *** Frame properties of [repr] *)

Lemma klocs_app (k1 k2 : list tree) : klocs (k1 ++ k2) = klocs k1 ++ klocs k2.
Proof. unfold klocs. by rewrite map_app, concat_app. Qed.

Lemma klocs_cons (k : tree) (ks : list tree) : klocs (k :: ks) = locs k ++ klocs ks.
Proof. reflexivity. Qed.

Lemma locs_group (l : loc) (kids : list tree) :
  locs (TGroup l kids) = l :: klocs kids.
Proof. reflexivity. Qed.

Lemma root_in_locs (t : tree) : root t ∈ locs t.
Proof. destruct t; simpl; apply elem_of_cons; by left. Qed.

Lemma klocs_elem (kids : list tree) (k : tree) (x : loc) :
  k ∈ kids -> x ∈ locs k -> x ∈ klocs kids.
Proof.
  intros Hk Hx. apply elem_of_concat. exists (locs k). split; [done |].
  apply list_elem_of_fmap. eauto.
Qed.

Lemma repr_ext (h h' : heap) (t : tree) (l : loc) :
  repr h l t ->
  (forall l', l' ∈ locs t -> shape h' l' = shape h l') ->
  repr h' l t.
Proof.
  revert l. induction t as [x | x kids IH] using tree_ind'; intros l Hr Hs;
    inversion Hr as [? o Hl Hcls | ? o ? Hl Hcls Hk]; subst.
  - specialize (Hs x (root_in_locs (TLeaf x))). unfold shape in Hs.
    rewrite Hl in Hs. destruct (h' !! x) as [o' |] eqn:Hl'; [| done].
    simpl in Hs. injection Hs as Hc _. econstructor; [exact Hl' | congruence].
  - pose proof (Hs x (root_in_locs (TGroup x kids))) as Hsl. unfold shape in Hsl.
    rewrite Hl in Hsl. destruct (h' !! x) as [o' |] eqn:Hl'; [| done].
    simpl in Hsl. injection Hsl as Hc Hlay.
    econstructor; [exact Hl' | congruence |]. rewrite Hlay.
    assert (forall k l', k ∈ kids -> l' ∈ locs k -> shape h' l' = shape h l') as Hs'.
    { intros k l' Hin Hl'k. apply Hs. rewrite locs_group. apply elem_of_cons. right.
      by eapply klocs_elem. }
    clear Hr Hs Hl Hl' Hcls Hc Hlay.
    induction Hk as [| c k layers kids Hck _ IHk]; constructor.
    + apply Forall_cons_1 in IH as [IH _]. apply IH; [exact Hck |].
      intros l' Hl'. apply (Hs' k); [apply elem_of_cons; by left | done].
    + apply IHk.
      * by apply Forall_cons_1 in IH as [_ IH].
      * intros k' l' Hin. apply Hs'. apply elem_of_cons. by right.
Qed.

Lemma repr_locs_valid (h : heap) (t : tree) (l x : loc) :
  repr h l t -> x ∈ locs t -> is_Some (h !! x).
Proof.
  revert l. induction t as [y | y kids IH] using tree_ind'; intros l Hr Hx;
    inversion Hr as [? o Hl Hcls | ? o ? Hl Hcls Hk]; subst.
  - simpl in Hx. apply list_elem_of_singleton in Hx as ->. eauto.
  - rewrite locs_group in Hx. apply elem_of_cons in Hx as [-> | Hx]; [eauto |].
    apply elem_of_concat in Hx as [ls [Hx Hls]].
    apply list_elem_of_fmap in Hls as [k [-> Hin]].
    clear Hr Hl Hcls.
    induction Hk as [| c k' layers kids Hck _ IHk]; [by apply elem_of_nil in Hin |].
    apply Forall_cons_1 in IH as [IHhd IHtl].
    apply elem_of_cons in Hin as [-> | Hin]; [by eapply IHhd | by apply IHk].
Qed.

Lemma shape_attach (h : heap) (this n : loc) (i : nat) (og on : layer) (l : loc) :
  h !! this = Some og -> h !! n = Some on -> l <> this ->
  shape (attach this n i h) l = shape h l.
Proof.
  intros Hg Hn Hne. unfold shape.
  destruct (decide (l = n)) as [-> | Hln].
  - destruct (attach_lookup_child h this n i og on Hg Hn)
      as [o' [Ho' [_ [Hc [_ Hlay]]]]].
    rewrite Ho', Hn. simpl. unfold instanceof_LayerGroup. by rewrite Hc, Hlay.
  - by rewrite attach_lookup_other.
Qed.

Lemma inserted_receiver (N : tree) (r : loc) (t t' : tree) :
  inserted N r t t' -> r ∈ locs t.
Proof.
  induction 1 as [g k1 k2 | r g k1 c c' k2 _ IH].
  - apply (root_in_locs (TGroup g (k1 ++ k2))).
  - rewrite locs_group. apply elem_of_cons. right.
    eapply klocs_elem; [| exact IH]. apply elem_of_app. right.
    apply elem_of_cons. by left.
Qed.

(** *** The insertion itself *)

Lemma Forall2_impl_elem {A B : Type} (P Q : A -> B -> Prop) (l : list A) (k : list B) :
  Forall2 P l k ->
  (forall x y, P x y -> y ∈ k -> Q x y) ->
  Forall2 Q l k.
Proof.
  induction 1 as [| x y l k Hxy _ IH]; intros HPQ; constructor.
  - apply HPQ; [exact Hxy | apply elem_of_cons; by left].
  - apply IH. intros x' y' Hp Hin. apply HPQ; [exact Hp |].
    apply elem_of_cons. by right.
Qed.

Lemma addLayerAtIndex_step (fuel : nat) (h : heap) (g n : loc) (t : Z)
    (og : layer) (sz : Z) (res : scan_result) :
  h !! g = Some og ->
  instanceof_LayerGroup og = true ->
  getSize fuel h n = Ret sz ->
  scan (getSize fuel h) h t (lyr_layers og) 0 (sz - 1) (sz - 1) = Ret res ->
  addLayerAtIndex (S fuel) g n t h
  = match res with
    | ScanRecurse child c => addLayerAtIndex fuel child n (t - (c + 1)) h
    | ScanEnd i c =>
        if decide (c <> t) then (h, Throw (invalid_insertion_index t))
        else (attach g n i h, Ret tt)
    end.
Proof.
  intros Hog Hcls Hsz Hres.
  cbn [addLayerAtIndex]. unfold bind at 1, read at 1, deref. rewrite Hog, Hcls.
  cbn [negb]. unfold bind at 1, read at 1. rewrite Hsz.
  unfold bind at 1, read at 1. rewrite Hres.
  destruct res as [i c | child c]; [| reflexivity].
  by destruct (decide (c <> t)).
Qed.

Lemma addLayerAtIndex_spec (fuel : nat) :
  forall (h : heap) (g : loc) (kids : list tree) (n : loc) (N : tree) (t : Z),
  repr h g (TGroup g kids) ->
  repr h n N ->
  NoDup (locs (TGroup g kids) ++ locs N) ->
  (depth (TGroup g kids) + depth N < fuel)%nat ->
  (exists t', addLayerAtIndex fuel g n t h = (h, Throw (invalid_insertion_index t'))) \/
  (exists r i kids',
     addLayerAtIndex fuel g n t h = (attach r n i h, Ret tt) /\
     inserted N r (TGroup g kids) (TGroup g kids') /\
     repr (attach r n i h) g (TGroup g kids') /\
     ((tsize N = 1 \/ r = g) -> at_pos kids' (t - (tsize N - 1)) N)).
Proof.
  induction fuel as [| fuel IH]; intros h g kids n N t Hg Hn Hnd Hd; [lia |].
  inversion Hg as [| g' og kids' Hog Hcls Hk]; subst.
  destruct (repr_lookup h n N Hn) as [on Hon].
  pose proof (repr_root h n N Hn) as Hroot.
  assert (1 <= depth (TGroup g kids))%nat as Hd1g by (simpl; lia).
  rewrite locs_group in Hnd. rewrite <- app_comm_cons in Hnd.
  apply NoDup_cons in Hnd as [Hg_notin Hnd].
  apply NoDup_app in Hnd as [Hnd_kids [Hdisj Hnd_N]].
  assert (n ∈ locs N) as Hn_in by (rewrite <- Hroot; apply root_in_locs).
  assert (g <> n) as Hgn.
  { intros ->. apply Hg_notin. apply elem_of_app. by right. }
  assert (forall k x, k ∈ kids -> x ∈ locs k -> x <> g /\ x <> n) as Hkid.
  { intros k x Hin Hx. pose proof (klocs_elem kids k x Hin Hx) as Hxk. split.
    - intros ->. apply Hg_notin. apply elem_of_app. by left.
    - intros ->. by apply (Hdisj n). }
  destruct (scan_spec fuel h t (lyr_layers og) kids Hk
              (kids_depth fuel g kids ltac:(lia)) 0%nat (tsize N - 1))
    as [res [Hres Hspec]].
  rewrite (addLayerAtIndex_step fuel h g n t og (tsize N) res Hog Hcls
             (getSize_repr fuel h n N Hn ltac:(lia)) Hres).
  destruct res as [i c | child c].
  - destruct Hspec as [k1 [k2 [-> [-> [-> Hend]]]]].
    destruct (decide (tsize N - 1 + Zsum (map tsize k1) <> t)) as [Hne | He].
    { left. by exists t. }
    assert (t - (tsize N - 1) = Zsum (map tsize k1)) as Ht.
    { destruct (Z.eq_dec (tsize N - 1 + Zsum (map tsize k1)) t); [lia | done]. }
    right. exists g, (0 + length k1)%nat, (k1 ++ N :: k2).
    split; [reflexivity |]. split; [constructor |]. split.
    + destruct (attach_lookup_this h g n (0 + length k1) og on Hog Hon)
        as [o' [Ho' [Hlay [Hc _]]]].
      econstructor; [exact Ho' | unfold instanceof_LayerGroup in *; by rewrite Hc |].
      rewrite Hlay.
      apply Forall2_app_inv_r in Hk as [l1 [l2 [Hk1 [Hk2 ->]]]].
      simpl. rewrite <- (Forall2_length _ _ _ Hk1), splice_in_app.
      assert (forall l k, repr h l k -> (k ∈ k1 ++ k2 \/ k = N) ->
                repr (attach g n (length l1) h) l k) as Hkeep.
      { intros l k Hr Hin. apply (repr_ext h); [exact Hr |].
        intros x Hx. apply (shape_attach h g n _ og on); try done.
        destruct Hin as [Hin | ->].
        - by apply (Hkid k x).
        - intros ->. apply Hg_notin. apply elem_of_app. by right. }
      apply Forall2_app; [| constructor].
      * eapply Forall2_impl_elem; [exact Hk1 |]. intros l k Hr Hin.
        apply Hkeep; [exact Hr |]. left. apply elem_of_app. by left.
      * apply Hkeep; [exact Hn | by right].
      * eapply Forall2_impl_elem; [exact Hk2 |]. intros l k Hr Hin.
        apply Hkeep; [exact Hr |]. left. apply elem_of_app. by right.
    + intros _. rewrite Ht.
      replace (Zsum (map tsize k1)) with (Zsum (map tsize k1) + 0) by lia.
      apply at_pos_app_r. constructor.
  - destruct Hspec as [k1 [ks [k2 [-> [-> Hrange]]]]].
    pose proof Hk as Hk'.
    apply Forall2_app_inv_r in Hk' as [l1 [l2' [Hk1 [Hk2 Hlay]]]].
    apply Forall2_cons_inv_r in Hk2 as [child' [l2 [Hchild [Hk2 ->]]]].
    pose proof (repr_root h child' _ Hchild) as Hcr. simpl in Hcr. subst child'.
    assert (TGroup child ks ∈ k1 ++ TGroup child ks :: k2) as Hcin.
    { apply elem_of_app. right. apply elem_of_cons. by left. }
    rewrite klocs_app, klocs_cons in Hnd_kids.
    apply NoDup_app in Hnd_kids as [_ [Hd1 Hnd_kids]].
    apply NoDup_app in Hnd_kids as [Hnd_c [Hd2 _]].
    destruct (IH h child ks n N (t - (tsize N - 1 + Zsum (map tsize k1) + 1))
                Hchild Hn) as [[t' Hfail] | [r [i [ks' [Hok [Hins [Hrep Hpos]]]]]]].
    { apply NoDup_app. split; [exact Hnd_c |]. split; [| exact Hnd_N].
      intros x Hx. apply Hdisj. by eapply klocs_elem. }
    { pose proof (depth_kid g _ _ Hcin). lia. }
    { left. exists t'. exact Hfail. }
    right. exists r, i, (k1 ++ TGroup child ks' :: k2).
    split; [exact Hok |]. split; [by constructor |].
    pose proof (inserted_receiver N r _ _ Hins) as Hr_in.
    destruct (Hkid _ r Hcin Hr_in) as [Hrg Hrn].
    destruct (repr_locs_valid h _ child r Hchild Hr_in) as [or Hor].
    split.
    + econstructor.
      * rewrite attach_lookup_other by done. exact Hog.
      * exact Hcls.
      * rewrite Hlay.
        assert (forall l k, repr h l k -> (forall x, x ∈ locs k -> x <> r) ->
                  repr (attach r n i h) l k) as Hkeep.
        { intros l k Hr Hx. apply (repr_ext h); [exact Hr |].
          intros x Hxk. apply (shape_attach h r n _ or on); try done.
          by apply Hx. }
        apply Forall2_app; [| constructor].
        -- eapply Forall2_impl_elem; [exact Hk1 |]. intros l k Hr Hin.
           apply Hkeep; [exact Hr |]. intros x Hx ->.
           apply (Hd1 r); [by eapply klocs_elem |]. apply elem_of_app. by left.
        -- exact Hrep.
        -- eapply Forall2_impl_elem; [exact Hk2 |]. intros l k Hr Hin.
           apply Hkeep; [exact Hr |]. intros x Hx ->.
           apply (Hd2 r); [exact Hr_in | by eapply klocs_elem].
    + intros [Hleaf | ->]; [| done].
      specialize (Hpos (or_introl Hleaf)).
      replace (t - (tsize N - 1))
        with (Zsum (map tsize k1)
              + (1 + (t - (tsize N - 1 + Zsum (map tsize k1) + 1) - (tsize N - 1))))
        by lia.
      apply at_pos_app_r. by constructor.
Qed.

(** A failed insertion leaves the store as it was. *)
Lemma addLayerAtIndex_failure_frame (fuel : nat) :
  forall (g n : loc) (t : Z) (h h' : heap) (out : outcome unit),
  addLayerAtIndex fuel g n t h = (h', out) ->
  (forall u, out <> Ret u) ->
  h' = h.
Proof.
  induction fuel as [| fuel IH]; intros g n t h h' out Hrun Hout.
  - simpl in Hrun. by injection Hrun as <- _.
  - cbn [addLayerAtIndex] in Hrun. unfold bind at 1, read at 1 in Hrun.
    destruct (deref h g) as [og | e |]; try by injection Hrun as <- _.
    destruct (negb (instanceof_LayerGroup og)).
    { unfold throw in Hrun. by injection Hrun as <- _. }
    unfold bind at 1, read at 1 in Hrun.
    destruct (getSize fuel h n) as [sz | e |]; try by injection Hrun as <- _.
    unfold bind at 1, read at 1 in Hrun.
    destruct (scan (getSize fuel h) h t (lyr_layers og) 0 (sz - 1) (sz - 1))
      as [[i c | child c] | e |]; try by injection Hrun as <- _.
    + destruct (decide (c <> t)).
      * unfold throw in Hrun. by injection Hrun as <- _.
      * unfold modify in Hrun. injection Hrun as _ <-. by destruct (Hout tt).
    + by eapply IH.
Qed.

(** ** [detach] *)

Lemma some_index_found (h : heap) (id : string) (l1 l2 : list loc) (n : loc)
    (o : layer) (i : nat) :
  Forall (fun c => exists oc, h !! c = Some oc /\ lyr_id oc <> id) l1 ->
  h !! n = Some o -> lyr_id o = id ->
  some_index h id (l1 ++ n :: l2) i = Ret (Some (i + length l1)%nat).
Proof.
  intros Hl1 Hn Hid. revert i.
  induction Hl1 as [| c l1 [oc [Hc Hne]] _ IH]; intros i; simpl; unfold deref.
  - rewrite Hn. simpl. rewrite decide_True by done. do 2 f_equal. lia.
  - rewrite Hc. simpl. rewrite decide_False by done. rewrite IH.
    do 2 f_equal. lia.
Qed.

Lemma some_index_none (h : heap) (id : string) (l : list loc) (i : nat) :
  Forall (fun c => exists oc, h !! c = Some oc /\ lyr_id oc <> id) l ->
  some_index h id l i = Ret None.
Proof.
  intros Hl. revert i.
  induction Hl as [| c l [oc [Hc Hne]] _ IH]; intros i; simpl; unfold deref;
    [reflexivity |].
  rewrite Hc. simpl. by rewrite decide_False.
Qed.

Lemma splice_out_app {A : Type} (x : A) (l1 l2 : list A) :
  splice_out (length l1) (l1 ++ x :: l2) = l1 ++ l2.
Proof.
  unfold splice_out. rewrite take_app_length.
  replace (S (length l1)) with (length (l1 ++ [x])) by (rewrite length_app; simpl; lia).
  rewrite (cons_middle x l1 l2), app_assoc, drop_app_length. reflexivity.
Qed.

(** With distinct ids among the children, the children other than [n] do
    not carry [n]'s id. *)
Lemma ids_others (h : heap) (l1 l2 : list loc) (n : loc) (o : layer) :
  h !! n = Some o ->
  Forall (fun c => is_Some (h !! c)) (l1 ++ n :: l2) ->
  NoDup (ids h (l1 ++ n :: l2)) ->
  Forall (fun c => exists oc, h !! c = Some oc /\ lyr_id oc <> lyr_id o) (l1 ++ l2).
Proof.
  intros Hn Hval Hnd. unfold ids in Hnd. rewrite map_app in Hnd. simpl in Hnd.
  rewrite Hn in Hnd. simpl in Hnd.
  apply NoDup_app in Hnd as [_ [Hd1 Hnd]]. apply NoDup_cons in Hnd as [Hd2 _].
  apply Forall_app in Hval as [Hv1 Hv2]. apply Forall_cons_1 in Hv2 as [_ Hv2].
  apply Forall_app. split.
  - apply Forall_forall. intros c Hc.
    destruct (proj1 (Forall_forall _ _) Hv1 c Hc) as [oc Hoc].
    exists oc. split; [done |]. intros He.
    apply (Hd1 (Some (lyr_id o))).
    + apply list_elem_of_In, in_map_iff. exists c. rewrite Hoc. simpl.
      split; [by rewrite He | by apply list_elem_of_In].
    + apply elem_of_cons. by left.
  - apply Forall_forall. intros c Hc.
    destruct (proj1 (Forall_forall _ _) Hv2 c Hc) as [oc Hoc].
    exists oc. split; [done |]. intros He. apply Hd2.
    apply list_elem_of_In, in_map_iff. exists c. rewrite Hoc. simpl.
    split; [by rewrite He | by apply list_elem_of_In].
Qed.

(** ** The concrete stores *)

(** [NoDup] of a closed list of distinct values. *)
Ltac nodup_closed :=
  repeat (constructor;
          [ let Hin := fresh "Hin" in
            intros Hin;
            repeat (apply elem_of_cons in Hin as [Hin | Hin]; [discriminate |]);
            by apply elem_of_nil in Hin
          | ]);
  constructor.

Lemma snapshot_value :
  snapshot
  = ([ mkLayer LayerGroup None "root" None None None [snapshot_A; snapshot_G];
       mkLayer Layer (Some snapshot_root) "A" (Some 0) (Some "layer") None [];
       mkLayer LayerGroup (Some snapshot_root) "G" (Some 1) (Some "layerSection")
               None [snapshot_B];
       mkLayer Layer (Some snapshot_G) "B" (Some 0) (Some "layer") None [] ],
     Ret snapshot_root).
Proof. vm_compute. reflexivity. Qed.

Lemma snapshot_repr : repr snapshot_heap snapshot_root snapshot_tree.
Proof.
  unfold snapshot_heap. rewrite snapshot_value. simpl.
  eapply repr_group; [reflexivity | reflexivity |]. simpl.
  constructor; [eapply repr_leaf; reflexivity |].
  constructor; [| constructor].
  eapply repr_group; [reflexivity | reflexivity |]. simpl.
  constructor; [eapply repr_leaf; reflexivity | constructor].
Qed.

Lemma snapshot_with_C_repr : repr snapshot_with_C snapshot_root snapshot_tree.
Proof.
  unfold snapshot_with_C, snapshot_heap. rewrite snapshot_value. simpl.
  eapply repr_group; [reflexivity | reflexivity |]. simpl.
  constructor; [eapply repr_leaf; reflexivity |].
  constructor; [| constructor].
  eapply repr_group; [reflexivity | reflexivity |]. simpl.
  constructor; [eapply repr_leaf; reflexivity | constructor].
Qed.

Lemma snapshot_with_C_leaf : repr snapshot_with_C snapshot_C (TLeaf snapshot_C).
Proof.
  unfold snapshot_with_C, snapshot_heap. rewrite snapshot_value. simpl.
  eapply repr_leaf; reflexivity.
Qed.

Lemma nested_repr : repr nested_heap nested_g (TGroup nested_g nested_kids).
Proof.
  eapply repr_group; [reflexivity | reflexivity |]. simpl.
  constructor; [| constructor].
  eapply repr_group; [reflexivity | reflexivity |]. simpl.
  constructor; [eapply repr_leaf; reflexivity | constructor].
Qed.

Lemma nested_repr_n : repr nested_heap nested_n nested_N.
Proof. eapply repr_group; [reflexivity | reflexivity |]. constructor. Qed.

(** * The specified properties *)

(** C1. In a store that holds a tree, [getSize] of a composite group is 2
    plus the sum of the [getSize] values of its children, and [getSize] of
    a leaf (an object of any class other than [LayerGroup]) is 1. *)
Theorem getSize_size_invariant (fuel : nat) (h : heap) (l : loc) (t : tree) :
  repr h l t -> (depth t < fuel)%nat ->
  match t with
  | TLeaf _ => getSize fuel h l = Ret 1
  | TGroup _ kids =>
      exists o sizes,
        h !! l = Some o /\
        Forall2 (fun c s => getSize fuel h c = Ret s) (lyr_layers o) sizes /\
        getSize fuel h l = Ret (2 + Zsum sizes)
  end.
Proof.
  intros Hr Hd. pose proof (getSize_repr fuel h l t Hr Hd) as Hsz.
  destruct Hr as [l o Hl Hc | l o kids Hl Hc Hk]; [exact Hsz |].
  exists o, (map tsize kids). split; [exact Hl |]. split; [| exact Hsz].
  apply Forall2_fmap_r.
  eapply Forall2_impl_elem; [exact Hk |]. intros c k Hck Hin. simpl.
  apply getSize_repr; [exact Hck |].
  pose proof (depth_kid l kids k Hin). lia.
Qed.

Lemma getSize_size_invariant_witness :
  repr snapshot_heap snapshot_root snapshot_tree /\
  (depth snapshot_tree < 5)%nat /\
  exists o sizes,
    snapshot_heap !! snapshot_root = Some o /\
    Forall2 (fun c s => getSize 5 snapshot_heap c = Ret s) (lyr_layers o) sizes /\
    getSize 5 snapshot_heap snapshot_root = Ret (2 + Zsum sizes).
Proof.
  split; [exact snapshot_repr |]. split; [simpl; lia |].
  apply (getSize_size_invariant 5 snapshot_heap snapshot_root snapshot_tree).
  - exact snapshot_repr.
  - simpl. lia.
Defined.

(** C2, in the form that holds.
    For a composite [g] whose subtree carries distinct ids, and a node [n]
    of that subtree starting at flattened position [p] relative to [g],
    [findLayer] with [n]'s id returns [n] with the index of [n]'s last slot,
    [p + (getSize n - 1)]: [p] itself for a leaf, the
    closing end (not the opening marker) for a composite.  An id carried
    by no node of the subtree gives no result.  In the snapshot
    root[A, G[B]], [findLayer "B"] on the root returns index 2. *)
Theorem findLayer_flattened_index (fuel : nat) (h : heap) (g : loc) (kids : list tree) :
  repr h g (TGroup g kids) ->
  (depth (TGroup g kids) < fuel)%nat ->
  NoDup (node_ids h (flat kids)) ->
  (forall p t o,
      at_pos kids p t -> h !! root t = Some o ->
      findLayer fuel h g (lyr_id o) = Ret (Some (root t, p + (tsize t - 1)))) /\
  (forall id,
      id ∉ node_ids h (flat kids) -> findLayer fuel h g id = Ret None) /\
  findLayer 5 snapshot_heap snapshot_root "B" = Ret (Some (snapshot_B, 2)).
Proof.
  intros Hr Hd Hnd. split; [| split].
  - intros p t o Hp Ho. rewrite (findLayer_flat fuel h (lyr_id o) g kids Hr Hd).
    destruct (at_pos_flat kids p t Hp) as [k [Hk Hlook]].
    rewrite (first_match_unique h (lyr_id o) (flat kids) k (root t) 0 Hnd Hlook).
    + do 3 f_equal. lia.
    + unfold has_id. rewrite Ho. by apply bool_decide_eq_true_2.
  - intros id Hid. rewrite (findLayer_flat fuel h id g kids Hr Hd).
    by rewrite first_match_absent.
  - vm_compute. reflexivity.
Qed.

Lemma snapshot_ids_distinct : NoDup (node_ids snapshot_heap (flat snapshot_kids)).
Proof.
  unfold snapshot_heap. rewrite snapshot_value. vm_compute.
  nodup_closed.
Qed.

Lemma findLayer_flattened_index_witness :
  findLayer 5 snapshot_heap snapshot_root "G" = Ret (Some (snapshot_G, 1 + (3 - 1))).
Proof.
  destruct (findLayer_flattened_index 5 snapshot_heap snapshot_root snapshot_kids)
    as [Hpos _].
  - exact snapshot_repr.
  - simpl. lia.
  - exact snapshot_ids_distinct.
  - apply (Hpos 1 (TGroup snapshot_G [TLeaf snapshot_B])
                (mkLayer LayerGroup (Some snapshot_root) "G" (Some 1)
                         (Some "layerSection") None [snapshot_B])).
    + apply (at_next (TLeaf snapshot_A) _ 0). apply at_here.
    + unfold snapshot_heap. rewrite snapshot_value. reflexivity.
Defined.

(** C2 does not hold as written:
    the group G of the snapshot has its opening
    marker at flattened position 1, and [findLayer "G"] returns index 3. *)
Lemma findLayer_group_index_counterexample :
  at_pos snapshot_kids 1 (TGroup snapshot_G [TLeaf snapshot_B]) /\
  findLayer 5 snapshot_heap snapshot_root "G" = Ret (Some (snapshot_G, 3)) /\
  findLayer 5 snapshot_heap snapshot_root "G" <> Ret (Some (snapshot_G, 1)).
Proof.
  split; [| split].
  - apply (at_next (TLeaf snapshot_A) _ 0). apply at_here.
  - vm_compute. reflexivity.
  - vm_compute. discriminate.
Qed.

(** What [setName] does in general: nothing for the current name; for
    another name it stores it and reports it in both name fields. *)
Lemma setName_same (h : heap) (this : loc) (o : layer) :
  h !! this = Some o ->
  setName this (lyr_name o) h = (h, Ret None).
Proof.
  intros Ho. unfold setName, bind, read, deref. rewrite Ho.
  by rewrite decide_False by (intros Hne; by apply Hne).
Qed.

Lemma setName_other (h : heap) (this : loc) (o : layer) (name : option string) :
  h !! this = Some o ->
  lyr_name o <> name ->
  setName this name h
  = (<[this := set_name o name]> h, Ret (Some (mkRename "rename" name name))).
Proof.
  intros Ho Hne. unfold setName, bind, read, deref. rewrite Ho.
  by rewrite decide_True.
Qed.

(** C4. On the layer named "A", [setName "A2"] stores the new name and
    returns a rename result whose previous-name field is "A2", the new
    name, and not "A", the name held before the call. *)
Theorem setName_previousName_is_newName :
  (lyr_name <$> named_heap !! named_A) = Some (Some "A") /\
  setName named_A (Some "A2") named_heap
  = ([mkLayer Layer None "A" (Some 0) (Some "layer") (Some "A2") []],
     Ret (Some (mkRename "rename" (Some "A2") (Some "A2")))) /\
  (rn_previousName <$>
     match snd (setName named_A (Some "A2") named_heap) with
     | Ret r => r
     | _ => None
     end) <> Some (Some "A").
Proof.
  split; [reflexivity |]. split; [reflexivity |]. vm_compute. discriminate.
Qed.

Lemma BaseLayer_applyChange_named (h : heap) (this : loc) (o : layer)
    (change : raw) (name : string) :
  h !! this = Some o ->
  lyr_id o = raw_id change ->
  raw_name change = Some name ->
  snd (BaseLayer_applyChange this change h) = Ret [ItemChangesArray].
Proof.
  intros Ho Hid Hname. unfold BaseLayer_applyChange.
  unfold bind at 1, read at 1, deref. rewrite Ho.
  rewrite decide_False by (intros Hne; by apply Hne).
  rewrite Hname. unfold bind, setName, bind, read, deref. rewrite Ho.
  by destruct (decide (lyr_name o <> Some name)).
Qed.

(** C5. On the layer with id and name "A", the per-node [_applyChange]
    with a record carrying the current name changes nothing and still
    returns a one-element list; with a record carrying another name it
    renames the layer and returns a list that holds the list itself, not the
    rename result. *)
Theorem BaseLayer_applyChange_pushes_changes :
  BaseLayer_applyChange named_A (rename_record "A" "A") named_heap
  = (named_heap, Ret [ItemChangesArray]) /\
  BaseLayer_applyChange named_A (rename_record "A" "A2") named_heap
  = ([mkLayer Layer None "A" (Some 0) (Some "layer") (Some "A2") []],
     Ret [ItemChangesArray]).
Proof. split; reflexivity. Qed.

(** C6, in the form that holds.
    Adding a node [n] to a composite [g] at the target index
    [g.getSize() - 2 + (n.getSize() - 1)], which is [g.getSize() - 2] for a
    leaf [n], succeeds and makes [n] the last
    element of [g]'s child sequence, with [g] as its group. *)
Theorem addLayerAtIndex_appends (fuel : nat) (h : heap) (g n : loc)
    (kids : list tree) (N : tree) (gs ns : Z) :
  repr h g (TGroup g kids) ->
  repr h n N ->
  (depth (TGroup g kids) < fuel)%nat ->
  (S (depth N) < fuel)%nat ->
  getSize fuel h g = Ret gs ->
  getSize fuel h n = Ret ns ->
  exists h' og o',
    addLayerAtIndex fuel g n (gs - 2 + (ns - 1)) h = (h', Ret tt) /\
    h !! g = Some og /\
    h' !! g = Some o' /\
    lyr_layers o' = lyr_layers og ++ [n] /\
    (lyr_group <$> h' !! n) = Some (Some g).
Proof.
  intros Hg Hn Hdg Hdn Hgs Hns.
  rewrite (getSize_repr fuel h g _ Hg Hdg) in Hgs. injection Hgs as <-.
  rewrite (getSize_repr fuel h n N Hn) in Hns by lia. injection Hns as <-.
  destruct (repr_lookup h g _ Hg) as [og Hog].
  destruct (repr_lookup h n N Hn) as [on Hon].
  destruct (attach_lookup_this h g n (length kids) og on Hog Hon)
    as [o' [Ho' [Hlay _]]].
  destruct (attach_lookup_child h g n (length kids) og on Hog Hon)
    as [c' [Hc' [Hgrp _]]].
  exists (attach g n (length kids) h), og, o'.
  split; [by apply addLayerAtIndex_append |].
  split; [exact Hog |]. split; [exact Ho' |]. split.
  - rewrite Hlay. inversion Hg as [| ? og' ? Hog' _ Hk]; subst.
    assert (og' = og) as -> by congruence.
    rewrite <- (Forall2_length _ _ _ Hk). apply splice_in_length.
  - rewrite Hc'. simpl. by rewrite Hgrp.
Qed.

Lemma addLayerAtIndex_appends_witness :
  exists h' og o',
    addLayerAtIndex 5 snapshot_root snapshot_C (6 - 2 + (1 - 1)) snapshot_with_C
    = (h', Ret tt) /\
    snapshot_with_C !! snapshot_root = Some og /\
    h' !! snapshot_root = Some o' /\
    lyr_layers o' = lyr_layers og ++ [snapshot_C] /\
    (lyr_group <$> h' !! snapshot_C) = Some (Some snapshot_root).
Proof.
  apply (addLayerAtIndex_appends 5 snapshot_with_C snapshot_root snapshot_C
           snapshot_kids (TLeaf snapshot_C) 6 1).
  - exact snapshot_with_C_repr.
  - exact snapshot_with_C_leaf.
  - simpl. lia.
  - simpl. lia.
  - vm_compute. reflexivity.
  - vm_compute. reflexivity.
Defined.

(** C6 does not hold as written:
    the root of the snapshot has size 6, and adding
    the leaf C at target index [6 - 1] fails on the insertion assertion. *)
Lemma addLayerAtIndex_last_index_counterexample :
  getSize 5 snapshot_with_C snapshot_root = Ret 6 /\
  addLayerAtIndex 5 snapshot_root snapshot_C (6 - 1) snapshot_with_C
  = (snapshot_with_C, Throw (AssertionError "Invalid insertion index: 5")).
Proof. split; vm_compute; reflexivity. Qed.

(** C10. For a node [n] that is a child of its group [p], whose children
    carry distinct ids, [detach] succeeds, takes [n] out of [p]'s child
    sequence and leaves [n]'s group back-reference at [p]; detaching [n]
    again then fails on the assertion and changes nothing. *)
Theorem detach_keeps_group (h : heap) (n p : loc) (o po : layer) :
  h !! n = Some o ->
  lyr_group o = Some p ->
  h !! p = Some po ->
  instanceof_LayerGroup po = true ->
  n ∈ lyr_layers po ->
  Forall (fun c => is_Some (h !! c)) (lyr_layers po) ->
  NoDup (ids h (lyr_layers po)) ->
  exists h1 l1 l2,
    detach n h = (h1, Ret tt) /\
    lyr_layers po = l1 ++ n :: l2 /\
    (lyr_layers <$> h1 !! p) = Some (l1 ++ l2) /\
    (n ∉ l1 ++ l2) /\
    (lyr_group <$> h1 !! n) = Some (Some p) /\
    detach n h1
    = (h1, Throw (AssertionError "Unable to detach layer from parent")).
Proof.
  intros Hn Hgrp Hp Hcls Hin Hval Hnd.
  apply list_elem_of_split in Hin as [l1 [l2 Hlay]].
  rewrite Hlay in Hval, Hnd.
  pose proof (ids_others h l1 l2 n o Hn Hval Hnd) as Hothers.
  assert (p < length h)%nat as Hlp by (by eapply lookup_lt_Some).
  set (po1 := set_layers po (splice_out (length l1) (lyr_layers po))).
  set (h1 := <[p := po1]> h).
  assert (lyr_layers po1 = l1 ++ l2) as Hlay1.
  { unfold po1. simpl. rewrite Hlay. apply splice_out_app. }
  assert (h1 !! p = Some po1) as Hp1 by (by apply list_lookup_insert_eq).
  assert (forall c oc, h !! c = Some oc ->
            exists oc', h1 !! c = Some oc' /\ lyr_id oc' = lyr_id oc /\
                        lyr_group oc' = lyr_group oc) as Hsame.
  { intros c oc Hc. destruct (decide (c = p)) as [-> | Hne].
    - exists po1. split; [exact Hp1 |]. assert (oc = po) as -> by congruence. done.
    - exists oc. split; [| done]. unfold h1. by rewrite list_lookup_insert_ne. }
  exists h1, l1, l2.
  assert (detach n h = (h1, Ret tt)) as Hfirst.
  { unfold detach. unfold bind at 1, read at 1, deref. rewrite Hn, Hgrp.
    unfold bind at 1, read at 1. rewrite Hp, Hcls. cbn [negb].
    unfold bind at 1, read at 1. rewrite Hlay.
    rewrite (some_index_found h (lyr_id o) l1 l2 n o 0); [| | exact Hn | done].
    - unfold modify. rewrite <- Hlay. reflexivity.
    - apply Forall_app in Hothers as [Ho1 _]. exact Ho1. }
  split; [exact Hfirst |]. split; [exact Hlay |].
  split; [by rewrite Hp1, <- Hlay1 |]. split.
  { intros Hin. apply (proj1 (Forall_forall _ _) Hothers) in Hin as [oc [Hoc Hne]].
    assert (oc = o) as -> by congruence. done. }
  destruct (Hsame n o Hn) as [o1 [Hn1 [Hid1 Hgrp1]]].
  split; [rewrite Hn1; simpl; by rewrite Hgrp1, Hgrp |].
  unfold detach. unfold bind at 1, read at 1, deref. rewrite Hn1, Hgrp1, Hgrp.
  unfold bind at 1, read at 1. rewrite Hp1.
  replace (instanceof_LayerGroup po1) with true by (by rewrite <- Hcls).
  cbn [negb]. unfold bind at 1, read at 1. rewrite Hlay1, Hid1.
  rewrite some_index_none; [reflexivity |].
  eapply Forall_impl; [exact Hothers |]. intros c [oc [Hoc Hne]].
  destruct (Hsame c oc Hoc) as [oc' [Hoc' [Hid' _]]].
  exists oc'. split; [exact Hoc' | by rewrite Hid'].
Qed.

Lemma detach_keeps_group_witness :
  exists h1 l1 l2,
    detach snapshot_A snapshot_heap = (h1, Ret tt) /\
    [snapshot_A; snapshot_G] = l1 ++ snapshot_A :: l2 /\
    (lyr_layers <$> h1 !! snapshot_root) = Some (l1 ++ l2) /\
    (snapshot_A ∉ l1 ++ l2) /\
    (lyr_group <$> h1 !! snapshot_A) = Some (Some snapshot_root) /\
    detach snapshot_A h1
    = (h1, Throw (AssertionError "Unable to detach layer from parent")).
Proof.
  apply (detach_keeps_group snapshot_heap snapshot_A snapshot_root
           (mkLayer Layer (Some snapshot_root) "A" (Some 0) (Some "layer") None [])
           (mkLayer LayerGroup None "root" None None None [snapshot_A; snapshot_G])).
  - vm_compute. reflexivity.
  - reflexivity.
  - vm_compute. reflexivity.
  - reflexivity.
  - simpl. apply elem_of_cons. by left.
  - simpl. repeat constructor; vm_compute; eauto.
  - vm_compute. nodup_closed.
Defined.

(** C3 does not hold as written for a composite [n]:
    adding the empty group n to
    g[c[x]] at target index 4 succeeds and makes it g's last child, and its
    opening marker is then at flattened position 3, not 4. *)
Lemma addLayerAtIndex_group_position_counterexample :
  exists h',
    addLayerAtIndex 5 nested_g nested_n 4 nested_heap = (h', Ret tt) /\
    repr h' nested_g (TGroup nested_g (nested_kids ++ [nested_N])) /\
    at_pos (nested_kids ++ [nested_N]) 3 nested_N /\
    ~ at_pos (nested_kids ++ [nested_N]) 4 nested_N.
Proof.
  eexists. split; [vm_compute; reflexivity |]. split; [| split].
  - eapply repr_group; [reflexivity | reflexivity |]. simpl.
    constructor; [| constructor; [| constructor]].
    + eapply repr_group; [reflexivity | reflexivity |]. simpl.
      constructor; [eapply repr_leaf; reflexivity | constructor].
    + eapply repr_group; [reflexivity | reflexivity |]. constructor.
  - apply (at_next (TGroup nested_c [TLeaf nested_x]) [nested_N] 0). apply at_here.
  - intros Hp. destruct (at_pos_flat _ _ _ Hp) as [k [Hk Hlook]].
    simpl in Hk. assert (k = 5%nat) as -> by lia. vm_compute in Hlook. discriminate.
Qed.

(** The recursive call subtracts the size of a composite [n] once more
    than the flat index space has it: added to g[c[x]] at target index 3,
    the empty group n lands in front of x, on slots 1 and 2. *)
Lemma addLayerAtIndex_nested_group_shift :
  exists h',
    addLayerAtIndex 5 nested_g nested_n 3 nested_heap = (h', Ret tt) /\
    repr h' nested_g (TGroup nested_g [TGroup nested_c [nested_N; TLeaf nested_x]]) /\
    at_pos [TGroup nested_c [nested_N; TLeaf nested_x]] 1 nested_N.
Proof.
  eexists. split; [vm_compute; reflexivity |]. split.
  - eapply repr_group; [reflexivity | reflexivity |]. simpl.
    constructor; [| constructor].
    eapply repr_group; [reflexivity | reflexivity |]. simpl.
    constructor; [| constructor; [eapply repr_leaf; reflexivity | constructor]].
    eapply repr_group; [reflexivity | reflexivity |]. constructor.
  - apply (at_in nested_c [nested_N; TLeaf nested_x] [] 0). apply at_here.
Qed.

(** C7, in the form that holds.
    With "C" registered in [changedLayers], applying the
    batch that adds the plain layer C with index 4 at the root of the
    snapshot root[A, G[B]] (root size 6) succeeds, brings the root's size
    to 7 and makes C the root's last child, at flattened index 4, after the
    slot 3 that closes G. *)
Theorem applyChange_adds_C_after_G :
  getSize 5 snapshot_heap snapshot_root = Ret 6 /\
  findLayer 5 snapshot_heap snapshot_root "G" = Ret (Some (snapshot_G, 3)) /\
  exists h' cl',
    LayerGroup_applyChange 5 snapshot_root [added_C 4] None (snapshot_heap, table_C)
    = ((h', cl'), Ret tt) /\
    getSize 5 h' snapshot_root = Ret 7 /\
    (lyr_layers <$> h' !! snapshot_root)
    = Some [snapshot_A; snapshot_G; snapshot_C] /\
    findLayer 5 h' snapshot_root "C" = Ret (Some (snapshot_C, 4)) /\
    cl' !! "C" = Some (mkLayerRec (Some snapshot_C) (Some (Some snapshot_root))).
Proof.
  split; [vm_compute; reflexivity |]. split; [vm_compute; reflexivity |].
  destruct (LayerGroup_applyChange 5 snapshot_root [added_C 4] None
              (snapshot_heap, table_C)) as [[h' cl'] out] eqn:Hrun.
  exists h', cl'.
  assert (out = Ret tt) as ->.
  { change out with (snd (h', cl', out)). rewrite <- Hrun. vm_compute. reflexivity. }
  split; [reflexivity |].
  assert (h' = fst (fst (LayerGroup_applyChange 5 snapshot_root [added_C 4] None
                           (snapshot_heap, table_C)))) as Hh by (by rewrite Hrun).
  assert (cl' = snd (fst (LayerGroup_applyChange 5 snapshot_root [added_C 4] None
                            (snapshot_heap, table_C)))) as Hcl by (by rewrite Hrun).
  clear Hrun. subst h' cl'.
  repeat split; vm_compute; reflexivity.
Qed.

(** C7 does not hold as written: with index 5 the batch fails on the
    insertion assertion; a record without a type fails in the factory, and
    with no entry for "C" in [changedLayers] the batch fails with a
    TypeError. *)
Lemma applyChange_index_5_counterexample :
  snd (LayerGroup_applyChange 5 snapshot_root [added_C 5] None (snapshot_heap, table_C))
  = Throw (AssertionError "Invalid insertion index: 5") /\
  snd (LayerGroup_applyChange 5 snapshot_root [added_C_untyped 5] None
         (snapshot_heap, table_C))
  = Throw (Error "Unknown layer type:") /\
  snd (LayerGroup_applyChange 5 snapshot_root [added_C 5] None (snapshot_heap, ∅))
  = Throw TypeError.
Proof. repeat split; vm_compute; reflexivity. Qed.

(** ** The change applicator never adds a key to [changedLayers] *)

Lemma keeps_keys_ret {A : Type} (a : A) : keeps_keys (ret a).
Proof. intros s s' out H. by injection H as <- _. Qed.

Lemma keeps_keys_throw {A : Type} (e : exn) : keeps_keys (@throw _ A e).
Proof. intros s s' out H. by injection H as <- _. Qed.

Lemma keeps_keys_read {A : Type} (f : state -> outcome A) : keeps_keys (read f).
Proof. intros s s' out H. by injection H as <- _. Qed.

Lemma keeps_keys_bind {A B : Type} (m : M state A) (k : A -> M state B) :
  keeps_keys m -> (forall a, keeps_keys (k a)) -> keeps_keys (bind m k).
Proof.
  intros Hm Hk s s' out H. unfold bind in H.
  destruct (m s) as [s1 [a | e |]] eqn:Hms.
  - rewrite (Hk a s1 s' out H). by eapply Hm.
  - injection H as <- _. by eapply Hm.
  - injection H as <- _. by eapply Hm.
Qed.

Lemma keeps_keys_on_heap {A : Type} (m : M heap A) : keeps_keys (on_heap m).
Proof.
  intros s s' out H. unfold on_heap in H.
  destruct (m (fst s)) as [h' r]. by injection H as <- _.
Qed.

Lemma dom_insert_present (cl : gmap string layerRec) (id : string) (e e' : layerRec) :
  cl !! id = Some e -> dom (<[id := e']> cl) = dom cl.
Proof.
  intros He. rewrite dom_insert_L.
  apply subseteq_union_1_L, singleton_subseteq_l, elem_of_dom. eauto.
Qed.

Lemma keeps_keys_materialize_lookup (fuel : nat) (this : loc) (r : raw) :
  keeps_keys (materialize_lookup fuel this r).
Proof.
  unfold materialize_lookup. destruct (raw_added r).
  - apply keeps_keys_bind; [apply keeps_keys_on_heap |].
    intros child s s' out H.
    destruct (snd s !! raw_id r) as [e |] eqn:He; injection H as <- _; [| done].
    simpl. by eapply dom_insert_present.
  - intros s s' out H.
    destruct (snd s !! raw_id r) as [e |]; [by injection H as <- _ |].
    destruct (raw_removed r); by injection H as <- _.
Qed.

Lemma keeps_keys_dispatch (apply_in : loc -> list raw -> option Z -> M state unit)
    (child : option loc) (layers : list raw) (index : Z) :
  (forall c l i, keeps_keys (apply_in c l i)) ->
  keeps_keys (dispatch_applyChange apply_in child layers index).
Proof.
  intros Happ. unfold dispatch_applyChange.
  destruct child as [c |]; [| apply keeps_keys_throw].
  apply keeps_keys_bind; [apply keeps_keys_read |]. intros o.
  destruct (instanceof_LayerGroup o); [apply Happ | apply keeps_keys_throw].
Qed.

Lemma keeps_keys_materialize_one
    (apply_in : loc -> list raw -> option Z -> M state unit)
    (fuel : nat) (this : loc) (r : raw) (finalSize : Z) :
  (forall c l i, keeps_keys (apply_in c l i)) ->
  keeps_keys (materialize_one apply_in fuel this r finalSize).
Proof.
  intros Happ. unfold materialize_one.
  destruct (raw_index r) as [index |]; [| apply keeps_keys_ret].
  apply keeps_keys_bind; [apply keeps_keys_materialize_lookup |].
  intros [| child]; [apply keeps_keys_ret |].
  apply keeps_keys_bind.
  { destruct (raw_layers r); [by apply keeps_keys_dispatch | apply keeps_keys_ret]. }
  intros _. destruct (raw_removed r); [apply keeps_keys_ret |].
  apply keeps_keys_bind; [| intros; apply keeps_keys_ret].
  unfold child_getSize. destruct child; [apply keeps_keys_read | apply keeps_keys_throw].
Qed.

Lemma keeps_keys_materialize
    (apply_in : loc -> list raw -> option Z -> M state unit)
    (fuel : nat) (this : loc) (rs : list raw) :
  (forall c l i, keeps_keys (apply_in c l i)) ->
  forall finalSize, keeps_keys (materialize apply_in fuel this rs finalSize).
Proof.
  intros Happ. induction rs as [| r rs IH]; intros finalSize; simpl.
  - apply keeps_keys_ret.
  - apply keeps_keys_bind; [by apply keeps_keys_materialize_one | exact IH].
Qed.

Lemma keeps_keys_place_one (fuel : nat) (this : loc) (offset : Z) (r : raw) :
  keeps_keys (place_one fuel this offset r).
Proof.
  unfold place_one. destruct (raw_index r) as [index |]; [| apply keeps_keys_ret].
  destruct (raw_removed r); [apply keeps_keys_ret |].
  intros s s' out H.
  destruct (snd s !! raw_id r) as [e |] eqn:He; [| by injection H as <- _].
  destruct (rec_layer e) as [child |]; [| by injection H as <- _].
  destruct (deref (fst s) child) as [c | ex |]; try by injection H as <- _.
  apply keeps_keys_on_heap in H. rewrite H. simpl. by eapply dom_insert_present.
Qed.

Lemma keeps_keys_place (fuel : nat) (this : loc) (offset : Z) (rs : list raw) :
  keeps_keys (place fuel this offset rs).
Proof.
  induction rs as [| r rs IH]; simpl; [apply keeps_keys_ret |].
  apply keeps_keys_bind; [apply keeps_keys_place_one | intros _; exact IH].
Qed.

Lemma keeps_keys_applyChange (fuel : nat) :
  forall (this : loc) (rs : list raw) (parentIndex : option Z),
  keeps_keys (LayerGroup_applyChange fuel this rs parentIndex).
Proof.
  induction fuel as [| fuel IH]; intros this rs parentIndex.
  - intros s s' out H. by injection H as <- _.
  - cbn [LayerGroup_applyChange].
    apply keeps_keys_bind; [apply keeps_keys_read |]. intros finalSize.
    apply keeps_keys_bind; [by apply keeps_keys_materialize |]. intros finalSize'.
    apply keeps_keys_place.
Qed.

(** ** Records that refer to an unregistered id *)

Lemma sort_insert_elem (x y : raw) (l : list raw) :
  y ∈ sort_insert x l <-> y = x \/ y ∈ l.
Proof.
  induction l as [| z l IH]; simpl.
  - rewrite list_elem_of_singleton. split; [by left | intros [? | ?%elem_of_nil]; done].
  - destruct (compare_index x z) as [d |]; [destruct (0 <? d) |];
      rewrite ?elem_of_cons; tauto.
Qed.

Lemma sort_by_index_elem (y : raw) (l : list raw) :
  y ∈ sort_by_index l <-> y ∈ l.
Proof.
  induction l as [| x l IH]; simpl; [reflexivity |].
  rewrite sort_insert_elem, elem_of_cons, IH. reflexivity.
Qed.

(** The first [forEach] callback on a record whose id is not registered:
    it throws unless the record is a removal that is not an addition. *)
Lemma materialize_one_unregistered
    (apply_in : loc -> list raw -> option Z -> M state unit)
    (fuel : nat) (this : loc) (r : raw) (index : Z) (finalSize : Z)
    (s s' : state) (out : outcome Z) :
  raw_index r = Some index ->
  snd s !! raw_id r = None ->
  raw_added r = true \/ raw_removed r = false ->
  materialize_one apply_in fuel this r finalSize s = (s', out) ->
  snd s' = snd s /\ forall z, out <> Ret z.
Proof.
  intros Hidx Hid Hkind Hrun. unfold materialize_one in Hrun. rewrite Hidx in Hrun.
  unfold bind at 1 in Hrun. unfold materialize_lookup in Hrun.
  destruct (raw_added r) eqn:Hadd.
  - unfold bind at 1 in Hrun.
    destruct (on_heap (createLayer fuel (Some this) r) s) as [s1 [child | e |]] eqn:Hc;
      pose proof (keeps_keys_on_heap _ _ _ _ Hc) as Hdom.
    + assert (snd s1 = snd s) as Hs1.
      { unfold on_heap in Hc. destruct (createLayer fuel (Some this) r (fst s)).
        by injection Hc as <- _. }
      rewrite Hs1, Hid in Hrun. injection Hrun as <- <-. by split.
    + assert (snd s1 = snd s) as Hs1.
      { unfold on_heap in Hc. destruct (createLayer fuel (Some this) r (fst s)).
        by injection Hc as <- _. }
      injection Hrun as <- <-. by split.
    + assert (snd s1 = snd s) as Hs1.
      { unfold on_heap in Hc. destruct (createLayer fuel (Some this) r (fst s)).
        by injection Hc as <- _. }
      injection Hrun as <- <-. by split.
  - destruct Hkind as [? | Hrem]; [done |].
    rewrite Hid, Hrem in Hrun. injection Hrun as <- <-. by split.
Qed.

Lemma materialize_unregistered
    (apply_in : loc -> list raw -> option Z -> M state unit)
    (fuel : nat) (this : loc) (r : raw) (index : Z) (rs : list raw) :
  (forall c l i, keeps_keys (apply_in c l i)) ->
  r ∈ rs ->
  raw_index r = Some index ->
  raw_added r = true \/ raw_removed r = false ->
  forall (finalSize : Z) (s s' : state) (out : outcome Z),
  snd s !! raw_id r = None ->
  materialize apply_in fuel this rs finalSize s = (s', out) ->
  forall z, out <> Ret z.
Proof.
  intros Happ Hin Hidx Hkind.
  induction rs as [| x rs IH]; intros finalSize s s' out Hid Hrun;
    [by apply elem_of_nil in Hin |].
  simpl in Hrun. unfold bind in Hrun.
  destruct (materialize_one apply_in fuel this x finalSize s) as [s1 o1] eqn:Hone.
  destruct o1 as [z1 | e |]; [| by injection Hrun as _ <- ..].
  apply elem_of_cons in Hin as [-> | Hin].
  - destruct (materialize_one_unregistered _ _ _ _ _ _ _ _ _ Hidx Hid Hkind Hone)
      as [_ Hout].
    by destruct (Hout z1).
  - pose proof (keeps_keys_materialize_one apply_in fuel this x finalSize Happ
                  _ _ _ Hone) as Hdom.
    eapply (IH Hin z1 s1 s' out); [| exact Hrun].
    apply not_elem_of_dom. rewrite Hdom. by apply not_elem_of_dom.
Qed.

Lemma applyChange_unregistered (fuel : nat) (this : loc) (r : raw) (index : Z)
    (rs : list raw) (parentIndex : option Z) (s s' : state) (out : outcome unit) :
  r ∈ rs ->
  raw_index r = Some index ->
  raw_added r = true \/ raw_removed r = false ->
  snd s !! raw_id r = None ->
  LayerGroup_applyChange fuel this rs parentIndex s = (s', out) ->
  forall u, out <> Ret u.
Proof.
  intros Hin Hidx Hkind Hid Hrun. destruct fuel as [| fuel].
  { by injection Hrun as _ <-. }
  cbn [LayerGroup_applyChange] in Hrun. unfold bind at 1, read at 1 in Hrun.
  destruct (getSize fuel (fst s) this) as [finalSize | e |];
    [| by injection Hrun as _ <- ..].
  unfold bind at 1 in Hrun.
  destruct (materialize (LayerGroup_applyChange fuel) fuel this (sort_by_index rs)
              finalSize s) as [s1 o1] eqn:Hmat.
  assert (forall z, o1 <> Ret z) as Hout.
  { eapply (materialize_unregistered _ fuel this r index (sort_by_index rs));
      [apply keeps_keys_applyChange | by apply sort_by_index_elem | done | done
       | exact Hid | exact Hmat]. }
  destruct o1 as [z1 | e |]; [by destruct (Hout z1) | |]; by injection Hrun as _ <-.
Qed.

(** C8. In the materialize phase, for a record that carries an index and
    is not marked added: when its id is absent from [changedLayers] and it
    is marked removed, the record is skipped, with no error and no change;
    when its id is absent and it is not marked removed, the callback throws
    "Can't find changed layer:" and no batch holding the record is applied
    to the end; when its id is present, the node of that entry is the one
    used, nothing being created. *)
Theorem materialize_existing_record
    (apply_in : loc -> list raw -> option Z -> M state unit)
    (fuel : nat) (this : loc) (r : raw) (index finalSize : Z)
    (h : heap) (cl : gmap string layerRec) :
  raw_index r = Some index ->
  raw_added r = false ->
  (cl !! raw_id r = None -> raw_removed r = true ->
   materialize_one apply_in fuel this r finalSize (h, cl)
   = ((h, cl), Ret finalSize) /\
   forall sz parentIndex,
     getSize fuel h this = Ret sz ->
     LayerGroup_applyChange (S fuel) this [r] parentIndex (h, cl)
     = ((h, cl), Ret tt)) /\
  (cl !! raw_id r = None -> raw_removed r = false ->
   materialize_one apply_in fuel this r finalSize (h, cl)
   = ((h, cl), Throw (Error "Can't find changed layer:")) /\
   (forall sz parentIndex,
      getSize fuel h this = Ret sz ->
      LayerGroup_applyChange (S fuel) this [r] parentIndex (h, cl)
      = ((h, cl), Throw (Error "Can't find changed layer:"))) /\
   forall rs parentIndex u,
     r ∈ rs ->
     snd (LayerGroup_applyChange fuel this rs parentIndex (h, cl)) <> Ret u) /\
  (forall e,
     cl !! raw_id r = Some e ->
     materialize_lookup fuel this r (h, cl) = ((h, cl), Ret (Child (rec_layer e))) /\
     forall c sz,
       rec_layer e = Some c -> raw_layers r = None -> raw_removed r = false ->
       getSize fuel h c = Ret sz ->
       materialize_one apply_in fuel this r finalSize (h, cl)
       = ((h, cl), Ret (finalSize + sz))).
Proof.
  intros Hidx Hadd.
  assert (forall fs apply,
            cl !! raw_id r = None ->
            materialize_one apply fuel this r fs (h, cl)
            = ((h, cl),
               if raw_removed r then Ret fs
               else Throw (Error "Can't find changed layer:"))) as Hone.
  { intros fs apply Hid. unfold materialize_one. rewrite Hidx.
    unfold bind, materialize_lookup. rewrite Hadd. simpl. rewrite Hid.
    by destruct (raw_removed r). }
  split; [| split].
  - intros Hid Hrem. split; [by rewrite Hone, Hrem |].
    intros sz parentIndex Hsz. cbn [LayerGroup_applyChange].
    unfold bind at 1, read at 1. simpl fst. rewrite Hsz.
    cbn [sort_by_index fold_right sort_insert materialize place].
    unfold bind at 1. unfold bind at 1. rewrite Hone, Hrem by done.
    unfold ret at 1. unfold bind, place_one. by rewrite Hidx, Hrem.
  - intros Hid Hrem. split; [by rewrite Hone, Hrem | split].
    + intros sz parentIndex Hsz. cbn [LayerGroup_applyChange].
      unfold bind at 1, read at 1. simpl fst. rewrite Hsz.
      cbn [sort_by_index fold_right sort_insert materialize place].
      unfold bind at 1. unfold bind at 1. by rewrite Hone, Hrem by done.
    + intros rs parentIndex u Hin.
      destruct (LayerGroup_applyChange fuel this rs parentIndex (h, cl))
        as [s' out] eqn:Hrun.
      eapply (applyChange_unregistered fuel this r index rs parentIndex (h, cl));
        [exact Hin | exact Hidx | by right | exact Hid | exact Hrun].
  - intros e He. split.
    + unfold materialize_lookup. rewrite Hadd. simpl. by rewrite He.
    + intros c sz Hc Hlay Hrem Hsz. unfold materialize_one. rewrite Hidx.
      unfold bind at 1. unfold materialize_lookup. rewrite Hadd. simpl.
      rewrite He, Hlay, Hrem, Hc. unfold bind, ret, child_getSize, read. simpl.
      by rewrite Hsz.
Qed.

Lemma materialize_existing_record_witness :
  materialize_one (LayerGroup_applyChange 4) 4 snapshot_root removed_Z 6
                  (snapshot_heap, table_C)
  = ((snapshot_heap, table_C), Ret 6) /\
  materialize_one (LayerGroup_applyChange 4) 4 snapshot_root moved_Z 6
                  (snapshot_heap, table_C)
  = ((snapshot_heap, table_C), Throw (Error "Can't find changed layer:")).
Proof.
  split.
  - destruct (materialize_existing_record (LayerGroup_applyChange 4) 4 snapshot_root
                removed_Z 0 6 snapshot_heap table_C) as [Hskip _];
      [reflexivity | reflexivity |].
    apply Hskip; reflexivity.
  - destruct (materialize_existing_record (LayerGroup_applyChange 4) 4 snapshot_root
                moved_Z 0 6 snapshot_heap table_C) as [_ [Hfail _]];
      [reflexivity | reflexivity |].
    apply Hfail; reflexivity.
Defined.

(** C9. For a record marked added, the applicator stores the node it
    constructs into the [layer] field of the entry already registered under
    the record's id.  When there is no such entry, the callback fails (with
    a TypeError once the node is constructed), the table is left as it was,
    and no batch holding the record is applied to the end; the applicator
    never adds a key to [changedLayers]. *)
Theorem added_record_needs_entry
    (apply_in : loc -> list raw -> option Z -> M state unit)
    (fuel : nat) (this : loc) (r : raw) (index finalSize : Z)
    (h : heap) (cl : gmap string layerRec) :
  raw_index r = Some index ->
  raw_added r = true ->
  (forall e h1 child,
     cl !! raw_id r = Some e ->
     createLayer fuel (Some this) r h = (h1, Ret child) ->
     materialize_lookup fuel this r (h, cl)
     = ((h1, <[raw_id r := mkLayerRec (Some child) (rec_previousGroup e)]> cl),
        Ret (Child (Some child)))) /\
  (cl !! raw_id r = None ->
   (forall h1 child,
      createLayer fuel (Some this) r h = (h1, Ret child) ->
      materialize_one apply_in fuel this r finalSize (h, cl)
      = ((h1, cl), Throw TypeError)) /\
   (forall h1 child sz parentIndex,
      createLayer fuel (Some this) r h = (h1, Ret child) ->
      getSize fuel h this = Ret sz ->
      LayerGroup_applyChange (S fuel) this [r] parentIndex (h, cl)
      = ((h1, cl), Throw TypeError)) /\
   (forall s' out,
      materialize_one apply_in fuel this r finalSize (h, cl) = (s', out) ->
      snd s' = cl /\ forall z, out <> Ret z) /\
   (forall rs parentIndex u,
      r ∈ rs ->
      snd (LayerGroup_applyChange fuel this rs parentIndex (h, cl)) <> Ret u)) /\
  (forall rs parentIndex,
     dom (snd (fst (LayerGroup_applyChange fuel this rs parentIndex (h, cl))))
     = dom cl).
Proof.
  intros Hidx Hadd. split; [| split].
  - intros e h1 child He Hc. unfold materialize_lookup. rewrite Hadd.
    unfold bind, on_heap. simpl. rewrite Hc. simpl. by rewrite He.
  - intros Hid.
    assert (forall fs apply h1 child,
              createLayer fuel (Some this) r h = (h1, Ret child) ->
              materialize_one apply fuel this r fs (h, cl)
              = ((h1, cl), Throw TypeError)) as Hone.
    { intros fs apply h1 child Hc. unfold materialize_one. rewrite Hidx.
      unfold bind at 1. unfold materialize_lookup. rewrite Hadd.
      unfold bind, on_heap. simpl. rewrite Hc. simpl. by rewrite Hid. }
    split; [| split; [| split]].
    + intros h1 child. apply Hone.
    + intros h1 child sz parentIndex Hc Hsz. cbn [LayerGroup_applyChange].
      unfold bind at 1, read at 1. simpl fst. rewrite Hsz.
      cbn [sort_by_index fold_right sort_insert materialize place].
      unfold bind at 1. unfold bind at 1. by rewrite (Hone _ _ h1 child Hc).
    + intros s' out Hrun.
      by apply (materialize_one_unregistered apply_in fuel this r index finalSize
                  (h, cl) s' out Hidx Hid (or_introl Hadd)).
    + intros rs parentIndex u Hin.
      destruct (LayerGroup_applyChange fuel this rs parentIndex (h, cl))
        as [s' out] eqn:Hrun.
      eapply (applyChange_unregistered fuel this r index rs parentIndex (h, cl));
        [exact Hin | exact Hidx | by left | exact Hid | exact Hrun].
  - intros rs parentIndex.
    destruct (LayerGroup_applyChange fuel this rs parentIndex (h, cl))
      as [s' out] eqn:Hrun.
    by apply (keeps_keys_applyChange fuel this rs parentIndex) in Hrun.
Qed.

Lemma added_record_needs_entry_witness :
  materialize_one (LayerGroup_applyChange 4) 4 snapshot_root (added_C 4) 6
                  (snapshot_heap, ∅)
  = ((fst (createLayer 4 (Some snapshot_root) (added_C 4) snapshot_heap), ∅),
     Throw TypeError).
Proof.
  destruct (added_record_needs_entry (LayerGroup_applyChange 4) 4 snapshot_root
              (added_C 4) 4 6 snapshot_heap ∅) as [_ [Habsent _]];
    [reflexivity | reflexivity |].
  destruct (Habsent eq_refl) as [Hthrow _].
  apply (Hthrow _ snapshot_C). vm_compute. reflexivity.
Defined.

(** * Further properties of the layer tree *)

(** ** Where [addLayerAtIndex] accepts a target index *)

Lemma scan_low (size_of : loc -> outcome Z) (h : heap) (t : Z) (layers : list loc)
    (idx : nat) (cur : Z) :
  t <= cur -> scan size_of h t layers idx cur cur = Ret (ScanEnd idx cur).
Proof.
  intros Hle. destruct layers as [| c layers]; [reflexivity |]. simpl.
  destruct (Z.leb_spec t cur); [reflexivity | lia].
Qed.

(** Scanning for the first slot after the children [k1] stops exactly
    there, whatever follows. *)
Lemma scan_exact (fuel : nat) (h : heap) (l1 : list loc) (k1 : list tree)
    (l2 : list loc) :
  Forall2 (repr h) l1 k1 ->
  Forall (fun k => depth k < fuel)%nat k1 ->
  forall (idx : nat) (cur : Z),
  scan (getSize fuel h) h (cur + Zsum (map tsize k1)) (l1 ++ l2) idx cur cur
  = Ret (ScanEnd (idx + length l1) (cur + Zsum (map tsize k1))).
Proof.
  intros HF. induction HF as [| c k l1 k1 Hck _ IH]; intros Hd idx cur.
  - simpl. replace (cur + 0) with cur by lia. rewrite Nat.add_0_r.
    apply scan_low. lia.
  - apply Forall_cons_1 in Hd as [Hdk Hd].
    pose proof (tsize_pos k). pose proof (Zsum_tsize_nonneg k1).
    cbn [app scan map Zsum fold_right]. fold (Zsum (map tsize k1)).
    destruct (Z.leb_spec (cur + (tsize k + Zsum (map tsize k1))) cur); [lia |].
    rewrite (getSize_repr fuel h c k Hck Hdk). cbn [obind].
    destruct (repr_lookup h c k Hck) as [o Ho]. unfold deref. rewrite Ho. cbn [obind].
    destruct (Z.ltb_spec (cur + (tsize k + Zsum (map tsize k1))) (cur + tsize k));
      [lia |].
    cbn [andb].
    replace (cur + (tsize k + Zsum (map tsize k1)))
      with (cur + tsize k + Zsum (map tsize k1)) by lia.
    rewrite (IH Hd (S idx) (cur + tsize k)). do 2 f_equal. simpl. lia.
Qed.

(** Scanning for a slot beyond all the children runs to the end. *)
Lemma scan_beyond (fuel : nat) (h : heap) (t : Z) (layers : list loc) (kids : list tree) :
  Forall2 (repr h) layers kids ->
  Forall (fun k => depth k < fuel)%nat kids ->
  forall (idx : nat) (cur : Z),
  cur + Zsum (map tsize kids) < t ->
  scan (getSize fuel h) h t layers idx cur cur
  = Ret (ScanEnd (idx + length layers) (cur + Zsum (map tsize kids))).
Proof.
  intros HF. induction HF as [| c k layers kids Hck _ IH]; intros Hd idx cur Hlt.
  - simpl. rewrite Nat.add_0_r. do 2 f_equal. lia.
  - apply Forall_cons_1 in Hd as [Hdk Hd].
    pose proof (tsize_pos k). pose proof (Zsum_tsize_nonneg kids).
    cbn [scan map Zsum fold_right] in *. fold (Zsum (map tsize kids)) in *.
    destruct (Z.leb_spec t cur); [lia |].
    rewrite (getSize_repr fuel h c k Hck Hdk). cbn [obind].
    destruct (repr_lookup h c k Hck) as [o Ho]. unfold deref. rewrite Ho. cbn [obind].
    destruct (Z.ltb_spec t (cur + tsize k)); [lia |]. cbn [andb].
    rewrite (IH Hd (S idx) (cur + tsize k)) by lia. do 2 f_equal; simpl; lia.
Qed.

(** The store after [attach]: the group holds the tree with the new
    child at the given child position. *)
Lemma attach_child_repr (h : heap) (g n : loc) (k1 k2 : list tree) (N : tree) :
  repr h g (TGroup g (k1 ++ k2)) ->
  repr h n N ->
  g ∉ klocs (k1 ++ k2) ->
  g ∉ locs N ->
  repr (attach g n (length k1) h) g (TGroup g (k1 ++ N :: k2)).
Proof.
  intros Hg Hn Hgk HgN.
  inversion Hg as [| ? og ? Hog Hcls Hk]; subst.
  destruct (repr_lookup h n N Hn) as [on Hon].
  destruct (attach_lookup_this h g n (length k1) og on Hog Hon)
    as [o' [Ho' [Hlay [Hc _]]]].
  econstructor; [exact Ho' | unfold instanceof_LayerGroup in *; by rewrite Hc |].
  rewrite Hlay.
  apply Forall2_app_inv_r in Hk as [l1 [l2 [Hk1 [Hk2 ->]]]].
  rewrite <- (Forall2_length _ _ _ Hk1), splice_in_app.
  assert (forall l k, repr h l k -> g ∉ locs k ->
            repr (attach g n (length l1) h) l k) as Hkeep.
  { intros l k Hr Hnot. apply (repr_ext h); [exact Hr |].
    intros x Hx. apply (shape_attach h g n _ og on); try done.
    intros ->. by apply Hnot. }
  apply Forall2_app; [| constructor].
  - eapply Forall2_impl_elem; [exact Hk1 |]. intros l k Hr Hin.
    apply Hkeep; [exact Hr |]. intros Hx. apply Hgk.
    eapply klocs_elem; [| exact Hx]. apply elem_of_app. by left.
  - by apply Hkeep.
  - eapply Forall2_impl_elem; [exact Hk2 |]. intros l k Hr Hin.
    apply Hkeep; [exact Hr |]. intros Hx. apply Hgk.
    eapply klocs_elem; [| exact Hx]. apply elem_of_app. by right.
Qed.

(** X1. A node can be placed in front of any child, or after the last one:
    with the children split as [k1 ++ k2], the target index "sizes of [k1]
    plus [getSize n - 1]" is accepted and makes [n] child number [|k1|] of
    [g], starting at the flattened position where [k2] started. *)
Theorem addLayerAtIndex_between (fuel : nat) (h : heap) (g n : loc)
    (k1 k2 : list tree) (N : tree) :
  repr h g (TGroup g (k1 ++ k2)) ->
  repr h n N ->
  NoDup (locs (TGroup g (k1 ++ k2)) ++ locs N) ->
  (depth (TGroup g (k1 ++ k2)) < fuel)%nat ->
  (S (depth N) < fuel)%nat ->
  exists h',
    addLayerAtIndex fuel g n (Zsum (map tsize k1) + (tsize N - 1)) h = (h', Ret tt) /\
    repr h' g (TGroup g (k1 ++ N :: k2)) /\
    at_pos (k1 ++ N :: k2) (Zsum (map tsize k1)) N /\
    (lyr_group <$> h' !! n) = Some (Some g).
Proof.
  intros Hg Hn Hnd Hdg Hdn. destruct fuel as [| fuel]; [lia |].
  inversion Hg as [| ? og ? Hog Hcls Hk]; subst.
  destruct (repr_lookup h n N Hn) as [on Hon].
  pose proof Hk as Hk'.
  apply Forall2_app_inv_r in Hk' as [l1 [l2 [Hk1 [Hk2 Hlay]]]].
  pose proof (kids_depth fuel g _ Hdg) as Hdk. apply Forall_app in Hdk as [Hdk1 _].
  rewrite locs_group, <- app_comm_cons in Hnd.
  apply NoDup_cons in Hnd as [Hg_notin _].
  exists (attach g n (length k1) h). split; [| split; [| split]].
  - rewrite (addLayerAtIndex_step fuel h g n _ og (tsize N)
               (ScanEnd (length l1) (tsize N - 1 + Zsum (map tsize k1))) Hog Hcls).
    + rewrite decide_False by (intros Hne; apply Hne; lia).
      by rewrite (Forall2_length _ _ _ Hk1).
    + apply getSize_repr; [exact Hn | lia].
    + rewrite Hlay.
      replace (Zsum (map tsize k1) + (tsize N - 1))
        with (tsize N - 1 + Zsum (map tsize k1)) by lia.
      by rewrite (scan_exact fuel h l1 k1 l2 Hk1 Hdk1 0%nat (tsize N - 1)).
  - apply attach_child_repr; [exact Hg | exact Hn | |].
    + intros Hx. apply Hg_notin. apply elem_of_app. by left.
    + intros Hx. apply Hg_notin. apply elem_of_app. by right.
  - replace (Zsum (map tsize k1)) with (Zsum (map tsize k1) + 0) by lia.
    apply at_pos_app_r. constructor.
  - destruct (attach_lookup_child h g n (length k1) og on Hog Hon)
      as [o' [Ho' [Hgrp _]]].
    rewrite Ho'. simpl. by rewrite Hgrp.
Qed.

Lemma addLayerAtIndex_between_witness :
  exists h',
    addLayerAtIndex 5 snapshot_root snapshot_C
      (Zsum (map tsize [TLeaf snapshot_A]) + (tsize (TLeaf snapshot_C) - 1))
      snapshot_with_C
    = (h', Ret tt) /\
    repr h' snapshot_root
         (TGroup snapshot_root
            ([TLeaf snapshot_A] ++ TLeaf snapshot_C :: [TGroup snapshot_G [TLeaf snapshot_B]])) /\
    at_pos ([TLeaf snapshot_A] ++ TLeaf snapshot_C :: [TGroup snapshot_G [TLeaf snapshot_B]])
           (Zsum (map tsize [TLeaf snapshot_A])) (TLeaf snapshot_C) /\
    (lyr_group <$> h' !! snapshot_C) = Some (Some snapshot_root).
Proof.
  apply (addLayerAtIndex_between 5 snapshot_with_C snapshot_root snapshot_C
           [TLeaf snapshot_A] [TGroup snapshot_G [TLeaf snapshot_B]] (TLeaf snapshot_C)).
  - exact snapshot_with_C_repr.
  - exact snapshot_with_C_leaf.
  - apply (bool_decide_unpack _). vm_compute. reflexivity.
  - simpl. lia.
  - simpl. lia.
Defined.

(** A target index below [getSize n - 1], or beyond the slot after the last
    child: the scan ends at once, or after the last child, with a running
    index that is not the target. *)
Lemma addLayerAtIndex_rejects (fuel : nat) (h : heap) (g n : loc)
    (kids : list tree) (N : tree) (t : Z) :
  repr h g (TGroup g kids) ->
  repr h n N ->
  (depth (TGroup g kids) < S fuel)%nat ->
  (depth N < fuel)%nat ->
  t < tsize N - 1 \/ Zsum (map tsize kids) + (tsize N - 1) < t ->
  (exists i c, addLayerAtIndex_scan fuel h g n t = Ret (ScanEnd i c) /\ c <> t) /\
  addLayerAtIndex (S fuel) g n t h = (h, Throw (invalid_insertion_index t)).
Proof.
  intros Hg Hn Hdg Hdn Hrange.
  inversion Hg as [| ? og ? Hog Hcls Hk]; subst.
  assert (exists i c,
            scan (getSize fuel h) h t (lyr_layers og) 0 (tsize N - 1) (tsize N - 1)
            = Ret (ScanEnd i c) /\ c <> t) as [i [c [Hscan Hc]]].
  { destruct Hrange as [Hlow | Hhigh].
    - exists 0%nat, (tsize N - 1). split; [apply scan_low; lia | lia].
    - exists (0 + length (lyr_layers og))%nat, (tsize N - 1 + Zsum (map tsize kids)).
      split; [| lia].
      apply scan_beyond; [exact Hk | by apply (kids_depth fuel g) | lia]. }
  split.
  - exists i, c. split; [| exact Hc].
    unfold addLayerAtIndex_scan, deref. rewrite Hog. cbn [obind].
    by rewrite (getSize_repr fuel h n N Hn Hdn).
  - rewrite (addLayerAtIndex_step fuel h g n t og (tsize N) (ScanEnd i c) Hog Hcls).
    + by rewrite decide_True.
    + by apply getSize_repr.
    + exact Hscan.
Qed.

(** The message of the insertion assertion for a safe integer. *)
Lemma invalid_insertion_index_safe (t : Z) :
  Z.abs t <= MAX_SAFE_INTEGER ->
  invalid_insertion_index t
  = AssertionError ("Invalid insertion index: " +:+ pretty t).
Proof.
  intros Hsafe. unfold invalid_insertion_index.
  by destruct (Z.leb_spec (Z.abs t) MAX_SAFE_INTEGER); [| lia].
Qed.

(** X2. A target index (a safe integer) below [getSize n - 1], or beyond
    the slot after the last child, is rejected with the insertion assertion,
    whose message prints the target, and the store is left as it was. *)
Theorem addLayerAtIndex_out_of_range (fuel : nat) (h : heap) (g n : loc)
    (kids : list tree) (N : tree) (gs ns t : Z) :
  repr h g (TGroup g kids) ->
  repr h n N ->
  (depth (TGroup g kids) < fuel)%nat ->
  (S (depth N) < fuel)%nat ->
  getSize fuel h g = Ret gs ->
  getSize fuel h n = Ret ns ->
  Z.abs t <= MAX_SAFE_INTEGER ->
  t < ns - 1 \/ gs - 2 + (ns - 1) < t ->
  addLayerAtIndex fuel g n t h
  = (h, Throw (AssertionError ("Invalid insertion index: " +:+ pretty t))).
Proof.
  intros Hg Hn Hdg Hdn Hgs Hns Hsafe Hrange.
  rewrite (getSize_repr fuel h g _ Hg Hdg) in Hgs. injection Hgs as <-.
  rewrite (getSize_repr fuel h n N Hn) in Hns by lia. injection Hns as <-.
  destruct fuel as [| fuel]; [lia |].
  rewrite <- (invalid_insertion_index_safe t Hsafe).
  apply (addLayerAtIndex_rejects fuel h g n kids N t Hg Hn); [lia | lia |].
  simpl in Hrange. lia.
Qed.

Lemma addLayerAtIndex_out_of_range_witness :
  addLayerAtIndex 5 snapshot_root snapshot_C (-1) snapshot_with_C
  = (snapshot_with_C,
     Throw (AssertionError ("Invalid insertion index: " +:+ pretty (-1)))).
Proof.
  apply (addLayerAtIndex_out_of_range 5 snapshot_with_C snapshot_root snapshot_C
           snapshot_kids (TLeaf snapshot_C) 6 1 (-1)).
  - exact snapshot_with_C_repr.
  - exact snapshot_with_C_leaf.
  - simpl. lia.
  - simpl. lia.
  - vm_compute. reflexivity.
  - vm_compute. reflexivity.
  - unfold MAX_SAFE_INTEGER. lia.
  - left. lia.
Defined.

(** ** Sizes and lookups after an insertion *)

Lemma max_list_app (a b : list nat) :
  max_list (a ++ b) = (max_list a `max` max_list b)%nat.
Proof. induction a as [| x a IH]; simpl; lia. Qed.

Lemma inserted_tsize (N : tree) (r : loc) (t t' : tree) :
  inserted N r t t' -> tsize t' = tsize t + tsize N.
Proof.
  induction 1 as [g k1 k2 | r g k1 c c' k2 _ IH]; simpl;
    rewrite !map_app, !Zsum_app; simpl; lia.
Qed.

Lemma inserted_depth (N : tree) (r : loc) (t t' : tree) :
  inserted N r t t' -> (depth t' <= depth t + depth N)%nat.
Proof.
  induction 1 as [g k1 k2 | r g k1 c c' k2 _ IH]; simpl;
    rewrite !map_app, !max_list_app; simpl; lia.
Qed.

(** A successful insertion is the one [addLayerAtIndex_spec] describes. *)
Lemma addLayerAtIndex_success (fuel : nat) (h h' : heap) (g n : loc)
    (kids : list tree) (N : tree) (t : Z) :
  repr h g (TGroup g kids) ->
  repr h n N ->
  NoDup (locs (TGroup g kids) ++ locs N) ->
  (depth (TGroup g kids) + depth N < fuel)%nat ->
  addLayerAtIndex fuel g n t h = (h', Ret tt) ->
  exists r i kids',
    h' = attach r n i h /\
    inserted N r (TGroup g kids) (TGroup g kids') /\
    repr h' g (TGroup g kids') /\
    ((tsize N = 1 \/ r = g) -> at_pos kids' (t - (tsize N - 1)) N).
Proof.
  intros Hg Hn Hnd Hd Hrun.
  destruct (addLayerAtIndex_spec fuel h g kids n N t Hg Hn Hnd Hd)
    as [[t' Hfail] | [r [i [kids' [Hok [Hins [Hrep Hpos]]]]]]].
  - rewrite Hfail in Hrun. discriminate.
  - rewrite Hok in Hrun. injection Hrun as <-. by exists r, i, kids'.
Qed.

(** X3. A successful [addLayerAtIndex] makes the composite's [getSize] grow
    by exactly the [getSize] of the node it received, wherever below [g] the
    node went. *)
Theorem addLayerAtIndex_grows_by_size (fuel : nat) (h h' : heap) (g n : loc)
    (kids : list tree) (N : tree) (t gs ns : Z) :
  repr h g (TGroup g kids) ->
  repr h n N ->
  NoDup (locs (TGroup g kids) ++ locs N) ->
  (depth (TGroup g kids) + depth N < fuel)%nat ->
  getSize fuel h g = Ret gs ->
  getSize fuel h n = Ret ns ->
  addLayerAtIndex fuel g n t h = (h', Ret tt) ->
  getSize fuel h' g = Ret (gs + ns).
Proof.
  intros Hg Hn Hnd Hd Hgs Hns Hrun.
  assert (1 <= depth (TGroup g kids))%nat by (simpl; lia).
  rewrite (getSize_repr fuel h g _ Hg) in Hgs by lia. injection Hgs as <-.
  rewrite (getSize_repr fuel h n N Hn) in Hns by lia. injection Hns as <-.
  destruct (addLayerAtIndex_success fuel h h' g n kids N t Hg Hn Hnd Hd Hrun)
    as [r [i [kids' [_ [Hins [Hrep _]]]]]].
  rewrite (getSize_repr fuel h' g _ Hrep).
  - by rewrite (inserted_tsize N r _ _ Hins).
  - pose proof (inserted_depth N r _ _ Hins). lia.
Qed.

Lemma addLayerAtIndex_grows_by_size_witness :
  getSize 5 (fst (addLayerAtIndex 5 snapshot_root snapshot_C 2 snapshot_with_C))
          snapshot_root
  = Ret (6 + 1).
Proof.
  apply (addLayerAtIndex_grows_by_size 5 snapshot_with_C _ snapshot_root snapshot_C
           snapshot_kids (TLeaf snapshot_C) 2 6 1).
  - exact snapshot_with_C_repr.
  - exact snapshot_with_C_leaf.
  - apply (bool_decide_unpack _). vm_compute. reflexivity.
  - simpl. lia.
  - vm_compute. reflexivity.
  - vm_compute. reflexivity.
  - vm_compute. reflexivity.
Defined.

(** *** What [findLayer] returns *)

Lemma first_match_sound (h : heap) (id : string) (sl : list (option loc))
    (i0 : Z) (n : loc) (i : Z) :
  first_match h id sl i0 = Some (n, i) ->
  exists k : nat,
    i = i0 + Z.of_nat k /\ sl !! k = Some (Some n) /\ has_id h n id = true.
Proof.
  revert i0. induction sl as [| [l |] sl IH]; intros i0 Hm; [done | |]; simpl in Hm.
  - destruct (has_id h l id) eqn:Hid.
    + injection Hm as -> ->. exists 0%nat. split; [lia | done].
    + destruct (IH _ Hm) as [k [-> [Hk Hn]]]. exists (S k). split; [lia | done].
  - destruct (IH _ Hm) as [k [-> [Hk Hn]]]. exists (S k). split; [lia | done].
Qed.

Lemma first_match_present (h : heap) (id : string) (sl : list (option loc)) (i : Z) :
  id ∈ node_ids h sl -> is_Some (first_match h id sl i).
Proof.
  revert i. induction sl as [| [l |] sl IH]; intros i Hin; simpl in *.
  - by apply elem_of_nil in Hin.
  - unfold has_id. destruct (h !! l) as [o |]; [| by apply IH].
    apply elem_of_cons in Hin as [-> | Hin].
    + rewrite bool_decide_eq_true_2 by done. eauto.
    + destruct (bool_decide (lyr_id o = id)); [eauto | by apply IH].
  - by apply IH.
Qed.

Lemma slots_locs (t : tree) (l : loc) : Some l ∈ slots t -> l ∈ locs t.
Proof.
  induction t as [x | x kids IH] using tree_ind'; simpl; intros Hin.
  - apply list_elem_of_singleton in Hin. injection Hin as ->.
    by apply list_elem_of_singleton.
  - apply elem_of_cons in Hin as [? | Hin]; [done |].
    apply elem_of_app in Hin as [Hin | Hin].
    + apply elem_of_cons. right.
      apply elem_of_concat in Hin as [ls [Hl Hls]].
      apply list_elem_of_fmap in Hls as [k [-> Hk]].
      eapply klocs_elem; [exact Hk |].
      by apply (proj1 (Forall_forall _ _) IH k Hk).
    + apply list_elem_of_singleton in Hin. injection Hin as ->.
      apply elem_of_cons. by left.
Qed.

Lemma flat_locs (kids : list tree) (l : loc) : Some l ∈ flat kids -> l ∈ klocs kids.
Proof.
  intros Hin. apply elem_of_concat in Hin as [ls [Hl Hls]].
  apply list_elem_of_fmap in Hls as [k [-> Hk]].
  eapply klocs_elem; [exact Hk | by apply slots_locs].
Qed.

(** X4. Whatever the ids are, a result of [findLayer] is a node below the
    composite that carries the requested id, with an index inside the
    composite's span; and [findLayer] returns nothing exactly when no node
    below the composite carries the id. *)
Theorem findLayer_sound (fuel : nat) (h : heap) (g : loc) (kids : list tree)
    (id : string) (gs : Z) :
  repr h g (TGroup g kids) ->
  (depth (TGroup g kids) < fuel)%nat ->
  getSize fuel h g = Ret gs ->
  (forall n i,
      findLayer fuel h g id = Ret (Some (n, i)) ->
      n ∈ klocs kids /\ (lyr_id <$> h !! n) = Some id /\ 0 <= i < gs - 2) /\
  (findLayer fuel h g id = Ret None <-> id ∉ node_ids h (flat kids)).
Proof.
  intros Hg Hd Hgs.
  rewrite (getSize_repr fuel h g _ Hg Hd) in Hgs. injection Hgs as <-.
  rewrite (findLayer_flat fuel h id g kids Hg Hd). split.
  - intros n i Hres. injection Hres as Hres.
    destruct (first_match_sound h id _ 0 n i Hres) as [k [-> [Hk Hid]]].
    split; [| split].
    + apply flat_locs. by eapply list_elem_of_lookup_2.
    + unfold has_id in Hid. destruct (h !! n) as [o |]; [| done].
      apply bool_decide_eq_true_1 in Hid. simpl. by rewrite Hid.
    + apply lookup_lt_Some in Hk. pose proof (flat_length kids). simpl. lia.
  - split.
    + intros Hnone Hin. injection Hnone as Hnone.
      destruct (first_match_present h id (flat kids) 0 Hin) as [x Hx]. congruence.
    + intros Hnot. by rewrite first_match_absent.
Qed.

Lemma findLayer_sound_witness :
  (forall n i,
      findLayer 5 snapshot_heap snapshot_root "B" = Ret (Some (n, i)) ->
      n ∈ klocs snapshot_kids /\ (lyr_id <$> snapshot_heap !! n) = Some "B" /\
      0 <= i < 6 - 2) /\
  (findLayer 5 snapshot_heap snapshot_root "B" = Ret None
   <-> "B" ∉ node_ids snapshot_heap (flat snapshot_kids)).
Proof.
  apply (findLayer_sound 5 snapshot_heap snapshot_root snapshot_kids "B" 6).
  - exact snapshot_repr.
  - simpl. lia.
  - vm_compute. reflexivity.
Defined.

(** *** Inserting, then looking up *)

Lemma inserted_flat (N : tree) (r : loc) (t t' : tree) :
  inserted N r t t' ->
  exists g kids kids' a b,
    t = TGroup g kids /\ t' = TGroup g kids' /\
    flat kids = a ++ b /\ flat kids' = a ++ slots N ++ b.
Proof.
  induction 1 as [g k1 k2 | r g k1 c c' k2 _ IH].
  - exists g, (k1 ++ k2), (k1 ++ N :: k2), (flat k1), (flat k2).
    repeat split; [by rewrite flat_app | by rewrite flat_app, flat_cons].
  - destruct IH as [gc [kc [kc' [a [b [-> [-> [Hab Hab']]]]]]]].
    exists g, (k1 ++ TGroup gc kc :: k2), (k1 ++ TGroup gc kc' :: k2),
      (flat k1 ++ None :: a), (b ++ [Some gc] ++ flat k2).
    repeat split.
    + rewrite flat_app, flat_cons. simpl. fold (flat kc). rewrite Hab.
      by rewrite <- !app_assoc.
    + rewrite flat_app, flat_cons. simpl. fold (flat kc'). rewrite Hab'.
      by rewrite <- !app_assoc.
Qed.

Lemma node_ids_app (h : heap) (a b : list (option loc)) :
  node_ids h (a ++ b) = node_ids h a ++ node_ids h b.
Proof.
  induction a as [| [l |] a IH]; simpl; [done | | done].
  destruct (h !! l); simpl; by rewrite IH.
Qed.

Lemma node_ids_ext (h h' : heap) (sl : list (option loc)) :
  (forall l, (lyr_id <$> h' !! l) = (lyr_id <$> h !! l)) ->
  node_ids h' sl = node_ids h sl.
Proof.
  intros Hid. induction sl as [| [l |] sl IH]; simpl; [done | | done].
  specialize (Hid l).
  destruct (h' !! l) as [o' |], (h !! l) as [o |]; simpl in Hid;
    try discriminate; [| done].
  injection Hid as ->. by rewrite IH.
Qed.

Lemma attach_id (h : heap) (r n : loc) (i : nat) (or on : layer) (l : loc) :
  h !! r = Some or -> h !! n = Some on ->
  (lyr_id <$> attach r n i h !! l) = (lyr_id <$> h !! l).
Proof.
  intros Hr Hn.
  destruct (decide (l = r)) as [-> | Hlr].
  - destruct (attach_lookup_this h r n i or on Hr Hn) as [o' [Ho' [_ [_ Hid]]]].
    rewrite Ho', Hr. simpl. by rewrite Hid.
  - destruct (decide (l = n)) as [-> | Hln].
    + destruct (attach_lookup_child h r n i or on Hr Hn) as [o' [Ho' [_ [_ [Hid _]]]]].
      rewrite Ho', Hn. simpl. by rewrite Hid.
    + by rewrite attach_lookup_other.
Qed.

(** X5. Insert, then look up: after a leaf with a new id is added to a
    composite whose nodes carry distinct ids, [findLayer] with that id
    returns the leaf at the very target index it was added with, also when
    the leaf went into a nested group. *)
Theorem addLayerAtIndex_then_findLayer (fuel : nat) (h h' : heap) (g n : loc)
    (kids : list tree) (on : layer) (t : Z) :
  repr h g (TGroup g kids) ->
  NoDup (locs (TGroup g kids)) ->
  (depth (TGroup g kids) < fuel)%nat ->
  h !! n = Some on ->
  instanceof_LayerGroup on = false ->
  n ∉ locs (TGroup g kids) ->
  NoDup (node_ids h (flat kids)) ->
  lyr_id on ∉ node_ids h (flat kids) ->
  addLayerAtIndex fuel g n t h = (h', Ret tt) ->
  findLayer fuel h' g (lyr_id on) = Ret (Some (n, t)).
Proof.
  intros Hg Hndl Hd Hon Hleaf Hnot Hnd Hfresh Hrun.
  assert (repr h n (TLeaf n)) as Hn by (by econstructor).
  destruct (addLayerAtIndex_success fuel h h' g n kids (TLeaf n) t Hg Hn)
    as [r [i [kids' [-> [Hins [Hrep Hpos]]]]]];
    [| change (depth (TLeaf n)) with 0%nat; lia | exact Hrun |].
  { apply NoDup_app. split; [exact Hndl |]. split; [| apply NoDup_singleton].
    intros x Hx ->%list_elem_of_singleton. by apply Hnot. }
  specialize (Hpos (or_introl eq_refl)). simpl in Hpos.
  replace (t - (1 - 1)) with t in Hpos by lia.
  destruct (repr_locs_valid h _ g r Hg (inserted_receiver _ r _ _ Hins)) as [or Hor].
  rewrite (findLayer_flat fuel _ (lyr_id on) g kids' Hrep).
  2:{ pose proof (inserted_depth _ r _ _ Hins) as Hdep.
      change (depth (TLeaf n)) with 0%nat in Hdep. lia. }
  destruct (at_pos_flat kids' t (TLeaf n) Hpos) as [k [Hk Hlook]].
  rewrite (first_match_unique _ (lyr_id on) (flat kids') k n 0).
  - do 3 f_equal. simpl in Hk. lia.
  - rewrite (node_ids_ext h) by (intros l; by eapply attach_id).
    destruct (inserted_flat _ r _ _ Hins) as [g' [ks [ks' [a [b [E [E' [Hab Hab']]]]]]]].
    injection E as <- <-. injection E' as <-.
    rewrite Hab', !node_ids_app. simpl. rewrite Hon.
    rewrite Hab, node_ids_app in Hnd, Hfresh.
    apply NoDup_app in Hnd as [Hna [Hdisj Hnb]].
    apply not_elem_of_app in Hfresh as [Hfa Hfb].
    apply NoDup_app. split; [exact Hna |]. split.
    + intros x Hxa [-> | Hxb]%elem_of_cons; [done | by apply (Hdisj x)].
    + by apply NoDup_cons.
  - exact Hlook.
  - unfold has_id.
    destruct (attach_lookup_child h r n i or on Hor Hon) as [o' [Ho' [_ [_ [Hid _]]]]].
    rewrite Ho'. by apply bool_decide_eq_true_2.
Qed.

Lemma addLayerAtIndex_then_findLayer_witness :
  findLayer 5 (fst (addLayerAtIndex 5 snapshot_root snapshot_C 2 snapshot_with_C))
            snapshot_root "C"
  = Ret (Some (snapshot_C, 2)).
Proof.
  apply (addLayerAtIndex_then_findLayer 5 snapshot_with_C _ snapshot_root snapshot_C
           snapshot_kids (BaseLayer_new Layer None (raw_layer "C" 4 "layer")) 2).
  - exact snapshot_with_C_repr.
  - apply (bool_decide_unpack _). vm_compute. reflexivity.
  - simpl. lia.
  - vm_compute. reflexivity.
  - reflexivity.
  - apply (bool_decide_unpack _). vm_compute. reflexivity.
  - apply (bool_decide_unpack _). vm_compute. reflexivity.
  - apply (bool_decide_unpack _). vm_compute. reflexivity.
  - vm_compute. reflexivity.
Defined.

(** ** Detaching a child and putting it back *)

Lemma detach_child (h : heap) (n p : loc) (o po : layer) (l1 l2 : list loc) :
  h !! n = Some o ->
  lyr_group o = Some p ->
  h !! p = Some po ->
  instanceof_LayerGroup po = true ->
  lyr_layers po = l1 ++ n :: l2 ->
  Forall (fun c => is_Some (h !! c)) (lyr_layers po) ->
  NoDup (ids h (lyr_layers po)) ->
  detach n h = (<[p := set_layers po (l1 ++ l2)]> h, Ret tt).
Proof.
  intros Hn Hgrp Hp Hcls Hlay Hval Hnd. rewrite Hlay in Hval, Hnd.
  pose proof (ids_others h l1 l2 n o Hn Hval Hnd) as Hothers.
  apply Forall_app in Hothers as [Ho1 _].
  unfold detach. unfold bind at 1, read at 1, deref. rewrite Hn, Hgrp.
  unfold bind at 1, read at 1. rewrite Hp, Hcls. cbn [negb].
  unfold bind at 1, read at 1. rewrite Hlay.
  rewrite (some_index_found h (lyr_id o) l1 l2 n o 0 Ho1 Hn eq_refl).
  unfold modify. rewrite Nat.add_0_l. by rewrite splice_out_app.
Qed.

Lemma set_group_same (o : layer) (g : option loc) :
  lyr_group o = g -> set_group o g = o.
Proof. destruct o. simpl. by intros ->. Qed.

Lemma set_layers_back (o : layer) (l l' : list loc) :
  lyr_layers o = l -> set_layers (set_layers o l') l = o.
Proof. destruct o. simpl. by intros ->. Qed.

Lemma repr_valid_children (h : heap) (layers : list loc) (kids : list tree) :
  Forall2 (repr h) layers kids -> Forall (fun c => is_Some (h !! c)) layers.
Proof.
  induction 1 as [| c k layers kids Hck _ IH]; constructor; [| exact IH].
  destruct (repr_lookup h c k Hck). eauto.
Qed.

(** X6. Detach, then put back: for a child [n] of [g], with distinct ids
    among [g]'s children, [detach] succeeds and lowers [g]'s [getSize] by
    [n]'s; adding [n] again at "sizes of the children in front of it plus
    [getSize n - 1]" (the position of its last slot) restores the store
    exactly as it was. *)
Theorem detach_then_addLayerAtIndex (fuel : nat) (h : heap) (g : loc)
    (k1 k2 : list tree) (N : tree) (og on : layer) (gs ns : Z) :
  repr h g (TGroup g (k1 ++ N :: k2)) ->
  NoDup (locs (TGroup g (k1 ++ N :: k2))) ->
  (depth (TGroup g (k1 ++ N :: k2)) < fuel)%nat ->
  h !! g = Some og ->
  NoDup (ids h (lyr_layers og)) ->
  h !! root N = Some on ->
  lyr_group on = Some g ->
  getSize fuel h g = Ret gs ->
  getSize fuel h (root N) = Ret ns ->
  exists h1,
    detach (root N) h = (h1, Ret tt) /\
    getSize fuel h1 g = Ret (gs - ns) /\
    addLayerAtIndex fuel g (root N) (Zsum (map tsize k1) + (ns - 1)) h1
    = (h, Ret tt).
Proof.
  intros Hg Hnd Hd Hog Hids Hon Hgrp Hgs Hns.
  inversion Hg as [| ? og' ? Hog' Hcls Hk]; subst.
  assert (og' = og) as -> by congruence. clear Hog'.
  pose proof Hk as Hk'.
  apply Forall2_app_inv_r in Hk' as [l1 [l2' [Hk1 [Hk2 Hlay]]]].
  apply Forall2_cons_inv_r in Hk2 as [n [l2 [HN [Hk2 ->]]]].
  pose proof (repr_root h n N HN) as Hroot. rewrite Hroot in *.
  assert (N ∈ k1 ++ N :: k2) as HNin.
  { apply elem_of_app. right. apply elem_of_cons. by left. }
  pose proof (depth_kid g _ N HNin) as HdN.
  rewrite (getSize_repr fuel h g _ Hg Hd) in Hgs. injection Hgs as <-.
  rewrite (getSize_repr fuel h n N HN) in Hns by lia. injection Hns as <-.
  rewrite locs_group in Hnd. apply NoDup_cons in Hnd as [Hg_notin _].
  assert (forall k, k ∈ k1 ++ N :: k2 -> g ∉ locs k) as Hgk.
  { intros k Hin Hx. apply Hg_notin. by eapply klocs_elem. }
  assert (g <> n) as Hgn.
  { intros ->. apply (Hgk N HNin). rewrite <- Hroot. apply root_in_locs. }
  set (og1 := set_layers og (l1 ++ l2)).
  set (h1 := <[g := og1]> h).
  assert (g < length h)%nat as Hlg by (by eapply lookup_lt_Some).
  assert (h1 !! g = Some og1) as Hog1 by (by apply list_lookup_insert_eq).
  assert (forall l k, repr h l k -> g ∉ locs k -> repr h1 l k) as Hkeep.
  { intros l k Hr Hnot. apply (repr_ext h); [exact Hr |].
    intros x Hx. unfold shape, h1. rewrite list_lookup_insert_ne; [done |].
    intros ->. by apply Hnot. }
  assert (repr h1 g (TGroup g (k1 ++ k2))) as Hg1.
  { econstructor; [exact Hog1 | exact Hcls |]. simpl.
    apply Forall2_app.
    - eapply Forall2_impl_elem; [exact Hk1 |]. intros l k Hr Hin.
      apply Hkeep; [exact Hr |]. apply Hgk. apply elem_of_app. by left.
    - eapply Forall2_impl_elem; [exact Hk2 |]. intros l k Hr Hin.
      apply Hkeep; [exact Hr |]. apply Hgk. apply elem_of_app. right.
      apply elem_of_cons. by right. }
  assert (repr h1 n N) as HN1 by (apply Hkeep; [exact HN | by apply Hgk]).
  assert (depth (TGroup g (k1 ++ k2)) <= depth (TGroup g (k1 ++ N :: k2)))%nat as Hd1.
  { simpl. rewrite !map_app, !max_list_app. simpl. lia. }
  exists h1. split; [| split].
  - eapply detach_child; eauto. by eapply repr_valid_children.
  - rewrite (getSize_repr fuel h1 g _ Hg1) by lia. f_equal. simpl.
    rewrite !map_app, !Zsum_app. simpl. lia.
  - destruct fuel as [| fuel]; [lia |].
    pose proof (kids_depth fuel g _ Hd) as Hdk. apply Forall_app in Hdk as [Hdk1 _].
    rewrite (addLayerAtIndex_step fuel h1 g n _ og1 (tsize N)
               (ScanEnd (length l1) (tsize N - 1 + Zsum (map tsize k1))) Hog1 Hcls).
    + rewrite decide_False by (intros Hne; apply Hne; lia). f_equal.
      unfold attach.
      assert (h1 !! n = Some on) as Hon1.
      { unfold h1. by rewrite list_lookup_insert_ne. }
      rewrite Hon1, (set_group_same on (Some g) Hgrp), (list_insert_id h1 n on Hon1).
      rewrite Hog1. simpl lyr_layers. rewrite splice_in_app.
      unfold og1. rewrite (set_layers_back og _ _ Hlay).
      unfold h1. rewrite list_insert_insert_eq. by apply list_insert_id.
    + apply getSize_repr; [exact HN1 | lia].
    + simpl lyr_layers.
      replace (Zsum (map tsize k1) + (tsize N - 1))
        with (tsize N - 1 + Zsum (map tsize k1)) by lia.
      apply (scan_exact fuel h1 l1 k1 l2); [| exact Hdk1].
      eapply Forall2_impl_elem; [exact Hk1 |]. intros l k Hr Hin.
      apply Hkeep; [exact Hr |]. apply Hgk. apply elem_of_app. by left.
Qed.

Lemma detach_then_addLayerAtIndex_witness :
  exists h1,
    detach (root (TLeaf snapshot_A)) snapshot_heap = (h1, Ret tt) /\
    getSize 5 h1 snapshot_root = Ret (6 - 1) /\
    addLayerAtIndex 5 snapshot_root (root (TLeaf snapshot_A))
      (Zsum (map tsize []) + (1 - 1)) h1
    = (snapshot_heap, Ret tt).
Proof.
  apply (detach_then_addLayerAtIndex 5 snapshot_heap snapshot_root
           [] [TGroup snapshot_G [TLeaf snapshot_B]] (TLeaf snapshot_A)
           (mkLayer LayerGroup None "root" None None None [snapshot_A; snapshot_G])
           (mkLayer Layer (Some snapshot_root) "A" (Some 0) (Some "layer") None [])
           6 1).
  - exact snapshot_repr.
  - apply (bool_decide_unpack _). vm_compute. reflexivity.
  - simpl. lia.
  - vm_compute. reflexivity.
  - apply (bool_decide_unpack _). vm_compute. reflexivity.
  - vm_compute. reflexivity.
  - reflexivity.
  - vm_compute. reflexivity.
  - vm_compute. reflexivity.
Defined.

(** ** Renaming *)

Lemma getSize_shape_ext (h h' : heap) :
  (forall l, shape h' l = shape h l) ->
  forall fuel l, getSize fuel h' l = getSize fuel h l.
Proof.
  intros Hs. induction fuel as [| fuel IH]; intros l; [reflexivity |].
  simpl. specialize (Hs l). unfold shape, deref in *.
  destruct (h' !! l) as [o' |], (h !! l) as [o |]; simpl in *; try discriminate;
    [| reflexivity].
  injection Hs as -> ->. destruct (instanceof_LayerGroup o); [| reflexivity].
  generalize (@Ret Z 2). induction (lyr_layers o) as [| c cs IHc]; intros acc;
    [reflexivity |].
  simpl. rewrite IH. apply IHc.
Qed.

(** X7. [setName] changes the name of this layer and nothing else: the other
    objects, every [getSize], and this layer's other fields stay as they
    were; and once a name is set, setting it again changes nothing and
    returns nothing. *)
Theorem setName_frame_and_repeat (h : heap) (this : loc) (o : layer)
    (name : option string) :
  h !! this = Some o ->
  exists h1 res,
    setName this name h = (h1, Ret res) /\
    h1 !! this = Some (set_name o name) /\
    (forall l, l <> this -> h1 !! l = h !! l) /\
    (forall fuel l, getSize fuel h1 l = getSize fuel h l) /\
    setName this name h1 = (h1, Ret None).
Proof.
  intros Ho.
  assert (this < length h)%nat as Hlt by (by eapply lookup_lt_Some).
  destruct (decide (lyr_name o = name)) as [He | Hne].
  - exists h, None. subst name. rewrite (setName_same h this o Ho).
    split; [reflexivity |]. split; [| by repeat split; try apply setName_same].
    rewrite Ho. f_equal. by destruct o.
  - exists (<[this := set_name o name]> h), (Some (mkRename "rename" name name)).
    rewrite (setName_other h this o name Ho Hne).
    assert (<[this := set_name o name]> h !! this = Some (set_name o name)) as Ho1
      by (by apply list_lookup_insert_eq).
    split; [reflexivity |]. split; [exact Ho1 |]. split; [| split].
    + intros l Hl. by rewrite list_lookup_insert_ne.
    + apply getSize_shape_ext. intros l. unfold shape.
      destruct (decide (l = this)) as [-> | Hl].
      * by rewrite Ho1, Ho.
      * by rewrite list_lookup_insert_ne.
    + exact (setName_same _ this (set_name o name) Ho1).
Qed.

Lemma setName_frame_and_repeat_witness :
  exists h1 res,
    setName named_A (Some "A2") named_heap = (h1, Ret res) /\
    h1 !! named_A
    = Some (set_name (mkLayer Layer None "A" (Some 0) (Some "layer") (Some "A") [])
                     (Some "A2")) /\
    (forall l, l <> named_A -> h1 !! l = named_heap !! l) /\
    (forall fuel l, getSize fuel h1 l = getSize fuel named_heap l) /\
    setName named_A (Some "A2") h1 = (h1, Ret None).
Proof.
  apply (setName_frame_and_repeat named_heap named_A
           (mkLayer Layer None "A" (Some 0) (Some "layer") (Some "A") []) (Some "A2")).
  reflexivity.
Defined.

(** ** The factory on descriptors it cannot build *)

(** X8. [createLayer] fails with "Unknown layer type:", and allocates
    nothing, on a descriptor whose type is none of the seven known ones,
    and on a descriptor without a type that is given a parent. *)
Theorem createLayer_unknown_type (fuel : nat) (parent : option loc) (r : raw) (h : heap) :
  match raw_type r with
  | Some type => type <> "layerSection" /\ leaf_class_of_type type = None
  | None => is_Some parent
  end ->
  createLayer (S fuel) parent r h = (h, Throw (Error "Unknown layer type:")).
Proof.
  intros Hty. simpl. destruct (raw_type r) as [type |].
  - destruct Hty as [Hsec Hleaf]. rewrite decide_False by done. rewrite Hleaf.
    by destruct parent.
  - destruct Hty as [p ->]. reflexivity.
Qed.

Lemma createLayer_unknown_type_witness :
  createLayer 1 (Some snapshot_root) raw_unknown snapshot_heap
  = (snapshot_heap, Throw (Error "Unknown layer type:")) /\
  createLayer 1 (Some snapshot_root) (added_C_untyped 4) snapshot_heap
  = (snapshot_heap, Throw (Error "Unknown layer type:")).
Proof.
  split.
  - apply (createLayer_unknown_type 0 (Some snapshot_root) raw_unknown snapshot_heap).
    simpl. split; [discriminate | reflexivity].
  - apply (createLayer_unknown_type 0 (Some snapshot_root) (added_C_untyped 4)
             snapshot_heap).
    simpl. eauto.
Defined.

(** ** Records the group applicator ignores *)

Lemma materialize_ignored
    (apply_in : loc -> list raw -> option Z -> M state unit)
    (fuel : nat) (this : loc) (rs : list raw) (finalSize : Z) (s : state) :
  Forall ignored_record rs ->
  materialize apply_in fuel this rs finalSize s = (s, Ret finalSize).
Proof.
  induction 1 as [| r rs Hr _ IH]; simpl; [reflexivity |].
  unfold bind at 1.
  assert (materialize_one apply_in fuel this r finalSize s = (s, Ret finalSize)) as ->;
    [| exact IH].
  unfold materialize_one. destruct (raw_index r) as [index |] eqn:Hidx; [| reflexivity].
  destruct Hr as [? | [Hrem [Hadd Hlay]]]; [congruence |].
  unfold bind at 1. unfold materialize_lookup. rewrite Hadd, Hrem.
  destruct (snd s !! raw_id r) as [e |]; [| reflexivity].
  by rewrite Hlay.
Qed.

Lemma place_ignored (fuel : nat) (this : loc) (offset : Z) (rs : list raw) (s : state) :
  Forall ignored_record rs ->
  place fuel this offset rs s = (s, Ret tt).
Proof.
  induction 1 as [| r rs Hr _ IH]; simpl; [reflexivity |].
  unfold bind at 1.
  assert (place_one fuel this offset r s = (s, Ret tt)) as ->; [| exact IH].
  unfold place_one. destruct (raw_index r) as [index |] eqn:Hidx; [| reflexivity].
  destruct Hr as [? | [Hrem _]]; [congruence |]. by rewrite Hrem.
Qed.

(** X9. The group applicator acts only on records that carry an index and
    place a layer: a batch made of records without an index (a record with
    just an id and a new name, say) and of removal records leaves the
    store and [changedLayers] as they were.  It neither renames a layer nor
    takes a removed layer out of its group. *)
Theorem applyChange_ignored_records (fuel : nat) (this : loc) (rs : list raw)
    (parentIndex : option Z) (h : heap) (cl : gmap string layerRec) (sz : Z) :
  Forall ignored_record rs ->
  getSize fuel h this = Ret sz ->
  LayerGroup_applyChange (S fuel) this rs parentIndex (h, cl) = ((h, cl), Ret tt).
Proof.
  intros Hrs Hsz.
  assert (Forall ignored_record (sort_by_index rs)) as Hsorted.
  { apply Forall_forall. intros r Hin. apply (proj1 (sort_by_index_elem _ _)) in Hin.
    by apply (proj1 (Forall_forall _ _) Hrs). }
  cbn [LayerGroup_applyChange]. unfold bind at 1, read at 1. simpl fst. rewrite Hsz.
  unfold bind at 1. rewrite materialize_ignored by exact Hsorted.
  by apply place_ignored.
Qed.

Lemma applyChange_ignored_records_witness :
  LayerGroup_applyChange 5 snapshot_root [rename_record "A" "A2"; removed_A] None
                         (snapshot_heap, {[ "A" := mkLayerRec (Some snapshot_A) None ]})
  = ((snapshot_heap, {[ "A" := mkLayerRec (Some snapshot_A) None ]}), Ret tt).
Proof.
  apply (applyChange_ignored_records 4 snapshot_root
           [rename_record "A" "A2"; removed_A] None snapshot_heap _ 6).
  - constructor; [by left |]. constructor; [| constructor]. right. by repeat split.
  - vm_compute. reflexivity.
Defined.

(** ** What building and applying changes never touch *)

Lemma same_identity_refl (o : layer) : same_identity o o.
Proof. by repeat split. Qed.

Lemma heap_extends_refl (h : heap) : heap_extends h h.
Proof. intros l o Ho. exists o. split; [exact Ho | apply same_identity_refl]. Qed.

Lemma heap_extends_trans (h1 h2 h3 : heap) :
  heap_extends h1 h2 -> heap_extends h2 h3 -> heap_extends h1 h3.
Proof.
  intros H12 H23 l o Ho.
  destruct (H12 l o Ho) as [o2 [Ho2 [? [? [? [? ?]]]]]].
  destruct (H23 l o2 Ho2) as [o3 [Ho3 [? [? [? [? ?]]]]]].
  exists o3. split; [exact Ho3 |]. repeat split; congruence.
Qed.

Lemma heap_extends_insert (h : heap) (l0 : loc) (o0 o0' : layer) :
  h !! l0 = Some o0 -> same_identity o0 o0' -> heap_extends h (<[l0 := o0']> h).
Proof.
  intros Ho0 Hid l o Ho. destruct (decide (l = l0)) as [-> | Hne].
  - exists o0'. split.
    + apply list_lookup_insert_eq. by eapply lookup_lt_Some.
    + by assert (o = o0) as -> by congruence.
  - exists o. split; [by rewrite list_lookup_insert_ne | apply same_identity_refl].
Qed.

Lemma heap_extends_attach (this n : loc) (i : nat) (h : heap) :
  heap_extends h (attach this n i h).
Proof.
  unfold attach.
  assert (heap_extends h
            match h !! n with
            | Some c => <[n := set_group c (Some this)]> h
            | None => h
            end) as H1.
  { destruct (h !! n) as [c |] eqn:Hn; [| apply heap_extends_refl].
    eapply heap_extends_insert; [exact Hn | by repeat split]. }
  eapply heap_extends_trans; [exact H1 |].
  destruct (_ !! this) as [o |] eqn:Ho; [| apply heap_extends_refl].
  eapply heap_extends_insert; [exact Ho | by repeat split].
Qed.

Lemma extends_heap_ret {A : Type} (a : A) : extends_heap (ret a).
Proof. intros h h' out H. injection H as <- _. apply heap_extends_refl. Qed.

Lemma extends_heap_throw {A : Type} (e : exn) : extends_heap (@throw _ A e).
Proof. intros h h' out H. injection H as <- _. apply heap_extends_refl. Qed.

Lemma extends_heap_read {A : Type} (f : heap -> outcome A) : extends_heap (read f).
Proof. intros h h' out H. injection H as <- _. apply heap_extends_refl. Qed.

Lemma extends_heap_bind {A B : Type} (m : M heap A) (k : A -> M heap B) :
  extends_heap m -> (forall a, extends_heap (k a)) -> extends_heap (bind m k).
Proof.
  intros Hm Hk h h' out H. unfold bind in H.
  destruct (m h) as [h1 [a | e |]] eqn:Hmh.
  - eapply heap_extends_trans; [by eapply Hm | by eapply Hk].
  - injection H as <- _. by eapply Hm.
  - injection H as <- _. by eapply Hm.
Qed.

Lemma extends_heap_alloc (o : layer) : extends_heap (alloc o).
Proof.
  intros h h' out H. injection H as <- _. intros l x Hx.
  exists x. split; [by apply lookup_app_l_Some | apply same_identity_refl].
Qed.

Lemma extends_heap_addLayerAtIndex (fuel : nat) :
  forall (this n : loc) (t : Z), extends_heap (addLayerAtIndex fuel this n t).
Proof.
  induction fuel as [| fuel IH]; intros this n t.
  - intros h h' out H. injection H as <- _. apply heap_extends_refl.
  - cbn [addLayerAtIndex].
    apply extends_heap_bind; [apply extends_heap_read |]. intros o.
    destruct (negb (instanceof_LayerGroup o)); [apply extends_heap_throw |].
    apply extends_heap_bind; [apply extends_heap_read |]. intros sz.
    apply extends_heap_bind; [apply extends_heap_read |]. intros [i c | child c].
    + destruct (decide (c <> t)); [apply extends_heap_throw |].
      intros h h' out H. injection H as <- _. apply heap_extends_attach.
    + apply IH.
Qed.

Lemma extends_heap_new_children (create : raw -> M heap loc) (fuel : nat) (this : loc)
    (layers : list raw) :
  (forall r, extends_heap (create r)) ->
  forall targetIndex,
    extends_heap (LayerGroup_new_children create fuel this layers targetIndex).
Proof.
  intros Hc. induction layers as [| r layers IH]; intros targetIndex; simpl.
  - apply extends_heap_ret.
  - apply extends_heap_bind; [apply Hc |]. intros layer.
    apply extends_heap_bind; [apply extends_heap_read |]. intros sz.
    apply extends_heap_bind; [apply extends_heap_addLayerAtIndex |]. intros _.
    apply IH.
Qed.

Lemma extends_heap_createLayer (fuel : nat) :
  forall (parent : option loc) (r : raw), extends_heap (createLayer fuel parent r).
Proof.
  induction fuel as [| fuel IH]; intros parent r.
  - intros h h' out H. injection H as <- _. apply heap_extends_refl.
  - assert (forall group, extends_heap (LayerGroup_new (createLayer fuel) fuel group r))
      as Hnew.
    { intros group. unfold LayerGroup_new.
      apply extends_heap_bind; [apply extends_heap_alloc |]. intros this.
      destruct (raw_layers r) as [layers |]; [| apply extends_heap_ret].
      apply extends_heap_bind; [| intros _; apply extends_heap_ret].
      apply extends_heap_new_children. intros r'. apply IH. }
    cbn [createLayer].
    destruct parent as [p |], (raw_type r) as [type |];
      try apply extends_heap_throw; try apply Hnew;
      (destruct (decide (type = "layerSection")); [apply Hnew |];
       destruct (leaf_class_of_type type);
       [apply extends_heap_alloc | apply extends_heap_throw]).
Qed.

Lemma extends_store_ret {A : Type} (a : A) : extends_store (ret a).
Proof. intros s s' out H. injection H as <- _. apply heap_extends_refl. Qed.

Lemma extends_store_throw {A : Type} (e : exn) : extends_store (@throw _ A e).
Proof. intros s s' out H. injection H as <- _. apply heap_extends_refl. Qed.

Lemma extends_store_read {A : Type} (f : state -> outcome A) : extends_store (read f).
Proof. intros s s' out H. injection H as <- _. apply heap_extends_refl. Qed.

Lemma extends_store_bind {A B : Type} (m : M state A) (k : A -> M state B) :
  extends_store m -> (forall a, extends_store (k a)) -> extends_store (bind m k).
Proof.
  intros Hm Hk s s' out H. unfold bind in H.
  destruct (m s) as [s1 [a | e |]] eqn:Hms.
  - eapply heap_extends_trans; [by eapply Hm | by eapply Hk].
  - injection H as <- _. by eapply Hm.
  - injection H as <- _. by eapply Hm.
Qed.

Lemma extends_store_on_heap {A : Type} (m : M heap A) :
  extends_heap m -> extends_store (on_heap m).
Proof.
  intros Hm s s' out H. unfold on_heap in H.
  destruct (m (fst s)) as [h' r] eqn:Hms. injection H as <- _. simpl.
  by eapply Hm.
Qed.

Lemma extends_store_materialize_one
    (apply_in : loc -> list raw -> option Z -> M state unit)
    (fuel : nat) (this : loc) (r : raw) (finalSize : Z) :
  (forall c l i, extends_store (apply_in c l i)) ->
  extends_store (materialize_one apply_in fuel this r finalSize).
Proof.
  intros Happ. unfold materialize_one.
  destruct (raw_index r) as [index |]; [| apply extends_store_ret].
  apply extends_store_bind.
  { unfold materialize_lookup. destruct (raw_added r).
    - apply extends_store_bind.
      + apply extends_store_on_heap, extends_heap_createLayer.
      + intros child s s' out H.
        destruct (snd s !! raw_id r); injection H as <- _; apply heap_extends_refl.
    - intros s s' out H.
      destruct (snd s !! raw_id r); [| destruct (raw_removed r)];
        injection H as <- _; apply heap_extends_refl. }
  intros [| child]; [apply extends_store_ret |].
  apply extends_store_bind.
  { destruct (raw_layers r) as [layers |]; [| apply extends_store_ret].
    unfold dispatch_applyChange. destruct child as [c |]; [| apply extends_store_throw].
    apply extends_store_bind; [apply extends_store_read |]. intros o.
    destruct (instanceof_LayerGroup o); [apply Happ | apply extends_store_throw]. }
  intros _. destruct (raw_removed r); [apply extends_store_ret |].
  apply extends_store_bind; [| intros; apply extends_store_ret].
  unfold child_getSize. destruct child; [apply extends_store_read | apply extends_store_throw].
Qed.

Lemma extends_store_place_one (fuel : nat) (this : loc) (offset : Z) (r : raw) :
  extends_store (place_one fuel this offset r).
Proof.
  unfold place_one. destruct (raw_index r) as [index |]; [| apply extends_store_ret].
  destruct (raw_removed r); [apply extends_store_ret |].
  intros s s' out H.
  destruct (snd s !! raw_id r) as [e |];
    [| injection H as <- _; apply heap_extends_refl].
  destruct (rec_layer e) as [child |];
    [| injection H as <- _; apply heap_extends_refl].
  destruct (deref (fst s) child) as [c | ex |];
    try (injection H as <- _; apply heap_extends_refl).
  apply (extends_store_on_heap _ (extends_heap_addLayerAtIndex fuel this child _)) in H.
  exact H.
Qed.

Lemma extends_store_applyChange (fuel : nat) :
  forall (this : loc) (rs : list raw) (parentIndex : option Z),
  extends_store (LayerGroup_applyChange fuel this rs parentIndex).
Proof.
  induction fuel as [| fuel IH]; intros this rs parentIndex.
  - intros s s' out H. injection H as <- _. apply heap_extends_refl.
  - cbn [LayerGroup_applyChange].
    apply extends_store_bind; [apply extends_store_read |]. intros finalSize.
    apply extends_store_bind.
    + generalize finalSize. induction (sort_by_index rs) as [| r l IHl]; intros fs; simpl.
      * apply extends_store_ret.
      * apply extends_store_bind; [by apply extends_store_materialize_one | exact IHl].
    + intros fs. induction (sort_by_index rs) as [| r l IHl]; simpl.
      * apply extends_store_ret.
      * apply extends_store_bind; [apply extends_store_place_one | intros _; exact IHl].
Qed.

(** X10. Building layers, inserting them and applying a change batch never
    remove an object from the store and never change the class, id, name,
    index or type of an object that was there, whether they succeed or
    fail: they only add objects and rewrite [group] and [layers].  In
    particular the group applicator does not apply the [name] of a change
    record. *)
Theorem changes_keep_identities (fuel : nat) (this : loc) (h : heap) :
  (forall rs parentIndex cl,
      heap_extends h (fst (fst (LayerGroup_applyChange fuel this rs parentIndex (h, cl))))) /\
  (forall n t, heap_extends h (fst (addLayerAtIndex fuel this n t h))) /\
  (forall parent r, heap_extends h (fst (createLayer fuel parent r h))).
Proof.
  split; [| split].
  - intros rs parentIndex cl.
    destruct (LayerGroup_applyChange fuel this rs parentIndex (h, cl)) as [s' out] eqn:H.
    by apply (extends_store_applyChange fuel this rs parentIndex) in H.
  - intros n t. destruct (addLayerAtIndex fuel this n t h) as [h' out] eqn:H.
    by apply (extends_heap_addLayerAtIndex fuel this n t) in H.
  - intros parent r. destruct (createLayer fuel parent r h) as [h' out] eqn:H.
    by apply (extends_heap_createLayer fuel parent r) in H.
Qed.

(** ** Adding a new leaf through the applicator *)

Lemma repr_alloc (h : heap) (o : layer) (l : loc) (t : tree) :
  repr h l t -> repr (h ++ [o]) l t.
Proof.
  intros Hr. apply (repr_ext h); [exact Hr |].
  intros x Hx. destruct (repr_locs_valid h t l x Hr Hx) as [ox Hox].
  unfold shape. by rewrite (lookup_app_l_Some _ _ _ _ Hox), Hox.
Qed.

Lemma repr_locs_lt (h : heap) (l : loc) (t : tree) (x : loc) :
  repr h l t -> x ∈ locs t -> (x < length h)%nat.
Proof.
  intros Hr Hx. destruct (repr_locs_valid h t l x Hr Hx) as [ox Hox].
  by eapply lookup_lt_Some.
Qed.

Lemma createLayer_leaf (fuel : nat) (parent : loc) (r : raw) (type : string)
    (c : layer_class) (h : heap) :
  raw_type r = Some type ->
  leaf_class_of_type type = Some c ->
  createLayer (S fuel) (Some parent) r h
  = (h ++ [BaseLayer_new c (Some parent) r], Ret (length h)).
Proof.
  intros Hty Hc. cbn [createLayer]. rewrite Hty.
  destruct (decide (type = "layerSection")) as [-> | _]; [discriminate |].
  by rewrite Hc.
Qed.

Lemma leaf_class_not_group (type : string) (c : layer_class) :
  leaf_class_of_type type = Some c -> c <> LayerGroup.
Proof.
  unfold leaf_class_of_type. intros H.
  repeat (destruct (decide _) in H; [by injection H as <- |]). discriminate.
Qed.

Lemma place_one_registered (fuel : nat) (this : loc) (offset index : Z) (r : raw)
    (h : heap) (cl : gmap string layerRec) (e : layerRec) (child : loc) (co : layer) :
  raw_index r = Some index ->
  raw_removed r = false ->
  cl !! raw_id r = Some e ->
  rec_layer e = Some child ->
  h !! child = Some co ->
  place_one fuel this offset r (h, cl)
  = on_heap (addLayerAtIndex fuel this child (index - offset))
            (h, <[raw_id r := set_previousGroup e (lyr_group co)]> cl).
Proof.
  intros Hidx Hrem He Hchild Hco. unfold place_one. rewrite Hidx, Hrem. simpl.
  rewrite He, Hchild. unfold deref. by rewrite Hco.
Qed.

(** X11. Adding a leaf at the end through the applicator: for a change batch
    with the single record of a new leaf (added, of a leaf type, with a
    registered id and index [getSize() - 2]), the root invocation succeeds,
    allocates the leaf with this composite as its group, appends it to the
    children, raises [getSize] by one and records the leaf and its previous
    group in the [changedLayers] entry. *)
Theorem applyChange_appends_new_leaf (fuel : nat) (h : heap) (g : loc)
    (kids : list tree) (gs : Z) (r : raw) (type : string) (c : layer_class)
    (cl : gmap string layerRec) (e : layerRec) :
  repr h g (TGroup g kids) ->
  NoDup (locs (TGroup g kids)) ->
  (depth (TGroup g kids) < fuel)%nat ->
  getSize fuel h g = Ret gs ->
  raw_added r = true ->
  raw_removed r = false ->
  raw_layers r = None ->
  raw_type r = Some type ->
  leaf_class_of_type type = Some c ->
  raw_index r = Some (gs - 2) ->
  cl !! raw_id r = Some e ->
  exists h',
    LayerGroup_applyChange (S fuel) g [r] None (h, cl)
    = ((h', <[raw_id r := mkLayerRec (Some (length h)) (Some (Some g))]> cl), Ret tt) /\
    (forall l o, h !! l = Some o -> l <> g -> h' !! l = Some o) /\
    (lyr_layers <$> h' !! g) = ((fun o => lyr_layers o ++ [length h]) <$> h !! g) /\
    h' !! length h = Some (BaseLayer_new c (Some g) r) /\
    getSize fuel h' g = Ret (gs + 1).
Proof.
  intros Hg Hnd Hd Hgs Hadd Hrem Hlay Hty Hc Hidx He.
  assert (1 <= depth (TGroup g kids))%nat as Hd1 by (simpl; lia).
  set (o := BaseLayer_new c (Some g) r).
  set (child := length h).
  set (h1 := h ++ [o]).
  pose proof Hgs as Hgs'.
  rewrite (getSize_repr _ h g _ Hg Hd) in Hgs'. injection Hgs' as Hgs'.
  destruct (repr_lookup h g _ Hg) as [og Hog].
  assert (g < length h)%nat as Hlg by (by eapply lookup_lt_Some).
  assert (h1 !! child = Some o) as Hchild.
  { unfold h1, child. by rewrite lookup_app_r, Nat.sub_diag by lia. }
  assert (h1 !! g = Some og) as Hog1 by (by apply lookup_app_l_Some).
  assert (repr h1 g (TGroup g kids)) as Hg1 by (by apply repr_alloc).
  assert (repr h1 child (TLeaf child)) as Hleaf.
  { eapply repr_leaf; [exact Hchild |].
    apply bool_decide_eq_false_2. simpl. by eapply leaf_class_not_group. }
  assert (addLayerAtIndex fuel g child (gs - 2 - 0) h1
          = (attach g child (length kids) h1, Ret tt)) as Hadd1.
  { replace (gs - 2 - 0)
      with (tsize (TGroup g kids) - 2 + (tsize (TLeaf child) - 1))
      by (simpl; lia).
    apply addLayerAtIndex_append; [exact Hg1 | exact Hleaf | exact Hd | simpl; lia]. }
  exists (attach g child (length kids) h1). split; [| split; [| split; [| split]]].
  - cbn [LayerGroup_applyChange]. unfold bind at 1, read at 1. simpl fst. rewrite Hgs.
    cbn [sort_by_index fold_right sort_insert materialize place].
    unfold bind at 1. unfold bind at 1.
    assert (materialize_one (LayerGroup_applyChange fuel) fuel g r gs (h, cl)
            = ((h1, <[raw_id r := set_layer e (Some child)]> cl), Ret (gs + 1))) as ->.
    { destruct fuel as [| f]; [lia |].
      unfold materialize_one. rewrite Hidx. unfold bind at 1.
      unfold materialize_lookup. rewrite Hadd. unfold bind at 1, on_heap. simpl fst.
      rewrite (createLayer_leaf f g r type c h Hty Hc). simpl snd. rewrite He.
      rewrite Hlay, Hrem. unfold bind, ret, child_getSize, read. simpl fst.
      change (h ++ [BaseLayer_new c (Some g) r]) with h1.
      change (length h) with child.
      by rewrite (getSize_repr (S f) h1 child (TLeaf child) Hleaf) by (simpl; lia). }
    unfold ret at 1. unfold bind at 1.
    rewrite (place_one_registered fuel g 0 (gs - 2) r h1 _
               (set_layer e (Some child)) child o Hidx Hrem);
      [| by rewrite lookup_insert_eq | reflexivity | exact Hchild].
    unfold on_heap. simpl fst. rewrite Hadd1. simpl snd.
    rewrite insert_insert_eq. reflexivity.
  - intros l x Hx Hl. rewrite attach_lookup_other; [| done |].
    + by apply lookup_app_l_Some.
    + apply lookup_lt_Some in Hx. unfold child. lia.
  - destruct (attach_lookup_this h1 g child (length kids) og o Hog1 Hchild)
      as [o' [Ho' [Hl' _]]].
    rewrite Ho', Hog. simpl. f_equal. rewrite Hl'.
    inversion Hg as [| ? og' ? Hog' _ Hk]; subst.
    assert (og' = og) as -> by congruence.
    rewrite <- (Forall2_length _ _ _ Hk). apply splice_in_length.
  - destruct (attach_lookup_child h1 g child (length kids) og o Hog1 Hchild)
      as [o' [Ho' [Hgrp [Hcl [Hid Hl']]]]].
    rewrite Ho'. f_equal. destruct o'. unfold o, BaseLayer_new in *. simpl in *.
    assert (child <> g) as Hne by (unfold child; lia).
    rewrite (Hl' Hne), Hgrp, Hcl, Hid.
    assert (lyr_index0 = raw_index r /\ lyr_type0 = raw_type r /\
            lyr_name0 = raw_name r) as [-> [-> ->]]; [| reflexivity].
    pose proof (heap_extends_attach g child (length kids) h1 child _ Hchild)
      as [o'' [Ho'' [_ [_ [Hn [Hi Ht]]]]]].
    rewrite Ho' in Ho''. injection Ho'' as <-. by simpl in *.
  - assert (repr (attach g child (length kids) h1) g (TGroup g (kids ++ [TLeaf child])))
      as Hnew.
    { apply attach_child_repr.
      - by rewrite app_nil_r.
      - exact Hleaf.
      - rewrite app_nil_r. rewrite locs_group in Hnd. by apply NoDup_cons in Hnd as [? _].
      - simpl. intros ->%list_elem_of_singleton. unfold child in Hlg. lia. }
    rewrite (getSize_repr _ _ g _ Hnew).
    + f_equal. rewrite <- Hgs'. simpl. rewrite map_app, Zsum_app. simpl. lia.
    + simpl in *. rewrite map_app, max_list_app. simpl. lia.
Qed.

Lemma applyChange_appends_new_leaf_witness :
  exists h',
    LayerGroup_applyChange 5 snapshot_root [added_C (6 - 2)] None (snapshot_heap, table_C)
    = ((h', <[raw_id (added_C (6 - 2)) :=
               mkLayerRec (Some (length snapshot_heap)) (Some (Some snapshot_root))]>
              table_C),
       Ret tt) /\
    (forall l o, snapshot_heap !! l = Some o -> l <> snapshot_root -> h' !! l = Some o) /\
    (lyr_layers <$> h' !! snapshot_root)
    = ((fun o => lyr_layers o ++ [length snapshot_heap]) <$> snapshot_heap !! snapshot_root) /\
    h' !! length snapshot_heap
    = Some (BaseLayer_new Layer (Some snapshot_root) (added_C (6 - 2))) /\
    getSize 4 h' snapshot_root = Ret (6 + 1).
Proof.
  apply (applyChange_appends_new_leaf 4 snapshot_heap snapshot_root snapshot_kids 6
           (added_C (6 - 2)) "layer" Layer table_C (mkLayerRec None None)).
  - exact snapshot_repr.
  - apply (bool_decide_unpack _). vm_compute. reflexivity.
  - simpl. lia.
  - vm_compute. reflexivity.
  - reflexivity.
  - reflexivity.
  - reflexivity.
  - reflexivity.
  - reflexivity.
  - reflexivity.
  - reflexivity.
Defined.

(** ** Building a snapshot *)

Lemma raw_size_section (r : raw) :
  is_section r = true -> raw_size r = 2 + Zsum (map raw_size (children_of r)).
Proof.
  destruct r as [i x ty nm a rm [l |]]; unfold is_section, children_of; simpl;
    intros ->; reflexivity.
Qed.

Lemma raw_size_leaf (r : raw) : is_section r = false -> raw_size r = 1.
Proof.
  destruct r as [i x ty nm a rm l]; unfold is_section; simpl. by intros ->.
Qed.

Lemma raw_depth_section (r : raw) :
  is_section r = true ->
  raw_depth r = S (max_list (map raw_depth (children_of r))).
Proof.
  destruct r as [i x ty nm a rm [l |]]; unfold is_section, children_of; simpl;
    intros ->; reflexivity.
Qed.

Lemma max_list_le (ns : list nat) (d : nat) :
  Forall (fun n => n <= d)%nat ns -> (max_list ns <= d)%nat.
Proof. induction 1; simpl; lia. Qed.

Lemma sort_insert_perm (x : raw) (l : list raw) : sort_insert x l ≡ₚ x :: l.
Proof.
  induction l as [| y l IH]; simpl; [reflexivity |].
  destruct (compare_index x y) as [d |]; [destruct (0 <? d) |]; try reflexivity.
  rewrite IH. apply Permutation_swap.
Qed.

Lemma sort_by_index_perm (l : list raw) : sort_by_index l ≡ₚ l.
Proof.
  induction l as [| x l IH]; simpl; [reflexivity |].
  by rewrite sort_insert_perm, IH.
Qed.

Lemma Zsum_perm (l l' : list Z) : l ≡ₚ l' -> Zsum l = Zsum l'.
Proof. induction 1; simpl in *; lia. Qed.

Lemma repr_frame (h h' : heap) (l : loc) (t : tree) :
  repr h l t ->
  (forall x o, h !! x = Some o -> h' !! x = Some o) ->
  repr h' l t.
Proof.
  intros Hr Hf. apply (repr_ext h); [exact Hr |].
  intros x Hx. destruct (repr_locs_valid h t l x Hr Hx) as [ox Hox].
  unfold shape. by rewrite (Hf x ox Hox), Hox.
Qed.

Lemma attach_this_exact (h : heap) (this n : loc) (i : nat) (og on : layer) :
  this <> n -> h !! this = Some og -> h !! n = Some on ->
  attach this n i h !! this
  = Some (set_layers og (splice_in i n (lyr_layers og))).
Proof.
  intros Hne Hg Hn. unfold attach. rewrite Hn.
  rewrite list_lookup_insert_ne by done. rewrite Hg.
  apply list_lookup_insert_eq. rewrite length_insert. by eapply lookup_lt_Some.
Qed.

Lemma attach_child_exact (h : heap) (this n : loc) (i : nat) (og on : layer) :
  this <> n -> h !! this = Some og -> h !! n = Some on ->
  attach this n i h !! n = Some (set_group on (Some this)).
Proof.
  intros Hne Hg Hn. unfold attach. rewrite Hn.
  rewrite list_lookup_insert_ne by done. rewrite Hg.
  rewrite list_lookup_insert_ne by done.
  apply list_lookup_insert_eq. by eapply lookup_lt_Some.
Qed.

Section build.

Variable fuel : nat.

Hypothesis createLayer_fuel :
  forall parent rc h,
    descr_ok parent rc -> (raw_depth rc + 2 <= fuel)%nat ->
    exists h' T, createLayer fuel parent rc h = (h', Ret (length h)) /\
                 built parent rc h h' T.

(** One round of the constructor's [forEach]. *)
Lemma new_children_step (h0 : heap) (this : loc) (parent : option loc) (r : raw)
    (D : nat) (rc : raw) (hc : heap) (kids : list tree) (done : list raw) :
  (D + 2 <= fuel)%nat ->
  buildable rc ->
  (raw_depth rc <= D)%nat ->
  building h0 this parent r D hc kids done ->
  exists h1 h2 Tc,
    createLayer fuel (Some this) rc hc = (h1, Ret (length hc)) /\
    getSize fuel h1 (length hc) = Ret (tsize Tc) /\
    addLayerAtIndex fuel this (length hc)
                    (Zsum (map tsize kids) + (tsize Tc - 1)) h1 = (h2, Ret tt) /\
    building h0 this parent r D h2 (kids ++ [Tc]) (done ++ [rc]).
Proof.
  intros HD Hrc Hdrc [Hrep [Hgt [Hnd [Hdep [Hframe [Hsum [o [Ho [Hgrp [Hid [Hnm Hch]]]]]]]]]]].
  destruct (createLayer_fuel (Some this) rc hc (or_introl Hrc) ltac:(lia))
    as [h1 [Tc [Hcreate [HrTc [HsTc [HdTc [Hf1 [HgeTc [HndTc [oc [Hoc [Hgc [Hidc _]]]]]]]]]]]]].
  set (child := length hc) in *.
  assert (this < child)%nat as Hlt by (by eapply lookup_lt_Some).
  assert (this <> child) as Hne by lia.
  pose proof (Hf1 this o Ho) as Ho1.
  assert (repr h1 this (TGroup this kids)) as Hrep1 by (by eapply repr_frame).
  assert (depth (TGroup this kids) < fuel)%nat as Hdg.
  { simpl. pose proof (max_list_le (map depth kids) D) as Hm.
    rewrite Forall_fmap in Hm. specialize (Hm Hdep). lia. }
  set (t := Zsum (map tsize kids) + (tsize Tc - 1)).
  set (h2 := attach this child (length kids) h1).
  assert (addLayerAtIndex fuel this child t h1 = (h2, Ret tt)) as Hadd.
  { unfold t.
    replace (Zsum (map tsize kids) + (tsize Tc - 1))
      with (tsize (TGroup this kids) - 2 + (tsize Tc - 1)) by (simpl; lia).
    apply addLayerAtIndex_append; [exact Hrep1 | exact HrTc | exact Hdg | lia]. }
  assert (this ∉ klocs kids) as Hthis_k.
  { intros Hx. specialize (Hgt this Hx). lia. }
  assert (this ∉ locs Tc) as Hthis_c.
  { intros Hx. specialize (HgeTc this Hx). lia. }
  assert (lyr_layers o ++ [child]
          = splice_in (length kids) child (lyr_layers o)) as Hsplice.
  { inversion Hrep as [| ? o' ? Ho' _ Hk]; subst.
    assert (o' = o) as -> by congruence.
    rewrite <- (Forall2_length _ _ _ Hk). symmetry. apply splice_in_length. }
  exists h1, h2, Tc. split; [exact Hcreate |]. split.
  { apply getSize_repr; [exact HrTc | lia]. }
  split; [exact Hadd |].
  split; [| split; [| split; [| split; [| split; [| split]]]]].
  - apply attach_child_repr; [by rewrite app_nil_r | exact HrTc | | exact Hthis_c].
    by rewrite app_nil_r.
  - intros x Hx. rewrite klocs_app, klocs_cons in Hx.
    apply elem_of_app in Hx as [Hx | Hx]; [by apply Hgt |].
    unfold klocs in Hx. simpl in Hx. rewrite app_nil_r in Hx.
    specialize (HgeTc x Hx). lia.
  - rewrite klocs_app, klocs_cons. unfold klocs at 2. simpl. rewrite app_nil_r.
    apply NoDup_app. split; [exact Hnd |]. split; [| exact HndTc].
    intros x Hxk Hxc. specialize (HgeTc x Hxc).
    assert (x < length hc)%nat; [| unfold child in *; lia].
    eapply (repr_locs_lt hc this (TGroup this kids)); [exact Hrep |].
    rewrite locs_group. apply elem_of_cons. by right.
  - apply Forall_app. split; [exact Hdep |]. constructor; [lia | constructor].
  - intros l x Hl Hx. unfold h2. rewrite attach_lookup_other by lia.
    apply Hf1. by apply Hframe.
  - rewrite !map_app, !Zsum_app. simpl. lia.
  - exists (set_layers o (splice_in (length kids) child (lyr_layers o))).
    split; [by apply (attach_this_exact h1 this child _ o oc) |].
    simpl. split; [exact Hgrp |]. split; [exact Hid |]. split; [exact Hnm |].
    rewrite <- Hsplice. apply Forall2_app.
    + eapply Forall2_impl; [exact Hch |].
      intros c rc' [occ [Hocc [Hidcc [Hgcc Hltc]]]].
      exists occ. split; [| done].
      unfold h2. rewrite attach_lookup_other; [by apply Hf1 | lia |].
      apply lookup_lt_Some in Hocc. unfold child. lia.
    + constructor; [| constructor].
      exists (set_group oc (Some this)).
      split; [by apply (attach_child_exact h1 this child _ o oc) |]. by simpl.
Qed.

(** The constructor's [forEach] over descriptors it can build. *)
Lemma new_children_build (h0 : heap) (this : loc) (parent : option loc) (r : raw)
    (D : nat) (rs : list raw) :
  (D + 2 <= fuel)%nat ->
  Forall buildable rs ->
  Forall (fun rc => raw_depth rc <= D)%nat rs ->
  forall hc kids done,
    building h0 this parent r D hc kids done ->
    exists h' kids',
      LayerGroup_new_children (createLayer fuel (Some this)) fuel this rs
                              (Zsum (map tsize kids)) hc = (h', Ret tt) /\
      building h0 this parent r D h' kids' (done ++ rs).
Proof.
  intros HD Hrs. induction Hrs as [| rc rs Hrc _ IH]; intros Hdr hc kids done Hinv.
  - exists hc, kids. split; [reflexivity | by rewrite app_nil_r].
  - apply Forall_cons_1 in Hdr as [Hdrc Hdr].
    destruct (new_children_step h0 this parent r D rc hc kids done HD Hrc Hdrc Hinv)
      as [h1 [h2 [Tc [Hcreate [Hsz [Hadd Hinv2]]]]]].
    destruct (IH Hdr h2 (kids ++ [Tc]) (done ++ [rc]) Hinv2) as [h' [kids' [Hloop Hinv']]].
    exists h', kids'. split.
    + cbn [LayerGroup_new_children]. unfold bind at 1. rewrite Hcreate.
      unfold bind at 1, read at 1. rewrite Hsz.
      unfold bind at 1. rewrite Hadd.
      rewrite map_app, Zsum_app in Hloop. simpl in Hloop.
      replace (Zsum (map tsize kids) + (tsize Tc - 1) + 1)
        with (Zsum (map tsize kids) + (tsize Tc + 0)) by lia.
      exact Hloop.
    + by rewrite <- app_assoc in Hinv'.
Qed.

(** [new LayerGroup(group, r)] on a descriptor whose children can be
    built. *)
Lemma LayerGroup_new_builds (group : option loc) (r : raw) (h : heap) :
  is_section r = true ->
  Forall buildable (children_of r) ->
  (raw_depth r + 2 <= S fuel)%nat ->
  exists h' T,
    LayerGroup_new (createLayer fuel) fuel group r h = (h', Ret (length h)) /\
    built group r h h' T.
Proof.
  intros Hsec Hkids Hd.
  set (this := length h).
  set (o := BaseLayer_new LayerGroup group r).
  set (h0 := h ++ [o]).
  set (D := max_list (map raw_depth (children_of r))).
  rewrite (raw_depth_section r Hsec) in Hd. fold D in Hd.
  assert (h0 !! this = Some o) as Ho.
  { unfold h0, this. by rewrite lookup_app_r, Nat.sub_diag by lia. }
  assert (building h0 this group r D h0 [] []) as Hinit.
  { split; [| split; [| split; [| split; [| split; [| split]]]]].
    - eapply repr_group; [exact Ho | reflexivity | constructor].
    - intros x Hx. by apply elem_of_nil in Hx.
    - constructor.
    - constructor.
    - auto.
    - reflexivity.
    - exists o. split; [exact Ho |]. do 3 (split; [reflexivity |]). constructor. }
  assert (exists h' kids',
            LayerGroup_new (createLayer fuel) fuel group r h = (h', Ret this) /\
            building h0 this group r D h' kids' (sort_by_index (children_of r)))
    as [h' [kids' [Hrun Hinv]]].
  { unfold LayerGroup_new. unfold bind at 1, alloc. fold this o h0.
    unfold children_of. destruct (raw_layers r) as [layers |] eqn:Hlay.
    - destruct (new_children_build h0 this group r D (sort_by_index layers))
        with (hc := h0) (kids := @nil tree) (done := @nil raw)
        as [h' [kids' [Hloop Hinv]]]; [lia | | | exact Hinit |].
      + apply Forall_forall. intros rc Hin.
        apply (proj1 (sort_by_index_elem _ _)) in Hin.
        unfold children_of in Hkids. rewrite Hlay in Hkids.
        by apply (proj1 (Forall_forall _ _) Hkids).
      + apply Forall_forall. intros rc Hin.
        apply (proj1 (sort_by_index_elem _ _)) in Hin.
        apply max_list_elem_of_le, list_elem_of_fmap.
        exists rc. split; [reflexivity |]. unfold children_of. by rewrite Hlay.
      + exists h', kids'. split; [| exact Hinv].
        unfold bind. simpl in Hloop. by rewrite Hloop.
    - exists h0, []. split; [reflexivity | exact Hinit]. }
  destruct Hinv as [Hrep [Hgt [Hnd [Hdep [Hframe [Hsum [o' [Ho' [Hgrp [Hid [Hnm Hch]]]]]]]]]]].
  exists h', (TGroup this kids'). split; [exact Hrun |].
  split; [exact Hrep |]. split; [| split; [| split; [| split; [| split]]]].
  - rewrite (raw_size_section r Hsec). simpl. rewrite Hsum. f_equal.
    apply Zsum_perm, Permutation_map, sort_by_index_perm.
  - rewrite (raw_depth_section r Hsec). fold D. simpl.
    pose proof (max_list_le (map depth kids') D) as Hm.
    rewrite Forall_fmap in Hm. specialize (Hm Hdep). lia.
  - intros l x Hx. apply Hframe.
    + apply lookup_lt_Some in Hx. unfold this. lia.
    + unfold h0. by apply lookup_app_l_Some.
  - intros x Hx. rewrite locs_group in Hx.
    apply elem_of_cons in Hx as [-> | Hx]; [unfold this; lia |].
    specialize (Hgt x Hx). unfold this in *. lia.
  - rewrite locs_group. apply NoDup_cons. split; [| exact Hnd].
    intros Hx. specialize (Hgt this Hx). lia.
  - exists o'. rewrite Hsec. by repeat split.
Qed.

End build.

Lemma createLayer_builds (fuel : nat) :
  forall parent r h,
    descr_ok parent r -> (raw_depth r + 2 <= fuel)%nat ->
    exists h' T, createLayer fuel parent r h = (h', Ret (length h)) /\
                 built parent r h h' T.
Proof.
  induction fuel as [| fuel IH]; intros parent r h Hok Hd; [lia |].
  destruct Hok as [Hb | [-> [Hty Hkids]]].
  - destruct Hb as [r type c Hty Hc | r Hty Hkids].
    + assert (type <> "layerSection") as Hns by (intros ->; discriminate).
      assert (is_section r = false) as Hsec.
      { unfold is_section. rewrite Hty. by apply bool_decide_eq_false_2. }
      set (o := BaseLayer_new c parent r).
      exists (h ++ [o]), (TLeaf (length h)).
      assert ((h ++ [o]) !! length h = Some o) as Ho
        by (by rewrite lookup_app_r, Nat.sub_diag by lia).
      split.
      { cbn [createLayer]. rewrite Hty, decide_False, Hc by done. by destruct parent. }
      split; [| split; [| split; [| split; [| split; [| split]]]]].
      * eapply repr_leaf; [exact Ho |].
        apply bool_decide_eq_false_2. simpl. by eapply leaf_class_not_group.
      * by rewrite (raw_size_leaf r Hsec).
      * simpl. lia.
      * intros l x Hx. by apply lookup_app_l_Some.
      * intros x ->%list_elem_of_singleton. lia.
      * apply NoDup_singleton.
      * exists o. rewrite Hsec. repeat split; [exact Ho | constructor].
    + assert (is_section r = true) as Hsec by (unfold is_section; by rewrite Hty).
      destruct (LayerGroup_new_builds fuel IH parent r h Hsec Hkids Hd)
        as [h' [T [Hrun Hbuilt]]].
      exists h', T. split; [| exact Hbuilt].
      cbn [createLayer]. rewrite Hty. rewrite decide_True by done. by destruct parent.
  - assert (is_section r = true) as Hsec by (unfold is_section; by rewrite Hty).
    destruct (LayerGroup_new_builds fuel IH None r h Hsec Hkids Hd)
      as [h' [T [Hrun Hbuilt]]].
    exists h', T. split; [| exact Hbuilt]. cbn [createLayer]. by rewrite Hty.
Qed.

Lemma sort_insert_sorted (x : raw) (l : list raw) :
  Sorted index_le l -> Sorted index_le (sort_insert x l).
Proof.
  induction 1 as [| y l Hs IH Hhd]; simpl; [repeat constructor |].
  destruct (compare_index x y) as [d |] eqn:Hcmp.
  - unfold compare_index in Hcmp.
    destruct (raw_index x) as [ix |] eqn:Hx, (raw_index y) as [iy |] eqn:Hy;
      try discriminate.
    injection Hcmp as <-. destruct (Z.ltb_spec 0 (ix - iy)).
    + constructor; [exact IH |].
      destruct l as [| z l]; simpl.
      * constructor. intros i1 i2 H1 H2. rewrite Hy in H1. rewrite Hx in H2.
        injection H1 as <-. injection H2 as <-. lia.
      * apply HdRel_inv in Hhd.
        destruct (compare_index x z) as [d |]; [destruct (0 <? d) |];
          constructor; try exact Hhd;
          intros i1 i2 H1 H2; rewrite Hy in H1; rewrite Hx in H2;
          injection H1 as <-; injection H2 as <-; lia.
    + constructor; [by constructor |]. constructor.
      intros i1 i2 H1 H2. rewrite Hx in H1. rewrite Hy in H2.
      injection H1 as <-. injection H2 as <-. lia.
  - constructor; [by constructor |]. constructor.
    intros i1 i2 H1 H2. unfold compare_index in Hcmp. rewrite H1, H2 in Hcmp.
    discriminate.
Qed.

Lemma sort_by_index_sorted (l : list raw) : Sorted index_le (sort_by_index l).
Proof.
  induction l as [| x l IH]; simpl; [constructor | by apply sort_insert_sorted].
Qed.

(** X12. Building a snapshot: on a descriptor whose types are all known (a
    typeless one only as the root) and in which every child of a group
    descriptor has an index, with enough fuel, [createLayer]
    succeeds, so the constructor's running target index never fails the
    insertion assertion.  It leaves the objects that were there untouched
    and returns a new object that roots a tree without sharing, has the
    given parent as its group and the descriptor's id, has the [getSize]
    the descriptor announces, and whose children are the descriptor's
    children in ascending order of their declared index, each with the
    new object as its group. *)
Theorem createLayer_builds_tree (fuel : nat) (parent : option loc) (r : raw) (h : heap) :
  descr_ok parent r ->
  indexed r ->
  (raw_depth r + 2 <= fuel)%nat ->
  exists h' T o,
    createLayer fuel parent r h = (h', Ret (length h)) /\
    repr h' (length h) T /\
    NoDup (locs T) /\
    (forall l x, h !! l = Some x -> h' !! l = Some x) /\
    getSize fuel h' (length h) = Ret (raw_size r) /\
    h' !! length h = Some o /\
    lyr_group o = parent /\ lyr_id o = raw_id r /\
    Forall2 (built_child h' (length h)) (lyr_layers o)
            (if is_section r then sort_by_index (children_of r) else []) /\
    Sorted index_le (sort_by_index (children_of r)) /\
    sort_by_index (children_of r) ≡ₚ children_of r.
Proof.
  intros Hok _ Hd.
  destruct (createLayer_builds fuel parent r h Hok Hd)
    as [h' [T [Hrun [Hrep [Hsz [Hdep [Hframe [_ [Hnd [o [Ho [Hgrp [Hid [_ Hch]]]]]]]]]]]]]].
  exists h', T, o. split; [exact Hrun |]. split; [exact Hrep |].
  split; [exact Hnd |]. split; [exact Hframe |]. split.
  { rewrite (getSize_repr fuel h' _ T Hrep) by lia. by rewrite Hsz. }
  split; [exact Ho |]. split; [exact Hgrp |]. split; [exact Hid |].
  split; [exact Hch |]. split; [apply sort_by_index_sorted | apply sort_by_index_perm].
Qed.

Lemma raw_snapshot_ok : descr_ok None raw_snapshot.
Proof.
  right. split; [reflexivity |]. split; [reflexivity |]. simpl.
  constructor; [| constructor; [| constructor]].
  - by eapply (buildable_leaf _ "layer" Layer).
  - apply buildable_section; [reflexivity |]. simpl.
    constructor; [| constructor]. by eapply (buildable_leaf _ "layer" Layer).
Qed.

Lemma raw_snapshot_indexed : indexed raw_snapshot.
Proof.
  apply indexed_section; [reflexivity | |]; simpl.
  - repeat constructor; eexists; reflexivity.
  - constructor; [by apply indexed_leaf | constructor; [| constructor]].
    apply indexed_section; [reflexivity | |]; simpl.
    + repeat constructor; eexists; reflexivity.
    + constructor; [by apply indexed_leaf | constructor].
Qed.

Lemma createLayer_builds_tree_witness :
  exists h' T o,
    createLayer 5 None raw_snapshot [] = (h', Ret (length (@nil layer))) /\
    repr h' (length (@nil layer)) T /\
    NoDup (locs T) /\
    (forall l x, (@nil layer) !! l = Some x -> h' !! l = Some x) /\
    getSize 5 h' (length (@nil layer)) = Ret (raw_size raw_snapshot) /\
    h' !! length (@nil layer) = Some o /\
    lyr_group o = None /\ lyr_id o = raw_id raw_snapshot /\
    Forall2 (built_child h' (length (@nil layer))) (lyr_layers o)
            (if is_section raw_snapshot
             then sort_by_index (children_of raw_snapshot) else []) /\
    Sorted index_le (sort_by_index (children_of raw_snapshot)) /\
    sort_by_index (children_of raw_snapshot) ≡ₚ children_of raw_snapshot.
Proof.
  apply (createLayer_builds_tree 5 None raw_snapshot []).
  - exact raw_snapshot_ok.
  - exact raw_snapshot_indexed.
  - simpl. lia.
Defined.

(** ** [toString] *)

Lemma string_app_assoc (s1 s2 s3 : string) :
  (s1 +:+ s2) +:+ s3 = s1 +:+ s2 +:+ s3.
Proof.
  induction s1 as [| a s1 IH]; [reflexivity |].
  change (String a ((s1 +:+ s2) +:+ s3) = String a (s1 +:+ s2 +:+ s3)). by f_equal.
Qed.

Lemma toString_forEach_join (str_of : loc -> outcome string) (h : heap)
    (layers : list loc) (kids : list tree) :
  Forall2 (fun c k => str_of c = Ret (render h k)) layers kids ->
  forall (index : nat) (acc : string),
    toString_forEach str_of layers index (index + length layers) acc
    = Ret (acc +:+ String.concat ", " (map (render h) kids)).
Proof.
  induction 1 as [| c k layers kids Hc Hrest IH]; intros index acc.
  - simpl. f_equal. induction acc as [| a acc IHa]; [reflexivity |].
    change (String a acc = String a (acc +:+ "")). by f_equal.
  - cbn [toString_forEach]. rewrite Hc. cbn [obind].
    destruct Hrest as [| c' k' layers kids Hc' Hrest].
    + simpl. rewrite decide_False by (intros Hne; apply Hne; lia). reflexivity.
    + rewrite decide_True by (simpl; lia).
      replace (index + length (c :: c' :: layers))%nat
        with (S index + length (c' :: layers))%nat by (simpl; lia).
      rewrite IH. f_equal.
      change (map (render h) (k :: k' :: kids))
        with (render h k :: map (render h) (k' :: kids)).
      change (String.concat ", " (render h k :: map (render h) (k' :: kids)))
        with (render h k +:+ ", " +:+ String.concat ", " (map (render h) (k' :: kids))).
      by rewrite !string_app_assoc.
Qed.

Lemma toString_render (fuel : nat) (h : heap) (l : loc) (t : tree) :
  repr h l t -> (depth t < fuel)%nat -> toString fuel h l = Ret (render h t).
Proof.
  revert l t. induction fuel as [| fuel IH]; intros l t Hr Hd; [lia |].
  destruct Hr as [l o Hl Hc | l o kids Hl Hc Hk]; simpl; unfold deref;
    rewrite Hl; simpl; rewrite Hc; [reflexivity |].
  rewrite (toString_forEach_join (toString fuel h) h (lyr_layers o) kids).
  - simpl. by rewrite !string_app_assoc.
  - eapply Forall2_impl_elem; [exact Hk |]. intros c k Hck Hin. simpl.
    apply IH; [exact Hck |]. pose proof (depth_kid l kids k Hin). lia.
Qed.

(** X13. On a store that holds a tree, [toString] of a group returns
    "id:name" (with "-" for a missing or empty name), then " [", the
    [toString] of its children in order, separated by ", " with no
    separator after the last one, then "]"; [toString] of another layer is
    just "id:name". *)
Theorem toString_joins_children (fuel : nat) (h : heap) (l : loc) (t : tree) :
  repr h l t ->
  (depth t < fuel)%nat ->
  exists o,
    h !! l = Some o /\
    match t with
    | TLeaf _ => toString fuel h l = Ret (BaseLayer_toString o)
    | TGroup _ kids =>
        exists strs,
          Forall2 (fun c s => toString fuel h c = Ret s) (lyr_layers o) strs /\
          toString fuel h l
          = Ret (BaseLayer_toString o +:+ " [" +:+ String.concat ", " strs +:+ "]")
    end.
Proof.
  intros Hr Hd. pose proof (toString_render fuel h l t Hr Hd) as Hs.
  destruct Hr as [l o Hl Hc | l o kids Hl Hc Hk]; exists o; (split; [exact Hl |]).
  - simpl in Hs. by rewrite Hl in Hs.
  - exists (map (render h) kids). split.
    + apply Forall2_fmap_r. eapply Forall2_impl_elem; [exact Hk |].
      intros c k Hck Hin. simpl. apply toString_render; [exact Hck |].
      pose proof (depth_kid l kids k Hin). lia.
    + simpl in Hs. by rewrite Hl in Hs.
Qed.

Lemma toString_joins_children_witness :
  exists o,
    snapshot_heap !! snapshot_root = Some o /\
    exists strs,
      Forall2 (fun c s => toString 5 snapshot_heap c = Ret s) (lyr_layers o) strs /\
      toString 5 snapshot_heap snapshot_root
      = Ret (BaseLayer_toString o +:+ " [" +:+ String.concat ", " strs +:+ "]").
Proof.
  apply (toString_joins_children 5 snapshot_heap snapshot_root snapshot_tree).
  - exact snapshot_repr.
  - simpl. lia.
Defined.

(** ** The outcome of [addLayerAtIndex], decided by the target index *)

(** A target strictly inside the span of a child group makes the scan stop
    at that child, with the running index at the slots before it. *)
Lemma scan_inside (fuel : nat) (h : heap) (t : Z) (l1 : list loc) (k1 : list tree)
    (c : loc) (ks : list tree) (l2 : list loc) :
  Forall2 (repr h) l1 k1 ->
  Forall (fun k => depth k < fuel)%nat k1 ->
  repr h c (TGroup c ks) ->
  (depth (TGroup c ks) < fuel)%nat ->
  forall (idx : nat) (cur : Z),
  cur + Zsum (map tsize k1) < t < cur + Zsum (map tsize k1) + tsize (TGroup c ks) ->
  scan (getSize fuel h) h t (l1 ++ c :: l2) idx cur cur
  = Ret (ScanRecurse c (cur + Zsum (map tsize k1))).
Proof.
  intros HF. induction HF as [| x k l1 k1 Hxk _ IH]; intros Hd Hc Hdc idx cur Ht.
  - cbn [app scan map Zsum fold_right] in *.
    destruct (Z.leb_spec t cur); [lia |].
    rewrite (getSize_repr fuel h c _ Hc Hdc). cbn [obind].
    inversion Hc as [| ? oc ? Hoc Hcls Hk]; subst.
    unfold deref. rewrite Hoc. cbn [obind]. rewrite Hcls.
    destruct (Z.ltb_spec t (cur + tsize (TGroup c ks))); [| lia].
    cbn [andb]. do 2 f_equal. lia.
  - apply Forall_cons_1 in Hd as [Hdk Hd].
    pose proof (tsize_pos k). pose proof (Zsum_tsize_nonneg k1).
    cbn [app scan map Zsum fold_right] in *. fold (Zsum (map tsize k1)) in *.
    destruct (Z.leb_spec t cur); [lia |].
    rewrite (getSize_repr fuel h x k Hxk Hdk). cbn [obind].
    destruct (repr_lookup h x k Hxk) as [o Ho]. unfold deref. rewrite Ho. cbn [obind].
    destruct (Z.ltb_spec t (cur + tsize k)); [lia |]. cbn [andb].
    rewrite (IH Hd Hc Hdc (S idx) (cur + tsize k)) by lia. do 2 f_equal. lia.
Qed.

(** A target between the first and the last boundary is a boundary between
    two children, or lies strictly inside the span of a child group. *)
Lemma span_cases (kids : list tree) :
  forall (base t : Z),
  base <= t <= base + Zsum (map tsize kids) ->
  (exists k1 k2, kids = k1 ++ k2 /\ t = base + Zsum (map tsize k1)) \/
  (exists k1 c ks k2,
     kids = k1 ++ TGroup c ks :: k2 /\
     base + Zsum (map tsize k1) < t
     < base + Zsum (map tsize k1) + tsize (TGroup c ks)).
Proof.
  induction kids as [| k kids IH]; intros base t Ht.
  - left. exists [], []. simpl in *. split; [reflexivity | lia].
  - cbn [map Zsum fold_right] in Ht. fold (Zsum (map tsize kids)) in Ht.
    destruct (decide (t = base)) as [-> | Hne].
    { left. exists [], (k :: kids). simpl. split; [reflexivity | lia]. }
    destruct (decide (t < base + tsize k)) as [Hin | Hout].
    { right. destruct k as [l | c ks]; [simpl in Hin; lia |].
      exists [], c, ks, kids. split; [reflexivity |].
      change (Zsum (map tsize [])) with 0. lia. }
    destruct (IH (base + tsize k) t ltac:(lia))
      as [[k1 [k2 [-> ->]]] | [k1 [c [ks [k2 [-> Hin]]]]]].
    + left. exists (k :: k1), k2. split; [reflexivity |].
      cbn [map Zsum fold_right]. fold (Zsum (map tsize k1)). lia.
    + right. exists (k :: k1), c, ks, k2. split; [reflexivity |].
      cbn [map Zsum fold_right]. fold (Zsum (map tsize k1)). lia.
Qed.

(** A target on the boundary after the children [k1] is accepted by [g]
    itself. *)
Lemma addLayerAtIndex_boundary (fuel : nat) (h : heap) (g n : loc)
    (k1 k2 : list tree) (N : tree) :
  repr h g (TGroup g (k1 ++ k2)) ->
  repr h n N ->
  NoDup (locs (TGroup g (k1 ++ k2)) ++ locs N) ->
  (depth (TGroup g (k1 ++ k2)) < S fuel)%nat ->
  (depth N < fuel)%nat ->
  addLayerAtIndex_scan fuel h g n (Zsum (map tsize k1) + (tsize N - 1))
  = Ret (ScanEnd (length k1) (Zsum (map tsize k1) + (tsize N - 1))) /\
  addLayerAtIndex (S fuel) g n (Zsum (map tsize k1) + (tsize N - 1)) h
  = (attach g n (length k1) h, Ret tt) /\
  repr (attach g n (length k1) h) g (TGroup g (k1 ++ N :: k2)) /\
  (lyr_group <$> attach g n (length k1) h !! n) = Some (Some g).
Proof.
  intros Hg Hn Hnd Hdg Hdn.
  inversion Hg as [| ? og ? Hog Hcls Hk]; subst.
  destruct (repr_lookup h n N Hn) as [on Hon].
  pose proof Hk as Hk'.
  apply Forall2_app_inv_r in Hk' as [l1 [l2 [Hk1 [Hk2 Hlay]]]].
  pose proof (kids_depth fuel g _ Hdg) as Hdk. apply Forall_app in Hdk as [Hdk1 _].
  rewrite locs_group, <- app_comm_cons in Hnd.
  apply NoDup_cons in Hnd as [Hg_notin _].
  assert (scan (getSize fuel h) h (Zsum (map tsize k1) + (tsize N - 1))
               (lyr_layers og) 0 (tsize N - 1) (tsize N - 1)
          = Ret (ScanEnd (length k1) (Zsum (map tsize k1) + (tsize N - 1)))) as Hscan.
  { rewrite Hlay.
    replace (Zsum (map tsize k1) + (tsize N - 1))
      with (tsize N - 1 + Zsum (map tsize k1)) by lia.
    rewrite (scan_exact fuel h l1 k1 l2 Hk1 Hdk1 0%nat (tsize N - 1)).
    by rewrite (Forall2_length _ _ _ Hk1). }
  split; [| split; [| split]].
  - unfold addLayerAtIndex_scan, deref. rewrite Hog. cbn [obind].
    by rewrite (getSize_repr fuel h n N Hn Hdn).
  - rewrite (addLayerAtIndex_step fuel h g n _ og (tsize N) _ Hog Hcls
               (getSize_repr fuel h n N Hn Hdn) Hscan).
    by rewrite decide_False by (intros Hne; by apply Hne).
  - apply attach_child_repr; [exact Hg | exact Hn | |].
    + intros Hx. apply Hg_notin. apply elem_of_app. by left.
    + intros Hx. apply Hg_notin. apply elem_of_app. by right.
  - destruct (attach_lookup_child h g n (length k1) og on Hog Hon)
      as [o' [Ho' [Hgrp _]]].
    rewrite Ho'. simpl. by rewrite Hgrp.
Qed.

(** A target strictly inside the span of the child group [c] is handed to
    [c], less the slots up to and including the one that opens [c]. *)
Lemma addLayerAtIndex_descends (fuel : nat) (h : heap) (g n : loc)
    (k1 : list tree) (c : loc) (ks k2 : list tree) (N : tree) (t : Z) :
  repr h g (TGroup g (k1 ++ TGroup c ks :: k2)) ->
  repr h n N ->
  (depth (TGroup g (k1 ++ TGroup c ks :: k2)) < S fuel)%nat ->
  (depth N < fuel)%nat ->
  Zsum (map tsize k1) + (tsize N - 1) < t
  < Zsum (map tsize k1) + (tsize N - 1) + tsize (TGroup c ks) ->
  addLayerAtIndex_scan fuel h g n t
  = Ret (ScanRecurse c (Zsum (map tsize k1) + (tsize N - 1))) /\
  addLayerAtIndex (S fuel) g n t h
  = addLayerAtIndex fuel c n (t - (Zsum (map tsize k1) + (tsize N - 1) + 1)) h.
Proof.
  intros Hg Hn Hdg Hdn Ht.
  inversion Hg as [| ? og ? Hog Hcls Hk]; subst.
  apply Forall2_app_inv_r in Hk as [l1 [l2' [Hk1 [Hk2 Hlay]]]].
  apply Forall2_cons_inv_r in Hk2 as [c0 [l2 [Hc [Hk2 ->]]]].
  pose proof (repr_root h c0 _ Hc) as Hroot. simpl in Hroot. subst c0.
  pose proof (kids_depth fuel g _ Hdg) as Hdk.
  apply Forall_app in Hdk as [Hdk1 Hdk2]. apply Forall_cons_1 in Hdk2 as [Hdc _].
  assert (scan (getSize fuel h) h t (lyr_layers og) 0 (tsize N - 1) (tsize N - 1)
          = Ret (ScanRecurse c (Zsum (map tsize k1) + (tsize N - 1)))) as Hscan.
  { rewrite Hlay.
    rewrite (scan_inside fuel h t l1 k1 c ks l2 Hk1 Hdk1 Hc Hdc) by lia.
    do 2 f_equal. lia. }
  split.
  - unfold addLayerAtIndex_scan, deref. rewrite Hog. cbn [obind].
    by rewrite (getSize_repr fuel h n N Hn Hdn).
  - by rewrite (addLayerAtIndex_step fuel h g n t og (tsize N) _ Hog Hcls
                  (getSize_repr fuel h n N Hn Hdn) Hscan).
Qed.

(** C3, in the form that holds.
    For a composite [g] with children [kids], a separate node [n] of size
    [s] and a target index [t], [g.addLayerAtIndex(n, t)] either inserts
    [n] as a child of [g], or of a composite below [g] by the recursive
    call with index [t - (currentIndex + 1)], and sets [n]'s group to the
    composite that received it; or, when the scan ends with the running
    index not equal to [t], fails on the insertion assertion without
    inserting.  Which of them is decided by where [t] lies among the
    boundaries "sizes of the first children, plus [s - 1]".
    - On a boundary the scan ends with the running index equal to [t]: [n]
      becomes the child of [g] at that boundary, its group is [g], and it
      starts at the flattened position [t - (s - 1)]: its last slot is [t].
    - Below the first boundary or beyond the last one the scan ends with a
      running index that is not [t]: the call fails on the insertion
      assertion and the store is left as it was.
    - Otherwise [t] lies strictly inside the span of a child group [c]: the
      scan stops at [c], and the call is the recursive call
      [c.addLayerAtIndex(n, t - (currentIndex + 1))], [currentIndex] being
      the boundary in front of [c].
    - One of the three applies.
    Whatever the depth of the recursion, the call returns or fails.  When
    it returns, [n] has been added to the children of [g] or of a composite
    below [g], its group is that composite, and its last flattened slot
    within [g] is [t] when [n] is a leaf (its only slot) or when [g] itself
    received it.  When it fails, it fails on the insertion assertion of
    the composite where the scan ended, and the store is left as it was. *)
Theorem addLayerAtIndex_decided (fuel : nat) (h : heap) (g n : loc)
    (kids : list tree) (N : tree) (t : Z) :
  repr h g (TGroup g kids) ->
  repr h n N ->
  NoDup (locs (TGroup g kids) ++ locs N) ->
  (depth (TGroup g kids) + depth N < fuel)%nat ->
  (forall k1 k2,
     kids = k1 ++ k2 ->
     t = Zsum (map tsize k1) + (tsize N - 1) ->
     addLayerAtIndex_scan (Nat.pred fuel) h g n t = Ret (ScanEnd (length k1) t) /\
     exists h',
       addLayerAtIndex fuel g n t h = (h', Ret tt) /\
       repr h' g (TGroup g (k1 ++ N :: k2)) /\
       (lyr_group <$> h' !! n) = Some (Some g) /\
       at_pos (k1 ++ N :: k2) (t - (tsize N - 1)) N) /\
  (t < tsize N - 1 \/ Zsum (map tsize kids) + (tsize N - 1) < t ->
   (exists i c,
      addLayerAtIndex_scan (Nat.pred fuel) h g n t = Ret (ScanEnd i c) /\ c <> t) /\
   addLayerAtIndex fuel g n t h = (h, Throw (invalid_insertion_index t))) /\
  (forall k1 c ks k2,
     kids = k1 ++ TGroup c ks :: k2 ->
     Zsum (map tsize k1) + (tsize N - 1) < t
     < Zsum (map tsize k1) + (tsize N - 1) + tsize (TGroup c ks) ->
     addLayerAtIndex_scan (Nat.pred fuel) h g n t
     = Ret (ScanRecurse c (Zsum (map tsize k1) + (tsize N - 1))) /\
     addLayerAtIndex fuel g n t h
     = addLayerAtIndex (Nat.pred fuel) c n
         (t - (Zsum (map tsize k1) + (tsize N - 1) + 1)) h) /\
  ((exists k1 k2,
      kids = k1 ++ k2 /\ t = Zsum (map tsize k1) + (tsize N - 1)) \/
   (t < tsize N - 1 \/ Zsum (map tsize kids) + (tsize N - 1) < t) \/
   (exists k1 c ks k2,
      kids = k1 ++ TGroup c ks :: k2 /\
      Zsum (map tsize k1) + (tsize N - 1) < t
      < Zsum (map tsize k1) + (tsize N - 1) + tsize (TGroup c ks))) /\
  (forall h' out,
     addLayerAtIndex fuel g n t h = (h', out) ->
     match out with
     | Ret _ =>
         exists r kids',
           inserted N r (TGroup g kids) (TGroup g kids') /\
           repr h' g (TGroup g kids') /\
           (lyr_group <$> h' !! n) = Some (Some r) /\
           ((tsize N = 1 \/ r = g) -> at_pos kids' (t - (tsize N - 1)) N)
     | Throw e => h' = h /\ exists t', e = invalid_insertion_index t'
     | OutOfFuel => False
     end).
Proof.
  intros Hg Hn Hnd Hd.
  assert (1 <= depth (TGroup g kids))%nat as Hd1 by (simpl; lia).
  destruct fuel as [| fuel]; [lia |]. cbn [Nat.pred].
  split; [| split; [| split; [| split]]].
  - intros k1 k2 -> ->.
    destruct (addLayerAtIndex_boundary fuel h g n k1 k2 N Hg Hn Hnd)
      as [Hscan [Hrun [Hrep Hgrp]]]; [lia | lia |].
    split; [exact Hscan |].
    exists (attach g n (length k1) h).
    split; [exact Hrun |]. split; [exact Hrep |]. split; [exact Hgrp |].
    replace (Zsum (map tsize k1) + (tsize N - 1) - (tsize N - 1))
      with (Zsum (map tsize k1) + 0) by lia.
    apply at_pos_app_r. constructor.
  - intros Hrange.
    apply (addLayerAtIndex_rejects fuel h g n kids N t Hg Hn); [lia | lia | exact Hrange].
  - intros k1 c ks k2 -> Ht.
    apply (addLayerAtIndex_descends fuel h g n k1 c ks k2 N t Hg Hn); [lia | lia | exact Ht].
  - destruct (decide (t < tsize N - 1)) as [Hlow | Hlow]; [right; left; by left |].
    destruct (decide (Zsum (map tsize kids) + (tsize N - 1) < t)) as [Hhigh | Hhigh];
      [right; left; by right |].
    destruct (span_cases kids (tsize N - 1) t ltac:(lia))
      as [[k1 [k2 [Hk Ht]]] | [k1 [c [ks [k2 [Hk Ht]]]]]].
    + left. exists k1, k2. split; [exact Hk | lia].
    + right; right. exists k1, c, ks, k2. split; [exact Hk | lia].
  - intros h' out Hrun.
    destruct (addLayerAtIndex_spec (S fuel) h g kids n N t Hg Hn Hnd Hd)
      as [[t' Hfail] | [r [i [kids' [Hok [Hins [Hrep Hpos]]]]]]].
    + rewrite Hfail in Hrun. injection Hrun as <- <-. split; [reflexivity | by exists t'].
    + rewrite Hok in Hrun. injection Hrun as <- <-.
      exists r, kids'. split; [exact Hins |]. split; [exact Hrep |].
      split; [| exact Hpos].
      destruct (repr_locs_valid h _ g r Hg (inserted_receiver N r _ _ Hins)) as [or Hor].
      destruct (repr_lookup h n N Hn) as [on Hon].
      destruct (attach_lookup_child h r n i or on Hor Hon) as [o' [Ho' [Hgrp _]]].
      rewrite Ho'. simpl. by rewrite Hgrp.
Qed.

Lemma addLayerAtIndex_decided_witness :
  (addLayerAtIndex_scan 4 snapshot_with_C snapshot_root snapshot_C 2
   = Ret (ScanRecurse snapshot_G 1) /\
   addLayerAtIndex 5 snapshot_root snapshot_C 2 snapshot_with_C
   = addLayerAtIndex 4 snapshot_G snapshot_C 0 snapshot_with_C) /\
  (addLayerAtIndex_scan 3 snapshot_with_C snapshot_G snapshot_C 0
   = Ret (ScanEnd 0 0) /\
   exists h',
     addLayerAtIndex 4 snapshot_G snapshot_C 0 snapshot_with_C = (h', Ret tt) /\
     repr h' snapshot_G (TGroup snapshot_G ([] ++ TLeaf snapshot_C :: [TLeaf snapshot_B])) /\
     (lyr_group <$> h' !! snapshot_C) = Some (Some snapshot_G) /\
     at_pos ([] ++ TLeaf snapshot_C :: [TLeaf snapshot_B])
            (0 - (tsize (TLeaf snapshot_C) - 1)) (TLeaf snapshot_C)) /\
  ((exists i c,
      addLayerAtIndex_scan 4 snapshot_with_C snapshot_root snapshot_C 5
      = Ret (ScanEnd i c) /\ c <> 5) /\
   addLayerAtIndex 5 snapshot_root snapshot_C 5 snapshot_with_C
   = (snapshot_with_C, Throw (AssertionError "Invalid insertion index: 5"))).
Proof.
  assert (repr snapshot_with_C snapshot_root (TGroup snapshot_root snapshot_kids))
    as Hroot by exact snapshot_with_C_repr.
  assert (repr snapshot_with_C snapshot_G (TGroup snapshot_G [TLeaf snapshot_B])) as HG.
  { eapply repr_group; [reflexivity | reflexivity |]. simpl.
    constructor; [eapply repr_leaf; reflexivity | constructor]. }
  assert (repr snapshot_with_C snapshot_C (TLeaf snapshot_C))
    as HC by exact snapshot_with_C_leaf.
  assert (NoDup (locs (TGroup snapshot_root snapshot_kids) ++ locs (TLeaf snapshot_C)))
    as Hnd by (apply (bool_decide_unpack _); vm_compute; reflexivity).
  assert (NoDup (locs (TGroup snapshot_G [TLeaf snapshot_B]) ++ locs (TLeaf snapshot_C)))
    as HndG by (apply (bool_decide_unpack _); vm_compute; reflexivity).
  split; [| split].
  - apply (proj1 (proj2 (proj2
             (addLayerAtIndex_decided 5 snapshot_with_C snapshot_root snapshot_C
                snapshot_kids (TLeaf snapshot_C) 2 Hroot HC Hnd ltac:(simpl; lia))))
             [TLeaf snapshot_A] snapshot_G [TLeaf snapshot_B] []).
    + reflexivity.
    + simpl. lia.
  - apply (proj1
             (addLayerAtIndex_decided 4 snapshot_with_C snapshot_G snapshot_C
                [TLeaf snapshot_B] (TLeaf snapshot_C) 0 HG HC HndG ltac:(simpl; lia))
             [] [TLeaf snapshot_B]).
    + reflexivity.
    + simpl. lia.
  - apply (proj1 (proj2
             (addLayerAtIndex_decided 5 snapshot_with_C snapshot_root snapshot_C
                snapshot_kids (TLeaf snapshot_C) 5 Hroot HC Hnd ltac:(simpl; lia)))).
    right. simpl. lia.
Defined.
